(** * pot-app-qwen-mt: the [translate] plugin entry point

    A shallow embedding of [src/main.js] (cache lookup, term store with
    migration from the legacy JSON file, whole-word term matcher, request
    builder, response normaliser) and of the clamped temperature variant
    kept in the repository, followed by the properties of the design
    document checked against them.

    Conventions.
    - A JavaScript string is the list of its UTF-16 code units ([list N]).
    - Values that come out of [JSON.parse] or of the HTTP response are
      [json] trees; [undefined] is [None] in [option json].
    - A number is NaN, an infinity or a binary64 value, held as the
      rational it is equal to ([number]); a decimal literal and
      [parseFloat] round to the nearest binary64, ties to even
      ([binary64]). The sign of zero is not kept: [-0] and [0] are alike
      to [||], to the comparisons and to JSON serialisation.
    - Calls into the host ([options.utils], [Database]) read and write the
      stores, passed explicitly, and are recorded, with the log lines, in
      the list of events a computation emits; whether a host call rejects
      is decided by the [fails] oracle of [Utils], so that every [catch]
      of the source is reachable. The loggers [info], [warn] and [error]
      always succeed. *)

From Stdlib Require Import ZArith NArith QArith List String Ascii Bool Lia.
From Stdlib Require Import DecimalString.
From stdpp Require Import base option gmap list.

#[local] Set Warnings "-register-all".

Local Open Scope N_scope.

(* ================================================================= *)
(** ** Strings *)

(** A literal of the source, as code units (ASCII literals only). *)
Definition lit (s : string) : list N :=
  map N_of_ascii (list_ascii_of_string s).

Definition inRange (lo hi c : N) : bool := (lo <=? c) && (c <=? hi).

(** WhiteSpace and LineTerminator code units, as used by
    [String.prototype.trim] and by [parseFloat]. *)
Definition isWhiteSpace (c : N) : bool :=
  inRange 9 13 c || (c =? 32) || (c =? 160) || (c =? 5760)
  || inRange 8192 8202 c || (c =? 8232) || (c =? 8233) || (c =? 8239)
  || (c =? 8287) || (c =? 12288) || (c =? 65279).

Fixpoint trimStart (s : list N) : list N :=
  match s with
  | c :: s' => if isWhiteSpace c then trimStart s' else s
  | [] => []
  end.

Definition trimEnd (s : list N) : list N := rev (trimStart (rev s)).

Definition trim (s : list N) : list N := trimEnd (trimStart s).

Definition isEmpty {A} (s : list A) : bool :=
  match s with [] => true | _ => false end.

Fixpoint startsWith (p s : list N) : bool :=
  match p, s with
  | [], _ => true
  | a :: p', b :: s' => (a =? b) && startsWith p' s'
  | _ :: _, [] => false
  end.

(** [s.includes(p)] *)
Fixpoint includes (s p : list N) : bool :=
  startsWith p s || match s with [] => false | _ :: s' => includes s' p end.

(** [`${x}`] of a value that is a string or [null]/[undefined]. *)
Definition showOpt (undef : string) (x : option (list N)) : list N :=
  match x with Some s => s | None => lit undef end.

(** [`${n}`] of an integer. *)
Definition showZ (z : Z) : list N := lit (NilZero.string_of_int (Z.to_int z)).

(* ================================================================= *)
(** ** Numbers and [parseFloat] *)

Inductive number :=
| NaN
| Infinity (negative : bool)
| Finite (q : Q).

Definition isDigit (c : N) : bool := inRange 48 57 c.

Fixpoint takeDigits (s : list N) : list N * list N :=
  match s with
  | c :: s' =>
      if isDigit c then let '(d, r) := takeDigits s' in (c :: d, r)
      else ([], s)
  | [] => ([], [])
  end.

Definition digitsValue (d : list N) : Z :=
  fold_left (fun acc c => (10 * acc + Z.of_N (c - 48))%Z) d 0%Z.

(** [m * 10^k] as a reduced fraction. *)
Definition scale10 (m k : Z) : Q :=
  if (0 <=? k)%Z then Qmake (m * 10 ^ k) 1
  else Qred (Qmake m (Z.to_pos (10 ^ (- k)))).

(** The optional ExponentPart: consumed only when a digit follows. *)
Definition takeExponent (s : list N) : Z :=
  match s with
  | c :: r =>
      if (c =? 101) || (c =? 69) then
        let '(neg, r') :=
          match r with
          | x :: r0 =>
              if x =? 45 then (true, r0)
              else if x =? 43 then (false, r0) else (false, r)
          | [] => (false, r)
          end in
        let '(d, _) := takeDigits r' in
        if isEmpty d then 0%Z
        else if neg then (- digitsValue d)%Z else digitsValue d
      else 0%Z
  | [] => 0%Z
  end.

(** Round to nearest, ties to even, of [n / d] for [0 <= n], [0 < d]. *)
Definition roundHalfEven (n d : Z) : Z :=
  let q := (n / d)%Z in
  match (2 * (n mod d) ?= d)%Z with
  | Lt => q
  | Gt => (q + 1)%Z
  | Eq => if Z.even q then q else (q + 1)%Z
  end.

(** [floor (log2 (n / d))] for [0 < n], [0 < d]. *)
Definition floorLog2 (n d : Z) : Z :=
  let k := (Z.log2 n - Z.log2 d)%Z in
  let above :=
    if (0 <=? k)%Z then (d * 2 ^ k <=? n)%Z else (d <=? n * 2 ^ (- k))%Z in
  if above then k else (k - 1)%Z.

(** The Number value of a rational: the nearest binary64 (53 bits of
    significand, exponents down to the subnormals at [2^-1074]), ties to
    even; an infinity from [2^1024] on. *)
Definition binary64 (q : Q) : number :=
  let neg := (Qnum q <? 0)%Z in
  let n := Z.abs (Qnum q) in
  let d := Zpos (Qden q) in
  if (n =? 0)%Z then Finite (Qmake 0 1)
  else
    let e := Z.max (floorLog2 n d - 52) (-1074) in
    let m :=
      if (0 <=? e)%Z then roundHalfEven n (d * 2 ^ e)
      else roundHalfEven (n * 2 ^ (- e)) d in
    if (0 <=? e)%Z && (2 ^ 1024 <=? m * 2 ^ e)%Z then Infinity neg
    else
      let v :=
        if (0 <=? e)%Z then Qmake (m * 2 ^ e) 1
        else Qred (Qmake m (Z.to_pos (2 ^ (- e)))) in
      Finite (if neg then Qopp v else v).

(** [parseFloat(s)]: leading white space is skipped, then the longest
    prefix that is a StrDecimalLiteral is read, and its value rounded to
    a Number; NaN when there is none. *)
Definition parseFloat (s : list N) : number :=
  let t := trimStart s in
  let '(neg, t1) :=
    match t with
    | c :: r =>
        if c =? 45 then (true, r)
        else if c =? 43 then (false, r) else (false, t)
    | [] => (false, t)
    end in
  if startsWith (lit "Infinity") t1 then Infinity neg
  else
    let '(ip, t2) := takeDigits t1 in
    let '(fp, t3) :=
      match t2 with
      | c :: r => if c =? 46 then takeDigits r else ([], t2)
      | [] => ([], t2)
      end in
    if isEmpty ip && isEmpty fp then NaN
    else
      let m := digitsValue (ip ++ fp) in
      let k := (takeExponent t3 - Z.of_nat (length fp))%Z in
      let q := scale10 m k in
      binary64 (if neg then Qopp q else q).

(** ToBoolean of a number: NaN and the zeros are falsy. *)
Definition numberTruthy (n : number) : bool :=
  match n with
  | NaN => false
  | Infinity _ => true
  | Finite q => negb (Qeq_bool q 0)
  end.

Definition isNaN (n : number) : bool :=
  match n with NaN => true | _ => false end.

(** [n >= 0] and [n < 2] (false on NaN). *)
Definition geZero (n : number) : bool :=
  match n with
  | NaN => false
  | Infinity negative => negb negative
  | Finite q => Qle_bool 0 q
  end.

Definition ltTwo (n : number) : bool :=
  match n with
  | NaN => false
  | Infinity negative => negative
  | Finite q => negb (Qle_bool 2 q)
  end.

(** The literal [0.65]. *)
Definition defaultTemperature : number := binary64 (Qmake 13 20).

(** [parseFloat(temperature)] where [temperature] may be [undefined]:
    ToString(undefined) has no numeric prefix. *)
Definition parseFloatOpt (temperature : option (list N)) : number :=
  match temperature with
  | Some s => parseFloat s
  | None => NaN
  end.

(** src/main.js line 249: [parseFloat(temperature) || 0.65]. *)
Definition temperatureOf (temperature : option (list N)) : number :=
  let v := parseFloatOpt temperature in
  if numberTruthy v then v else defaultTemperature.

(** src/unnamed/part_001 lines 91-104, the variant that clamps to [0, 2). *)
Definition temperatureClamped (temperature : option (list N)) : number :=
  match temperature with
  | Some (_ :: _) =>
      let tempValue := parseFloatOpt temperature in
      if negb (isNaN tempValue) && geZero tempValue && ltTwo tempValue
      then tempValue
      else defaultTemperature
  | _ => defaultTemperature
  end.

(* ================================================================= *)
(** ** JSON values *)

Inductive json :=
| JNull
| JBool (b : bool)
| JNum (n : number)
| JStr (s : list N)
| JArr (items : list json)
| JObj (fields : list (list N * json)).

(** ToBoolean; [None] is [undefined]. *)
Definition truthy (v : option json) : bool :=
  match v with
  | None | Some JNull => false
  | Some (JBool b) => b
  | Some (JNum n) => numberTruthy n
  | Some (JStr s) => negb (isEmpty s)
  | Some (JArr _) | Some (JObj _) => true
  end.

Fixpoint assoc (k : list N) (fields : list (list N * json)) : option json :=
  match fields with
  | (k', v) :: rest => if bool_decide (k = k') then Some v else assoc k rest
  | [] => None
  end.

(** [v.k] for a [v] that is neither [null] nor [undefined] and a name [k]
    that is no array index and not [length]: only objects carry it. *)
Definition prop (k : string) (v : json) : option json :=
  match v with
  | JObj fields => assoc (lit k) fields
  | _ => None
  end.

(** [v[0]] for a [v] that is neither [null] nor [undefined]. *)
Definition index0 (v : json) : option json :=
  match v with
  | JArr items => head items
  | JStr (c :: _) => Some (JStr [c])
  | JObj fields => assoc (lit "0") fields
  | _ => None
  end.

(** Optional chaining [o?.f]: [undefined] when [o] is nullish. *)
Definition optChain (o : option json) (f : json -> option json) : option json :=
  match o with
  | None | Some JNull => None
  | Some v => f v
  end.

(* ================================================================= *)
(** ** Built-ins of the platform that the embedding takes as given *)

Record Platform := {
  (** [String.prototype.toUpperCase] on the one-unit string of a code unit
      above the ASCII range *)
  unicodeUpper : N -> list N;
  (** [String.prototype.toLowerCase] *)
  toLowerCase : list N -> list N;
  (** [JSON.parse]; [None] is a SyntaxError *)
  JSON_parse : list N -> option json;
  (** [JSON.stringify] *)
  JSON_stringify : json -> list N;
  (** the text the driver stores in a TEXT column for a bound value that
      is not a string; [None] when it rejects the value *)
  sqlText : json -> option (list N)
}.

(* ================================================================= *)
(** ** Regular expressions, as far as [translate] builds them *)

Inductive atom :=
| WordBoundary
| Char (c : N).

Record regex := { atoms : list atom; ignoreCase : bool; global : bool }.

(** SyntaxCharacter: ^ $ \ . * + ? ( ) [ ] { } | *)
Definition isSyntaxChar (c : N) : bool :=
  (c =? 94) || (c =? 36) || (c =? 92) || (c =? 46) || (c =? 42) || (c =? 43)
  || (c =? 63) || (c =? 40) || (c =? 41) || (c =? 91) || (c =? 93)
  || (c =? 123) || (c =? 125) || (c =? 124).

(** The pattern grammar restricted to literal characters, escaped syntax
    characters and the assertion \b. A pattern outside this fragment is
    reported as not compiled. *)
Fixpoint parsePattern (p : list N) : option (list atom) :=
  match p with
  | [] => Some []
  | c :: rest =>
      if c =? 92 then
        match rest with
        | d :: rest' =>
            if d =? 98 then cons WordBoundary <$> parsePattern rest'
            else if isSyntaxChar d then cons (Char d) <$> parsePattern rest'
            else None
        | [] => None
        end
      else if isSyntaxChar c then None
      else cons (Char c) <$> parsePattern rest
  end.

Definition parseFlags (f : list N) : option (bool * bool) :=
  if bool_decide (f = []) then Some (false, false)
  else if bool_decide (f = lit "i") then Some (true, false)
  else if bool_decide (f = lit "g") then Some (false, true)
  else None.

(** [new RegExp(pattern, flags)]; [None] is a SyntaxError. *)
Definition RegExp (pattern flags : list N) : option regex :=
  a ← parsePattern pattern;
  '(i, g) ← parseFlags flags;
  Some {| atoms := a; ignoreCase := i; global := g |}.

(** \w without the unicode flag: [A-Za-z0-9_]. *)
Definition isWordChar (c : N) : bool :=
  inRange 97 122 c || inRange 65 90 c || inRange 48 57 c || (c =? 95).

Definition isWordCharOpt (c : option N) : bool :=
  match c with Some x => isWordChar x | None => false end.

(** A row of the [terms] table, as [SELECT source, target, case_sensitive]
    returns it, and the projection pushed onto [matchedTerms]. *)
Record term := { source : list N; target : list N; case_sensitive : Z }.

Record matchedTerm := { m_source : list N; m_target : list N }.

Section Matching.
Context (P : Platform).

(** [toUpperCase] of a one-unit string. *)
Definition upperUnit (c : N) : list N :=
  if c <? 128 then [if inRange 97 122 c then c - 32 else c]
  else unicodeUpper P c.

(** Canonicalize (no unicode flag): the upper-case unit, unless the
    mapping is not one unit long or would fold a non-ASCII unit into
    ASCII. *)
Definition canonicalize (ic : bool) (c : N) : N :=
  if ic then
    match upperUnit c with
    | [cu] => if (128 <=? c) && (cu <? 128) then c else cu
    | _ => c
    end
  else c.

(** Match the atoms at the current position; [prev] is the unit before
    it. Returns how many units were consumed. *)
Fixpoint matchAtoms (ic : bool) (a : list atom) (prev : option N)
    (rest : list N) : option nat :=
  match a with
  | [] => Some O
  | WordBoundary :: a' =>
      if xorb (isWordCharOpt prev) (isWordCharOpt (head rest))
      then matchAtoms ic a' prev rest
      else None
  | Char c :: a' =>
      match rest with
      | d :: rest' =>
          if canonicalize ic c =? canonicalize ic d
          then S <$> matchAtoms ic a' (Some d) rest'
          else None
      | [] => None
      end
  end.

Fixpoint searchFrom (ic : bool) (a : list atom) (prev : option N)
    (rest : list N) : bool :=
  match matchAtoms ic a prev rest with
  | Some _ => true
  | None =>
      match rest with
      | d :: rest' => searchFrom ic a (Some d) rest'
      | [] => false
      end
  end.

(** [regex.test(text)] for a regex without the global flag. *)
Definition test (r : regex) (text : list N) : bool :=
  searchFrom (ignoreCase r) (atoms r) None text.

(** [s.replace(regex, '')] for a global regex: scan from the left,
    drop every match, resume after it. [skip] counts the units of the
    current match still to drop. *)
Fixpoint removeFrom (ic : bool) (a : list atom) (skip : nat)
    (prev : option N) (rest : list N) : list N :=
  match rest with
  | [] => []
  | d :: rest' =>
      match skip with
      | S k => removeFrom ic a k (Some d) rest'
      | O =>
          match matchAtoms ic a prev rest with
          | Some (S k) => removeFrom ic a k (Some d) rest'
          | _ => d :: removeFrom ic a O (Some d) rest'
          end
      end
  end.

Definition replaceAllEmpty (r : regex) (s : list N) : list N :=
  removeFrom (ignoreCase r) (atoms r) O None s.

(* =============================================================== *)
(** ** Term matcher (src/main.js lines 203-233) *)

(** [source.replace(/[.*+?^${}()|[\]\\]/g, '\\$&')] *)
Definition escapeSource (src : list N) : list N :=
  flat_map (fun c => if isSyntaxChar c then [92; c] else [c]) src.

Definition isMatch (text : list N) (t : term) : bool :=
  let caseSensitive := (case_sensitive t =? 1)%Z in
  let escapedSource := escapeSource (source t) in
  let regexPattern := lit "\b" ++ escapedSource ++ lit "\b" in
  let regexFlags := if caseSensitive then [] else lit "i" in
  match RegExp regexPattern regexFlags with
  | Some re => test re text
  | None =>
      if caseSensitive then includes text (source t)
      else includes (toLowerCase P text) (toLowerCase P (source t))
  end.

(** The loop over [allTerms], pushing onto [matchedTerms]. *)
Definition matchTerms (text : list N) (allTerms : list term)
    : list matchedTerm :=
  fold_left
    (fun matchedTerms t =>
       if isMatch text t
       then matchedTerms ++ [{| m_source := source t; m_target := target t |}]
       else matchedTerms)
    allTerms [].

(* =============================================================== *)
(** ** Response normaliser (src/main.js lines 273-276) *)

(** The sentinel [<|endofcontent|>] and the regex literal
    [/<\|endofcontent\|>/g]. *)
Definition sentinel : list N := lit "<|endofcontent|>".

Definition sentinelRegex : regex :=
  {| atoms := map Char sentinel; ignoreCase := false; global := true |}.

(** [result?.choices?.[0]?.message?.content] *)
Definition contentOf (result : option json) : option json :=
  optChain (optChain (optChain (optChain result (prop "choices")) index0)
              (prop "message")) (prop "content").

(** [... || ''] *)
Definition contentOrEmpty (result : option json) : json :=
  match contentOf result with
  | Some v => if truthy (Some v) then v else JStr []
  | None => JStr []
  end.

(** [translation.replace(/<\|endofcontent\|>/g, '').trim()]: only a
    string has [replace]; [None] is the TypeError on any other value. *)
Definition normalize (result : option json) : option (list N) :=
  match contentOrEmpty result with
  | JStr s => Some (trim (replaceAllEmpty sentinelRegex s))
  | _ => None
  end.

End Matching.

(* ================================================================= *)
(** ** The host: configuration, utilities, stores *)

(** [options.config]; [None] is a field that is not set. *)
Record Config := {
  model : option (list N);
  apiKey : option (list N);
  domains : option (list N);
  temperature : option (list N);
  termsFile : option (list N);
  databaseFile : option (list N);
  forceOnline : option (list N)
}.

(** The payload handed to [fetch]. *)
Record request := {
  url : list N;
  authorization : list N;
  req_model : list N;
  req_content : list N;
  source_lang : list N;
  target_lang : list N;
  req_temperature : number;
  req_terms : option (list matchedTerm);
  req_domains : option (list N)
}.

Record response := { ok : bool; status : Z; data : option json }.

(** The statements [translate] sends to a store. *)
Inductive sql :=
| CreateTranslations
| SelectTranslation (text from to : list N)
| UpsertTranslation (text from to translation : list N)
| CreateTerms
| InsertTermOrIgnore (src tgt : option json)
| SelectTerms.

Inductive hostcall :=
| Join (dir file : list N)
| DatabaseLoad (uri : list N)
| Execute (handle : list N) (q : sql)
| Select (handle : list N) (q : sql)
| Exists (path : option (list N))
| ReadTextFile (path : option (list N))
| Fetch (req : request).

(** [options.utils]. [fails] tells which host calls reject. *)
Record Utils := {
  cacheDir : list N;
  join : option (list N -> list N -> list N);
  files : gmap (list N) (list N);
  fetch : request -> response;
  fails : hostcall -> bool
}.

(** What a [throw] or a rejected promise carries. *)
Inductive exn :=
| Rejected (c : hostcall)
| TypeError
| SyntaxError
| Thrown (msg : list N).

Inductive level := Info | Warn | Error.

Inductive message :=
| ConfigPathDetected (fileName : list N)
| CacheHit
| CacheMiss
| ForcedOnline
| DatabaseError (err : exn)
| TermsCheckFailed (e : exn)
| JsonTermsDetected (n : nat)
| TermsSqliteFailed (dbErr : exn)
| MigrationStarted
| Migrated (migratedCount : nat)
| TermsReady
| TermsUnavailable
| TermsInitFailed (err : exn)
| TermsLoaded (n : nat)
| TermsMatched (n : nat)
| TermsMatchFailed (err : exn)
| OnlineApi
| CacheStored
| CacheWriteFailed (e : exn)
| ApiError (errMsg : list N).

Inductive event :=
| Called (c : hostcall)
| Logged (l : level) (m : message).

(** One SQLite file: the two tables [translate] creates, each absent
    until created. [translations] is keyed by its UNIQUE triple; [terms]
    keeps its rows in insertion order. *)
Record database := {
  translations : option (gmap (list N * list N * list N) (list N));
  terms : option (list term)
}.

(* ================================================================= *)
(** ** Control flow: normal completion, [return], [throw] *)

Inductive outcome (A : Type) :=
| Normal (a : A)
| Return (v : list N)
| Throw (e : exn).
Arguments Normal {A} a.
Arguments Return {A} v.
Arguments Throw {A} e.

(** A computation reads the stores (by path) and yields an outcome, the
    stores it leaves, and the events it emitted, oldest first. *)
Definition M (A : Type) : Type :=
  gmap (list N) database -> outcome A * gmap (list N) database * list event.

#[global] Instance M_ret : MRet M := fun A a w => (Normal a, w, []).

#[global] Instance M_bind : MBind M := fun A B k m w =>
  match m w with
  | (Normal a, w', ev) => let '(o, w'', ev') := k a w' in (o, w'', ev ++ ev')
  | (Return v, w', ev) => (Return v, w', ev)
  | (Throw e, w', ev) => (Throw e, w', ev)
  end.

Definition throw {A} (e : exn) : M A := fun w => (Throw e, w, []).

Definition return_ {A} (v : list N) : M A := fun w => (Return v, w, []).

(** [try { body } catch (e) { handler e }]: a [return] passes through. *)
Definition try_catch {A} (body : M A) (handler : exn -> M A) : M A :=
  fun w =>
    match body w with
    | (Throw e, w', ev) =>
        let '(o, w'', ev') := handler e w' in (o, w'', ev ++ ev')
    | r => r
    end.

Definition get : M (gmap (list N) database) := fun w => (Normal w, w, []).

Definition emit (e : event) : M unit := fun w => (Normal tt, w, [e]).

Definition set_store (path : list N) (d : database) : M unit :=
  fun w => (Normal tt, <[path := d]> w, []).

Definition info (m : message) : M unit := emit (Logged Info m).
Definition warn (m : message) : M unit := emit (Logged Warn m).
Definition error (m : message) : M unit := emit (Logged Error m).

(** What the caller of [translate] observes. *)
Inductive result :=
| Ok (translation : list N)
| Failed (e : exn).

Definition emptyDatabase : database :=
  {| translations := None; terms := None |}.

(* ================================================================= *)
(** ** [translate] (src/main.js) *)

Section Translate.
Context (P : Platform) (U : Utils) (C : Config).

(** A host call is recorded, then rejects when the oracle says so. *)
Definition hostCall (c : hostcall) : M unit :=
  emit (Called c);;
  if fails U c then throw (Rejected c) else mret tt.

(** [Database.load(uri)]: opens the file behind [sqlite:<path>],
    creating an empty one when there is none. The handle is the path. *)
Definition Database_load (uri : list N) : M (list N) :=
  hostCall (DatabaseLoad uri);;
  if startsWith (lit "sqlite:") uri then
    let path := drop 7 uri in
    w ← get;
    match w !! path with
    | Some _ => mret path
    | None => set_store path emptyDatabase;; mret path
    end
  else throw (Rejected (DatabaseLoad uri)).

(** The text a bound value becomes in a TEXT column. *)
Definition textOf (v : option json) : option (list N) :=
  match v with
  | Some (JStr s) => Some s
  | Some v' => sqlText P v'
  | None => None
  end.

Definition hasSource (s : list N) (rows : list term) : bool :=
  existsb (fun r => bool_decide (source r = s)) rows.

(** The effect of a statement on one store; [None] is an SQL error
    (no such table, value not bindable). *)
Definition runExecute (q : sql) (d : database) : option database :=
  match q with
  | CreateTranslations =>
      Some {| translations := Some (default ∅ (translations d));
              terms := terms d |}
  | UpsertTranslation text from to tr =>
      m ← translations d;
      Some {| translations := Some (<[(text, from, to) := tr]> m);
              terms := terms d |}
  | CreateTerms =>
      Some {| translations := translations d;
              terms := Some (default [] (terms d)) |}
  | InsertTermOrIgnore src tgt =>
      rows ← terms d;
      s ← textOf src;
      t ← textOf tgt;
      Some (if hasSource s rows then d
            else {| translations := translations d;
                    terms := Some (rows ++ [{| source := s; target := t;
                                               case_sensitive := 0 |}]) |})
  | SelectTranslation _ _ _ | SelectTerms => Some d
  end.

Definition execute (h : list N) (q : sql) : M unit :=
  hostCall (Execute h q);;
  w ← get;
  match w !! h ≫= runExecute q with
  | Some d' => set_store h d'
  | None => throw (Rejected (Execute h q))
  end.

Definition selectTranslation (h text from to : list N) : M (list (list N)) :=
  hostCall (Select h (SelectTranslation text from to));;
  w ← get;
  match w !! h ≫= translations with
  | Some m => mret (option_list (m !! (text, from, to)))
  | None => throw (Rejected (Select h (SelectTranslation text from to)))
  end.

Definition selectTerms (h : list N) : M (list term) :=
  hostCall (Select h SelectTerms);;
  w ← get;
  match w !! h ≫= terms with
  | Some rows => mret rows
  | None => throw (Rejected (Select h SelectTerms))
  end.

(** [exists(path)]: something is stored under the path, as a text file
    or as a store. *)
Definition exists_ (path : option (list N)) : M bool :=
  hostCall (Exists path);;
  match path with
  | Some p =>
      w ← get;
      mret (bool_decide (is_Some (files U !! p))
            || bool_decide (is_Some (w !! p)))
  | None => throw (Rejected (Exists path))
  end.

Definition readTextFile (path : option (list N)) : M (list N) :=
  hostCall (ReadTextFile path);;
  match path ≫= (files U !!.) with
  | Some content => mret content
  | None => throw (Rejected (ReadTextFile path))
  end.

Definition parseJSON (content : list N) : M json :=
  match JSON_parse P content with
  | Some v => mret v
  | None => throw SyntaxError
  end.

(** [v.k] on an element of a parsed array: a TypeError on [null]. *)
Definition member (k : string) (v : json) : M (option json) :=
  match v with
  | JNull => throw TypeError
  | _ => mret (prop k v)
  end.

(** Lines 28-42. *)
Definition resolvePath (fileName : option (list N)) : M (option (list N)) :=
  match fileName with
  | None | Some [] => mret None
  | Some f =>
      if includes f (lit "/") || includes f (lit "\") then
        warn (ConfigPathDetected f);; mret (Some f)
      else
        match join U with
        | Some j =>
            hostCall (Join (cacheDir U) f);; mret (Some (j (cacheDir U) f))
        | None => mret (Some (cacheDir U ++ lit "/" ++ f))
        end
  end.

(** [name && name.trim() !== ''] *)
Definition isSet (name : option (list N)) : bool :=
  match name with
  | Some f => negb (isEmpty f) && negb (isEmpty (trim f))
  | None => false
  end.

(** Line 44. *)
Definition forceOnlineBool : bool :=
  bool_decide (forceOnline C = Some (lit "true")).

(** Lines 47-91: the cache lookup; the result is the final value of
    [db]. A hit leaves [translate] through [return]. The [try] block is
    split where [db] is assigned: an exception before the assignment
    leaves [db] null, one after it leaves the handle in [db]; the same
    [catch] handles both. *)
Definition cacheStage (text from to : list N) : M (option (list N)) :=
  if isSet (databaseFile C) then
    db ←
      try_catch
        (fullDbPath ← resolvePath (databaseFile C);
         h ← Database_load (lit "sqlite:" ++ showOpt "null" fullDbPath);
         mret (Some h))
        (fun err => warn (DatabaseError err);; mret None);
    match db with
    | Some h =>
        try_catch
          (execute h CreateTranslations;;
           if negb forceOnlineBool then
             rows ← selectTranslation h text from to;
             match rows with
             | cachedTranslation :: _ =>
                 info CacheHit;; return_ cachedTranslation
             | [] => info CacheMiss
             end
           else info ForcedOnline)
          (fun err => warn (DatabaseError err));;
        mret (Some h)
    | None => mret None
    end
  else mret None.

(** Lines 157-169: the migration loop. *)
Fixpoint migrate (h : list N) (jsonTerms : list json) (migratedCount : nat)
    : M nat :=
  match jsonTerms with
  | [] => mret migratedCount
  | t :: rest =>
      src ← member "source" t;
      tgt ← member "target" t;
      n ← (if truthy src && truthy tgt then
             try_catch
               (execute h (InsertTermOrIgnore src tgt);;
                mret (S migratedCount))
               (fun insertErr => mret migratedCount)
           else mret migratedCount);
      migrate h rest n
  end.

(** Lines 94-183: the term store, with the migration of a legacy file;
    the result is the final value of [termsDb] (the outer [catch]
    resets it to null). *)
Definition termsStage : M (option (list N)) :=
  if isSet (termsFile C) then
    try_catch
      (fullTermsPath ← resolvePath (termsFile C);
       fileExists ←
         try_catch (exists_ fullTermsPath)
           (fun e => warn (TermsCheckFailed e);; mret false);
       '(needMigration, jsonTerms) ←
         (if fileExists : bool then
            try_catch
              (fileContent ← readTextFile fullTermsPath;
               parsed ← parseJSON fileContent;
               match parsed with
               | JArr items =>
                   info (JsonTermsDetected (length items));;
                   mret (true, items)
               | _ => mret (false, [])
               end)
              (fun jsonErr => mret (false, []))
          else mret (false, []));
       termsDb ←
         try_catch
           (h ← Database_load (lit "sqlite:" ++ showOpt "null" fullTermsPath);
            mret (Some h))
           (fun dbErr => warn (TermsSqliteFailed dbErr);; mret None);
       match termsDb with
       | Some h =>
           execute h CreateTerms;;
           (if (needMigration : bool) && negb (isEmpty jsonTerms) then
              info MigrationStarted;;
              migratedCount ← migrate h jsonTerms O;
              info (Migrated migratedCount)
            else mret tt);;
           info TermsReady
       | None =>
           if needMigration then warn TermsUnavailable else mret tt
       end;;
       mret termsDb)
      (fun err => warn (TermsInitFailed err);; mret None)
  else mret None.

(** Lines 195-242: the terms that occur in the text. *)
Definition matchStage (termsDb : option (list N)) (text : list N)
    : M (list matchedTerm) :=
  match termsDb with
  | Some h =>
      try_catch
        (allTerms ← selectTerms h;
         info (TermsLoaded (length allTerms));;
         let matchedTerms := matchTerms P text allTerms in
         info (TermsMatched (length matchedTerms));;
         mret matchedTerms)
        (fun err => warn (TermsMatchFailed err);; mret [])
  | None => mret []
  end.

(** Lines 186-268: the outbound request. *)
Definition buildRequest (text from to : list N) (matched : list matchedTerm)
    : request :=
  {| url := lit "https://dashscope.aliyuncs.com/compatible-mode/v1/chat/completions";
     authorization := lit "Bearer " ++ showOpt "undefined" (apiKey C);
     req_model := default (lit "qwen-mt-flash") (model C);
     req_content := text;
     source_lang := from;
     target_lang := to;
     req_temperature := temperatureOf (temperature C);
     req_terms := if isEmpty matched then None else Some matched;
     req_domains :=
       match domains C with
       | Some (c :: d) => Some (c :: d)
       | _ => None
       end |}.

(** Line 296. *)
Definition apiErrorMessage (res : response) : list N :=
  lit "API Error " ++ showZ (status res) ++ lit ": "
  ++ showOpt "undefined" (JSON_stringify P <$> data res).

(** Lines 281-291: the write-back. *)
Definition writeBack (db : option (list N)) (text from to translation : list N)
    : M unit :=
  match db with
  | Some h =>
      if negb (isEmpty translation) then
        try_catch
          (execute h (UpsertTranslation text from to translation);;
           info CacheStored)
          (fun e => warn (CacheWriteFailed e))
      else mret tt
  | None => mret tt
  end.

(** Lines 258-299: the remote call, normalisation and write-back. *)
Definition remoteStage (db : option (list N)) (text from to : list N)
    (matched : list matchedTerm) : M (list N) :=
  let req := buildRequest text from to matched in
  hostCall (Fetch req);;
  let res := fetch U req in
  if ok res then
    translation ←
      match normalize P (data res) with
      | Some t => mret t
      | None => throw TypeError
      end;
    info OnlineApi;;
    writeBack db text from to translation;;
    return_ translation
  else
    let errMsg := apiErrorMessage res in
    error (ApiError errMsg);;
    throw (Thrown errMsg).

(** Lines 93-299: what follows the cache lookup when it did not return:
    the terms are loaded and matched, then the remote call is made. *)
Definition termResolution (text : list N) : M (list matchedTerm) :=
  termsDb ← termsStage;
  matchStage termsDb text.

Definition onlineStages (db : option (list N)) (text from to : list N)
    : M (list N) :=
  matchedTerms ← termResolution text;
  remoteStage db text from to matchedTerms.

Definition translateBody (text from to : list N) : M (list N) :=
  db ← cacheStage text from to;
  onlineStages db text from to.

(** One call of [translate(text, from, to, options)] on the stores [w]:
    the caller sees the returned text or the thrown value. *)
Definition translate (text from to : list N) (w : gmap (list N) database)
    : result * gmap (list N) database * list event :=
  match translateBody text from to w with
  | (Normal v, w', ev) | (Return v, w', ev) => (Ok v, w', ev)
  | (Throw e, w', ev) => (Failed e, w', ev)
  end.

End Translate.

(* ================================================================= *)
(** ** Notions used to state the properties *)


Definition projectTerm (t : term) : matchedTerm :=
  {| m_source := source t; m_target := target t |}.

Definition isFetch (e : event) : bool :=
  match e with Called (Fetch _) => true | _ => false end.

(** How many remote calls a run made. *)
Definition remoteCalls (ev : list event) : nat :=
  length (List.filter isFetch ev).

(** The rows of the [translations] table stored under a path (none when
    the store or the table is absent). *)
Definition cachedRows (w : gmap (list N) database) (path : list N)
    : gmap (list N * list N * list N) (list N) :=
  default ∅ (w !! path ≫= translations).

(** The cached translation of a key in the store under a path. *)
Definition cached (w : gmap (list N) database) (path : list N)
    (text from to : list N) : option (list N) :=
  cachedRows w path !! (text, from, to).

(** No white space at an end of a string. *)
Definition notWhiteSpace (c : option N) : Prop :=
  (if c is Some x then isWhiteSpace x else false) = false.

(** The body of a chat completion with one choice. *)
Definition chatResponse (content : json) : option json :=
  Some (JObj [(lit "choices",
               JArr [JObj [(lit "message", JObj [(lit "content", content)])]])]).

(** Two units that a regex compares equal (after Canonicalize when the
    [i] flag is set). *)
Definition sameUnit (P : Platform) (ic : bool) (a b : N) : Prop :=
  canonicalize P ic a = canonicalize P ic b.

(** The text splits around an occurrence [mid] of the spelling. *)
Definition occurrence (P : Platform) (ic : bool) (src text pre mid post : list N)
    : Prop :=
  text = pre ++ mid ++ post /\ Forall2 (sameUnit P ic) src mid.

(** Whole-word match in the words of the design document: an occurrence
    of the spelling bounded by non-word characters, or string edges, on
    both sides. *)
Definition wholeWordMatch (P : Platform) (ic : bool) (src text : list N) : Prop :=
  exists pre mid post,
    occurrence P ic src text pre mid post
    /\ isWordCharOpt (last pre) = false
    /\ isWordCharOpt (head post) = false.

(** What the anchored pattern accepts: an occurrence with a word
    boundary (a word character on exactly one side) at both of its ends. *)
Definition boundaryMatch (P : Platform) (ic : bool) (src text : list N) : Prop :=
  exists pre mid post,
    occurrence P ic src text pre mid post
    /\ xorb (isWordCharOpt (last pre)) (isWordCharOpt (head (mid ++ post))) = true
    /\ xorb (isWordCharOpt (last (pre ++ mid))) (isWordCharOpt (head post)) = true.

(** The unit before a position, given the units [l] read since [prev]. *)
Definition lastOr (prev : option N) (l : list N) : option N :=
  if last l is Some c then Some c else prev.

(** Events other than a remote call and a write to the cache. *)
Definition quiet (e : event) : bool :=
  match e with
  | Called (Fetch _) | Called (Execute _ (UpsertTranslation _ _ _ _)) => false
  | _ => true
  end.

(** Events that, moreover, do not touch a [translations] table. *)
Definition termEvent (e : event) : bool :=
  match e with
  | Called (Fetch _)
  | Called (Execute _ (UpsertTranslation _ _ _ _))
  | Called (Execute _ CreateTranslations)
  | Called (Select _ (SelectTranslation _ _ _)) => false
  | _ => true
  end.

Definition isCacheRead (e : event) : bool :=
  match e with
  | Called (Select _ (SelectTranslation _ _ _)) => true
  | _ => false
  end.

Definition isCacheWrite (e : event) : bool :=
  match e with
  | Called (Execute _ (UpsertTranslation _ _ _ _)) => true
  | _ => false
  end.

(** Outcome, stores and events of running a computation. *)
Definition outcomeOf {A : Type} (r : outcome A * gmap (list N) database * list event)
    : outcome A := r.1.1.
Definition storesOf {A : Type} (r : outcome A * gmap (list N) database * list event)
    : gmap (list N) database := r.1.2.
Definition eventsOf {A : Type} (r : outcome A * gmap (list N) database * list event)
    : list event := r.2.

(** A computation never completes by [throw] (resp. by [return]). *)
Definition noThrow {A : Type} (m : M A) : Prop :=
  forall w e, outcomeOf (m w) <> Throw e.
Definition noReturn {A : Type} (m : M A) : Prop :=
  forall w v, outcomeOf (m w) <> Return v.

(** A computation moves the stores along [R] and emits only events in [E]. *)
Definition safe {A : Type} (R : relation (gmap (list N) database)) (E : event -> Prop)
    (m : M A) : Prop :=
  forall w, R w (storesOf (m w)) /\ Forall E (eventsOf (m w)).

(** The stores after [Database.load] of a path. *)
Definition opened (w : gmap (list N) database) (path : list N)
    : gmap (list N) database :=
  match w !! path with Some _ => w | None => <[path := emptyDatabase]> w end.

(** Every [translations] table is left as it is. *)
Definition sameTranslations (w w' : gmap (list N) database) : Prop :=
  forall path, w' !! path ≫= translations = w !! path ≫= translations.

(** The rows of every [translations] table are left as they are. *)
Definition sameCachedRows (w w' : gmap (list N) database) : Prop :=
  forall path, cachedRows w' path = cachedRows w path.

(** The UNIQUE constraint of the [terms] tables. *)
Definition uniqueSources (w : gmap (list N) database) : Prop :=
  forall path d rows,
    w !! path = Some d -> terms d = Some rows -> NoDup (map source rows).

Definition keepsUniqueSources (w w' : gmap (list N) database) : Prop :=
  uniqueSources w -> uniqueSources w'.

(** Path resolution does not depend on the stores: its outcome and the
    events it emits. *)
Definition resolved (U : Utils) (fileName : option (list N))
    : outcome (option (list N)) :=
  outcomeOf (resolvePath U fileName ∅).

Definition resolveEvents (U : Utils) (fileName : option (list N)) : list event :=
  eventsOf (resolvePath U fileName ∅).

(** The stores after [Database.load] and CREATE TABLE IF NOT EXISTS
    translations on a path. *)
Definition created (w : gmap (list N) database) (path : list N)
    : gmap (list N) database :=
  <[path := {| translations := Some (cachedRows w path);
               terms := w !! path ≫= terms |}]> w.

(** The cache store is configured, its file name resolves to [path], and
    neither opening the store nor creating its schema is rejected. *)
Definition cacheOpens (U : Utils) (C : Config) (path : list N) : Prop :=
  isSet (databaseFile C) = true
  /\ resolved U (databaseFile C) = Normal (Some path)
  /\ fails U (DatabaseLoad (lit "sqlite:" ++ path)) = false
  /\ fails U (Execute path CreateTranslations) = false.

(** The events of opening the cache store. *)
Definition openEvents (U : Utils) (C : Config) (path : list N) : list event :=
  resolveEvents U (databaseFile C)
  ++ [Called (DatabaseLoad (lit "sqlite:" ++ path));
      Called (Execute path CreateTranslations)].

(** A computation that completes by [return] has logged the cache hit. *)
Definition returnLogged {A : Type} (m : M A) : Prop :=
  forall w v,
    outcomeOf (m w) = Return v -> In (Logged Info CacheHit) (eventsOf (m w)).

(** Neither a remote call nor a cache write among the events. *)
Definition quietEvents (ev : list event) : Prop := Forall (fun e => quiet e = true) ev.

(** Nor, moreover, any access to a [translations] table. *)
Definition termEvents (ev : list event) : Prop :=
  Forall (fun e => termEvent e = true) ev.

(** The message of line 296, spelled out. *)
Definition apiErrorText (P : Platform) (res : response) : list N :=
  lit "API Error " ++ showZ (status res) ++ lit ": "
  ++ showOpt "undefined" (JSON_stringify P <$> data res).

Definition isWarning (e : event) : bool :=
  match e with Logged Warn _ => true | _ => false end.

(** The configuration with no cache store configured. *)
Definition noCache (C : Config) : Config :=
  {| model := model C; apiKey := apiKey C; domains := domains C;
     temperature := temperature C; termsFile := termsFile C;
     databaseFile := None; forceOnline := forceOnline C |}.


(* ================================================================= *)
(** ** Example hosts *)

(** The legacy term file of the design document: one entry, "CPU" with
    its Chinese rendering. *)
Definition cpuTarget : list N := [22788; 29702; 22120].

Definition legacyCPU : json :=
  JArr [JObj [(lit "source", JStr (lit "CPU")); (lit "target", JStr cpuTarget)]].

(** The text of that file: [{"source":"CPU","target":"..."}], the quote
    being unit 34. *)
Definition legacyText : list N :=
  [91; 123; 34] ++ lit "source" ++ [34; 58; 34] ++ lit "CPU" ++ [34; 44; 34]
  ++ lit "target" ++ [34; 58; 34] ++ cpuTarget ++ [34; 125; 93].

(** A platform without case mappings above ASCII, whose parser knows the
    two texts the examples use: the empty array and the legacy file. *)
Definition plainPlatform : Platform :=
  {| unicodeUpper := fun c => [c];
     toLowerCase := fun s => s;
     JSON_parse :=
       fun s => if bool_decide (s = lit "[]") then Some (JArr [])
                else if bool_decide (s = legacyText) then Some legacyCPU
                else None;
     JSON_stringify := fun _ => lit "{}";
     sqlText := fun _ => None |}.

(** A success response whose first choice carries the given content. *)
Definition chat (content : list N) : response :=
  {| ok := true; status := 200; data := chatResponse (JStr content) |}.

Definition exampleConfig : Config :=
  {| model := None; apiKey := Some (lit "key"); domains := None;
     temperature := None; termsFile := Some (lit "terms.db");
     databaseFile := Some (lit "cache.db"); forceOnline := None |}.

(** A host whose term file is an empty array, answering every request
    with [reply] and rejecting the calls [rejects] selects. *)
Definition exampleUtils (reply : response) (rejects : hostcall -> bool) : Utils :=
  {| cacheDir := lit "/cache";
     join := None;
     files := {[ lit "/cache/terms.db" := lit "[]" ]};
     fetch := fun _ => reply;
     fails := rejects |}.

Definition rejectsNothing (c : hostcall) : bool := false.

(** A provider that minds the terms: it answers [reply] to a request
    without terms and refuses a request that carries some. *)
Definition withoutTermsOnly (reply : response) (req : request) : response :=
  match req_terms req with
  | None => reply
  | Some _ => {| ok := false; status := 400; data := None |}
  end.

Definition termSensitiveUtils (reply : response) : Utils :=
  {| cacheDir := lit "/cache";
     join := None;
     files := {[ lit "/cache/terms.db" := lit "[]" ]};
     fetch := withoutTermsOnly reply;
     fails := rejectsNothing |}.

Definition rejectsRead (c : hostcall) : bool :=
  match c with ReadTextFile _ => true | _ => false end.

Definition rejectsSchema (c : hostcall) : bool :=
  match c with Execute _ CreateTranslations => true | _ => false end.

Definition cachePath : list N := lit "/cache/cache.db".

(** A store that already has an empty [translations] table. *)
Definition emptyCache : gmap (list N) database :=
  {[ cachePath := {| translations := Some ∅; terms := None |} ]}.

(** A store that holds one cached translation. *)
Definition oneCached (text from to translation : list N)
    : gmap (list N) database :=
  {[ cachePath :=
       {| translations := Some {[ (text, from, to) := translation ]};
          terms := None |} ]}.

Definition forcedConfig : Config :=
  {| model := None; apiKey := Some (lit "key"); domains := None;
     temperature := None; termsFile := Some (lit "terms.db");
     databaseFile := Some (lit "cache.db"); forceOnline := Some (lit "true") |}.

(** What the caller sees of an outcome. *)
Definition toResult (o : outcome (list N)) : result :=
  match o with
  | Normal v | Return v => Ok v
  | Throw e => Failed e
  end.

Definition cpuRow : term :=
  {| source := lit "CPU"; target := cpuTarget; case_sensitive := 0 |}.


(** The events of loading a term store whose file is no array. *)
Definition nativeLoadEvents (U : Utils) (C : Config) (path : list N)
    : list event :=
  resolveEvents U (termsFile C)
  ++ [Called (Exists (Some path));
      Called (ReadTextFile (Some path));
      Called (DatabaseLoad (lit "sqlite:" ++ path));
      Called (Execute path CreateTerms);
      Logged Info TermsReady].

(** A host that has the legacy file. *)
Definition legacyUtils : Utils :=
  {| cacheDir := lit "/cache";
     join := None;
     files := {[ lit "/cache/terms.db" := legacyText ]};
     fetch := fun _ => chat (lit "hi");
     fails := rejectsNothing |}.

(* ================================================================= *)
(** ** Warnings for rejected host calls *)

(** The host calls whose rejection [translate] reports with a warning:
    all but the remote call, whose rejection ends the call, and the two
    that sit in a [try] with an empty [catch] (lines 124-127, the read
    of the term file, and lines 165-167, a migration insert). *)
Definition loud (c : hostcall) : bool :=
  match c with
  | Fetch _ | ReadTextFile _ | Execute _ (InsertTermOrIgnore _ _) => false
  | _ => true
  end.

(** The error a warning reports. *)
Definition reason (m : message) : option exn :=
  match m with
  | DatabaseError e | TermsCheckFailed e | TermsSqliteFailed e
  | TermsInitFailed e | TermsMatchFailed e | CacheWriteFailed e => Some e
  | _ => None
  end.

(** The events that follow a host call start with the warning that
    reports its rejection. *)
Definition warnedAfter (c : hostcall) (post : list event) : Prop :=
  exists m post', post = Logged Warn m :: post' /\ reason m = Some (Rejected c).

(** Every rejected call of [loud] is followed at once by its warning. *)
Fixpoint warned (U : Utils) (ev : list event) : Prop :=
  match ev with
  | Called c :: rest =>
      (fails U c = true -> loud c = true -> warnedAfter c rest) /\ warned U rest
  | _ :: rest => warned U rest
  | [] => True
  end.

(** A computation whose events are [warned], but for the call it was
    rejected with when it ends by throwing that rejection; such a call
    is in [L]. *)
Definition disciplined (U : Utils) (L : hostcall -> Prop) {A : Type} (m : M A)
    : Prop :=
  forall w,
    match m w with
    | (Throw (Rejected c), _, ev) =>
        exists pre, ev = pre ++ [Called c] /\ warned U pre /\ L c
    | (_, _, ev) => warned U ev
    end.

Definition rejectsLoad (c : hostcall) : bool :=
  match c with DatabaseLoad _ => true | _ => false end.


(** Every [terms] table keeps its rows, in order; rows are only added
    at its end, with the default case sensitivity. *)
Definition termsGrow (w w' : gmap (list N) database) : Prop :=
  forall path rows,
    w !! path ≫= terms = Some rows ->
    exists extra,
      w' !! path ≫= terms = Some (rows ++ extra)
      /\ Forall (fun r => case_sensitive r = 0%Z) extra.

(** A computation that completes by [return] hands back the text cached
    under the key in one of the stores it leaves. *)
Definition returnsCached (text from to : list N) {A : Type} (m : M A) : Prop :=
  forall w v,
    outcomeOf (m w) = Return v ->
    exists h, cached (storesOf (m w)) h text from to = Some v.

(** The cache holds no empty text and no text that [trim] would change. *)
Definition cleanCache (w : gmap (list N) database) : Prop :=
  forall path key v,
    cachedRows w path !! key = Some v -> v <> [] /\ trim v = v.

(** The configuration with no term store configured. *)
Definition noTerms (C : Config) : Config :=
  {| model := model C; apiKey := apiKey C; domains := domains C;
     temperature := temperature C; termsFile := None;
     databaseFile := databaseFile C; forceOnline := forceOnline C |}.

(** A host that rejects every write to the cache. *)
Definition rejectsWrite (c : hostcall) : bool :=
  match c with Execute _ (UpsertTranslation _ _ _ _) => true | _ => false end.

(** Every [terms] table is left as it is. *)
Definition sameTerms (w w' : gmap (list N) database) : Prop :=
  forall path, w' !! path ≫= terms = w !! path ≫= terms.

(** A name that is not set, or made of white space only. *)
Definition blank (name : option (list N)) : Prop :=
  forall f, name = Some f -> forallb isWhiteSpace f = true.

(** Line 158: the entries of the legacy array the loop tries to insert. *)
Definition candidate (t : json) : bool :=
  truthy (prop "source" t) && truthy (prop "target" t).

(** Source and target of an entry as the texts the driver binds, when
    it can bind both. *)
Definition boundPair (P : Platform) (t : json) : option (list N * list N) :=
  s ← textOf P (prop "source" t);
  g ← textOf P (prop "target" t);
  Some (s, g).

Definition newRow (s g : list N) : term :=
  {| source := s; target := g; case_sensitive := 0 |}.

(** INSERT OR IGNORE of (source, target) pairs, one after the other. *)
Definition insertAll (rows : list term) (pairs : list (list N * list N))
    : list term :=
  fold_left
    (fun rows '(s, g) => if hasSource s rows then rows else rows ++ [newRow s g])
    pairs rows.

Definition insertCall (h : list N) (t : json) : event :=
  Called (Execute h (InsertTermOrIgnore (prop "source" t) (prop "target" t))).

(** A store with an empty [terms] table, and a legacy array with a
    repeated source and an entry without a source. *)
Definition emptyTerms : gmap (list N) database :=
  {[ lit "/cache/terms.db" := {| translations := None; terms := Some [] |} ]}.

Definition entry (s g : list N) : json :=
  JObj [(lit "source", JStr s); (lit "target", JStr g)].

Definition repeatedCPU : list json :=
  [entry (lit "CPU") (lit "a"); entry [] (lit "x"); entry (lit "CPU") (lit "b")].

(** A platform whose parser knows the text [[null]], and a host whose
    term file holds it. *)
Definition nullPlatform : Platform :=
  {| unicodeUpper := fun c => [c];
     toLowerCase := fun s => s;
     JSON_parse :=
       fun s => if bool_decide (s = lit "[null]") then Some (JArr [JNull]) else None;
     JSON_stringify := fun _ => lit "{}";
     sqlText := fun _ => None |}.

Definition nullUtils : Utils :=
  {| cacheDir := lit "/cache";
     join := None;
     files := {[ lit "/cache/terms.db" := lit "[null]" ]};
     fetch := fun _ => chat (lit "hi");
     fails := rejectsNothing |}.

(** The stores outside a set of paths are left as they are. *)
Definition onlyAt (S : list N -> Prop) (w w' : gmap (list N) database) : Prop :=
  forall p, ~ S p -> w' !! p = w !! p.

(** The paths the configured file names resolve to. *)
Definition configured (U : Utils) (C : Config) (p : list N) : Prop :=
  resolved U (databaseFile C) = Normal (Some p)
  \/ resolved U (termsFile C) = Normal (Some p).

(** A computation moves the stores along [R] and, when it completes
    normally, its value satisfies [Q]. *)
Definition yields {A : Type} (R : relation (gmap (list N) database))
    (Q : A -> Prop) (m : M A) : Prop :=
  forall w,
    R w (storesOf (m w)) /\ forall a, outcomeOf (m w) = Normal a -> Q a.

(* ================================================================= *)
(** ** The earlier variants of [translate] (src/unnamed/part_001) *)

(** The endpoint every variant uses unless configured otherwise. *)
Definition endpoint : list N :=
  lit "https://dashscope.aliyuncs.com/compatible-mode/v1/chat/completions".

(** A member access [o.f] or [o[0]] without optional chaining: a
    TypeError ([None]) when [o] is [undefined] or [null]. *)
Definition access (o : option json) (f : json -> option json)
    : option (option json) :=
  match o with
  | None | Some JNull => None
  | Some v => Some (f v)
  end.

(** [result.choices[0].message.content] *)
Definition contentStrict (result : option json) : option (option json) :=
  choices ← access result (prop "choices");
  first ← access choices index0;
  message ← access first (prop "message");
  access message (prop "content").

(** Lines 49-53 and 117-121: the content is used as it is; only a string
    has [replace], on any other value the call is a TypeError. *)
Definition normalizeStrict (P : Platform) (result : option json)
    : option (list N) :=
  match contentStrict result with
  | Some (Some (JStr s)) => Some (trim (replaceAllEmpty P sentinelRegex s))
  | _ => None
  end.

(** Lines 55 and 123; the line feed is unit 10. *)
Definition httpErrorMessage (P : Platform) (res : response) : list N :=
  lit "Http Request Error" ++ [10] ++ lit "Http Status: " ++ showZ (status res)
  ++ [10] ++ showOpt "undefined" (JSON_stringify P <$> data res).

(** *** The variant with domains and a clamped temperature (lines 58-125) *)

Definition clampedRequest (C : Config) (text from to : list N) : request :=
  {| url := endpoint;
     authorization := lit "Bearer " ++ showOpt "undefined" (apiKey C);
     req_model := default (lit "qwen-mt-flash") (model C);
     req_content := text;
     source_lang := from;
     target_lang := to;
     req_temperature := temperatureClamped (temperature C);
     req_terms := None;
     req_domains :=
       match domains C with
       | Some (c :: d) => Some (c :: d)
       | _ => None
       end |}.

Definition translateClampedBody (P : Platform) (U : Utils) (C : Config)
    (text from to : list N) : M (list N) :=
  let req := clampedRequest C text from to in
  hostCall U (Fetch req);;
  let res := fetch U req in
  if ok res then
    match normalizeStrict P (data res) with
    | Some translation => return_ translation
    | None => throw TypeError
    end
  else throw (Thrown (httpErrorMessage P res)).

Definition translateClamped (P : Platform) (U : Utils) (C : Config)
    (text from to : list N) (w : gmap (list N) database)
    : result * gmap (list N) database * list event :=
  match translateClampedBody P U C text from to w with
  | (Normal v, w', ev) | (Return v, w', ev) => (Ok v, w', ev)
  | (Throw e, w', ev) => (Failed e, w', ev)
  end.

(** *** The first variant, with a configurable endpoint (lines 1-57) *)

(** The regex literal [/https?:\/\/.+/]: literal units, an optional
    unit, and one or more units other than line terminators. *)
Inductive urlAtom :=
| Lit (c : N)
| OptLit (c : N)
| AnyPlus.

Definition isLineTerminator (c : N) : bool :=
  (c =? 10) || (c =? 13) || (c =? 8232) || (c =? 8233).

(** Whether the atoms match at the start of [s] (some way of matching
    them does). *)
Fixpoint matchUrl (a : list urlAtom) (s : list N) : bool :=
  match a with
  | [] => true
  | Lit c :: a' =>
      match s with
      | d :: s' => (c =? d) && matchUrl a' s'
      | [] => false
      end
  | OptLit c :: a' =>
      match s with
      | d :: s' => (c =? d) && matchUrl a' s'
      | [] => false
      end
      || matchUrl a' s
  | AnyPlus :: a' =>
      (fix plus (s : list N) : bool :=
         match s with
         | d :: s' => negb (isLineTerminator d) && (plus s' || matchUrl a' s')
         | [] => false
         end) s
  end.

Fixpoint searchUrl (a : list urlAtom) (s : list N) : bool :=
  matchUrl a s || match s with [] => false | _ :: s' => searchUrl a s' end.

Definition schemePattern : list urlAtom :=
  map Lit (lit "http") ++ [OptLit 115] ++ map Lit (lit "://") ++ [AnyPlus].

(** [/https?:\/\/.+/.test(s)] *)
Definition hasScheme (s : list N) : bool := searchUrl schemePattern s.

(** [s.endsWith(suffix)] *)
Definition endsWith (s suffix : list N) : bool :=
  startsWith (rev suffix) (rev s).

(** Lines 4-14; [slice(0, -1)] drops the last unit. *)
Definition requestPathOf (requestPath : option (list N)) : list N :=
  let requestPath0 :=
    match requestPath with
    | Some (c :: r) => c :: r
    | _ => endpoint
    end in
  let requestPath1 :=
    if negb (hasScheme requestPath0) then lit "https://" ++ requestPath0
    else requestPath0 in
  if endsWith requestPath1 (lit "/") then removelast requestPath1
  else requestPath1.

(** The payload of the first variant: no temperature, no domains. *)
Record basicRequest := {
  b_url : list N;
  b_authorization : list N;
  b_model : list N;
  b_content : list N;
  b_source_lang : list N;
  b_target_lang : list N
}.

(** Its host: [tauriFetch] alone. *)
Record BasicUtils := {
  basicFetch : basicRequest -> response;
  basicFails : basicRequest -> bool
}.

Inductive basicResult :=
| Translated (translation : list N)
| FetchRejected (req : basicRequest)
| ContentTypeError
| HttpError (msg : list N).

Definition basicRequestOf (C : Config) (requestPath : option (list N))
    (text from to : list N) : basicRequest :=
  {| b_url := requestPathOf requestPath;
     b_authorization := lit "Bearer " ++ showOpt "undefined" (apiKey C);
     b_model := default (lit "qwen-mt-flash") (model C);
     b_content := text;
     b_source_lang := from;
     b_target_lang := to |}.

(** [config] is read for [model], [apiKey] and [requestPath] only; the
    last is passed beside the configuration of the later variants. *)
Definition translateBasic (P : Platform) (U : BasicUtils) (C : Config)
    (requestPath : option (list N)) (text from to : list N) : basicResult :=
  let req := basicRequestOf C requestPath text from to in
  if basicFails U req then FetchRejected req
  else
    let res := basicFetch U req in
    if ok res then
      match normalizeStrict P (data res) with
      | Some translation => Translated translation
      | None => ContentTypeError
      end
    else HttpError (httpErrorMessage P res).

(** A string has one of the two schemes followed by a unit that is no
    line terminator. *)
Definition schemeAt (s : list N) : Prop :=
  exists pre opt c rest,
    s = pre ++ lit "http" ++ opt ++ lit "://" ++ c :: rest
    /\ (opt = [] \/ opt = [115]) /\ isLineTerminator c = false.

(* ================================================================= *)
(** ** The variant with a JSON term file (src/unnamed/part_001 lines 126-332)

    Its cache lookup (lines 171-216), its path resolution (lines 153-167)
    and its write-back (lines 312-323) are, to the letter, those of
    src/main.js, and are taken from there. Its term file is a text file
    that the call may create, so the text files are part of what a
    computation reads and leaves, beside the stores; [files] of [Utils]
    plays no part here. *)

Record world := {
  textFiles : gmap (list N) (list N);
  stores : gmap (list N) database
}.

(** The payload of this variant: that of src/main.js without matched
    terms, and the parsed term file, sent as it is. *)
Record requestJ := {
  base : request;
  terms_json : option (list json)
}.

(** The host calls src/main.js does not make. *)
Inductive hostcallJ :=
| WriteTextFile (path : option (list N)) (content : list N)
| FetchJ (req : requestJ).

Record UtilsJ := {
  utils : Utils;
  fetchJ : requestJ -> response;
  failsJ : hostcallJ -> bool
}.

Inductive exnJ :=
| OldExn (e : exn)
| RejectedJ (c : hostcallJ).

(** The log lines src/main.js does not have. *)
Inductive messageJ :=
| TermsCheckFailedJ (e : exnJ)
| TermsFileMissing (fullTermsPath : option (list N))
| TermsFileCreated
| TermsCreateFailed (createErr : exnJ)
| TermsFileLoaded (n : nat)
| TermsNotArray
| TermsParseFailed (jsonErr : exnJ)
| TermsFlowFailed (err : exnJ).

Inductive eventJ :=
| Old (e : event)
| CalledJ (c : hostcallJ)
| LoggedJ (l : level) (m : messageJ).

Inductive outcomeJ (A : Type) :=
| NormalJ (a : A)
| ReturnJ (v : list N)
| ThrowJ (e : exnJ).
Arguments NormalJ {A} a.
Arguments ReturnJ {A} v.
Arguments ThrowJ {A} e.

Definition MJ (A : Type) : Type := world -> outcomeJ A * world * list eventJ.

#[global] Instance MJ_ret : MRet MJ := fun A a s => (NormalJ a, s, []).

#[global] Instance MJ_bind : MBind MJ := fun A B k m s =>
  match m s with
  | (NormalJ a, s', ev) => let '(o, s'', ev') := k a s' in (o, s'', ev ++ ev')
  | (ReturnJ v, s', ev) => (ReturnJ v, s', ev)
  | (ThrowJ e, s', ev) => (ThrowJ e, s', ev)
  end.

Definition throwJ {A} (e : exnJ) : MJ A := fun s => (ThrowJ e, s, []).

Definition returnJ {A} (v : list N) : MJ A := fun s => (ReturnJ v, s, []).

Definition try_catchJ {A} (body : MJ A) (handler : exnJ -> MJ A) : MJ A :=
  fun s =>
    match body s with
    | (ThrowJ e, s', ev) =>
        let '(o, s'', ev') := handler e s' in (o, s'', ev ++ ev')
    | r => r
    end.

Definition getJ : MJ world := fun s => (NormalJ s, s, []).

Definition emitJ (e : eventJ) : MJ unit := fun s => (NormalJ tt, s, [e]).

Definition set_file (path content : list N) : MJ unit :=
  fun s => (NormalJ tt,
            {| textFiles := <[path := content]> (textFiles s);
               stores := stores s |}, []).

Definition infoJ (m : messageJ) : MJ unit := emitJ (LoggedJ Info m).
Definition warnJ (m : messageJ) : MJ unit := emitJ (LoggedJ Warn m).
Definition errorJ (m : messageJ) : MJ unit := emitJ (LoggedJ Error m).

Definition liftOutcome {A} (o : outcome A) : outcomeJ A :=
  match o with
  | Normal a => NormalJ a
  | Return v => ReturnJ v
  | Throw e => ThrowJ (OldExn e)
  end.

(** A computation of src/main.js, run on the stores; the text files are
    left as they are. *)
Definition lift {A} (m : M A) : MJ A :=
  fun s =>
    let '(o, w', ev) := m (stores s) in
    (liftOutcome o, {| textFiles := textFiles s; stores := w' |}, map Old ev).

Inductive resultJ :=
| OkJ (translation : list N)
| FailedJ (e : exnJ).

Section TranslateJson.
Context (P : Platform) (UJ : UtilsJ) (C : Config).

Definition hostCallJ (c : hostcallJ) : MJ unit :=
  emitJ (CalledJ c);;
  if failsJ UJ c then throwJ (RejectedJ c) else mret tt.

(** [exists(path)], on the text files and the stores as they are now. *)
Definition existsJ (path : option (list N)) : MJ bool :=
  lift (hostCall (utils UJ) (Exists path));;
  match path with
  | Some p =>
      s ← getJ;
      mret (bool_decide (is_Some (textFiles s !! p))
            || bool_decide (is_Some (stores s !! p)))
  | None => throwJ (OldExn (Rejected (Exists path)))
  end.

Definition readTextFileJ (path : option (list N)) : MJ (list N) :=
  lift (hostCall (utils UJ) (ReadTextFile path));;
  s ← getJ;
  match path ≫= (textFiles s !!.) with
  | Some content => mret content
  | None => throwJ (OldExn (Rejected (ReadTextFile path)))
  end.

(** [writeTextFile(path, content)]: the file holds the content
    afterwards, whether or not it was there. *)
Definition writeTextFile (path : option (list N)) (content : list N) : MJ unit :=
  hostCallJ (WriteTextFile path content);;
  match path with
  | Some p => set_file p content
  | None => throwJ (RejectedJ (WriteTextFile path content))
  end.

(** Lines 233-245: the term file is created as an empty array; the
    result is the new value of [isExists]. *)
Definition createTermsFile (fullTermsPath : option (list N)) : MJ bool :=
  infoJ (TermsFileMissing fullTermsPath);;
  try_catchJ
    (writeTextFile fullTermsPath (lit "[]");;
     infoJ TermsFileCreated;;
     mret true)
    (fun createErr => errorJ (TermsCreateFailed createErr);; mret false).

(** Lines 248-261: the term file is read and parsed; the result is the
    new value of [terms]. *)
Definition loadTermsFile (fullTermsPath : option (list N)) : MJ (list json) :=
  termsContent ← readTextFileJ fullTermsPath;
  try_catchJ
    (parsedTerms ← lift (parseJSON P termsContent);
     match parsedTerms with
     | JArr items => infoJ (TermsFileLoaded (length items));; mret items
     | _ => warnJ TermsNotArray;; mret []
     end)
    (fun jsonErr => warnJ (TermsParseFailed jsonErr);; mret []).

(** Lines 218-265: the terms are the parsed file, when it is an array;
    a file that is not there is created as an empty array first. The
    result is the final value of [terms]. *)
Definition termsStageJ : MJ (list json) :=
  if isSet (termsFile C) then
    try_catchJ
      (fullTermsPath ← lift (resolvePath (utils UJ) (termsFile C));
       isExists ←
         try_catchJ (existsJ fullTermsPath)
           (fun e => warnJ (TermsCheckFailedJ e);; mret false);
       isExists ←
         (if negb isExists then createTermsFile fullTermsPath else mret true);
       if isExists : bool then loadTermsFile fullTermsPath else mret [])
      (fun err => warnJ (TermsFlowFailed err);; mret [])
  else mret [].

(** Lines 268-300: the outbound request. *)
Definition buildRequestJ (text from to : list N) (terms : list json) : requestJ :=
  {| base := buildRequest C text from to [];
     terms_json := if isEmpty terms then None else Some terms |}.

(** Lines 290-331: the remote call, normalisation and write-back. *)
Definition remoteStageJ (db : option (list N)) (text from to : list N)
    (terms : list json) : MJ (list N) :=
  let req := buildRequestJ text from to terms in
  hostCallJ (FetchJ req);;
  let res := fetchJ UJ req in
  if ok res then
    translation ←
      match normalize P (data res) with
      | Some t => mret t
      | None => throwJ (OldExn TypeError)
      end;
    lift (info OnlineApi);;
    lift (writeBack P (utils UJ) db text from to translation);;
    returnJ translation
  else
    let errMsg := apiErrorMessage P res in
    lift (error (ApiError errMsg));;
    throwJ (OldExn (Thrown errMsg)).

Definition translateJsonBody (text from to : list N) : MJ (list N) :=
  db ← lift (cacheStage P (utils UJ) C text from to);
  terms ← termsStageJ;
  remoteStageJ db text from to terms.

Definition translateJson (text from to : list N) (s : world)
    : resultJ * world * list eventJ :=
  match translateJsonBody text from to s with
  | (NormalJ v, s', ev) | (ReturnJ v, s', ev) => (OkJ v, s', ev)
  | (ThrowJ e, s', ev) => (FailedJ e, s', ev)
  end.
End TranslateJson.

(** The world with one more text file. *)
Definition withFile (s : world) (path content : list N) : world :=
  {| textFiles := <[path := content]> (textFiles s); stores := stores s |}.

(** Something is stored under the path, as a text file or as a store. *)
Definition present (s : world) (path : list N) : bool :=
  bool_decide (is_Some (textFiles s !! path))
  || bool_decide (is_Some (stores s !! path)).

(** The terms a file content gives (none unless it parses to an array),
    and what is logged on the way. *)
Definition termsOfContent (P : Platform) (content : list N) : list json :=
  match JSON_parse P content with
  | Some (JArr items) => items
  | _ => []
  end.

Definition parseLog (P : Platform) (content : list N) : eventJ :=
  match JSON_parse P content with
  | Some (JArr items) => LoggedJ Info (TermsFileLoaded (length items))
  | Some _ => LoggedJ Warn TermsNotArray
  | None => LoggedJ Warn (TermsParseFailed (OldExn SyntaxError))
  end.

(** A computation leaves the text files as they are. *)
Definition keepsFiles {A : Type} (m : MJ A) : Prop :=
  forall s, textFiles (m s).1.2 = textFiles s.

(** A host of the variant that answers [reply] and rejects the old host
    calls [rejects] selects and the new ones [rejectsJ] selects. *)
Definition exampleUtilsJ (reply : response) (rejects : hostcall -> bool)
    (rejectsJ : hostcallJ -> bool) : UtilsJ :=
  {| utils := exampleUtils reply rejects;
     fetchJ := fun _ => reply;
     failsJ := rejectsJ |}.

Definition rejectsNothingJ (c : hostcallJ) : bool := false.

Definition rejectsExists (c : hostcall) : bool :=
  match c with Exists _ => true | _ => false end.

Definition termsPath : list N := lit "/cache/terms.db".

(** A world with a term file of one entry and no store. *)
Definition oneTermFile : world :=
  {| textFiles := {[ termsPath := legacyText ]}; stores := ∅ |}.

Definition emptyWorld : world := {| textFiles := ∅; stores := ∅ |}.

(** A request of src/main.js that carries no terms, as the request of
    the variant; and what a run of src/main.js that sends no terms shows,
    as a run of the variant. *)
Definition plainRequest (req : request) : requestJ :=
  {| base := req; terms_json := None |}.

Definition embedExn (e : exn) : exnJ :=
  match e with
  | Rejected (Fetch req) => RejectedJ (FetchJ (plainRequest req))
  | _ => OldExn e
  end.

Definition embedEvent (e : event) : eventJ :=
  match e with
  | Called (Fetch req) => CalledJ (FetchJ (plainRequest req))
  | _ => Old e
  end.

Definition embedResult (r : result) : resultJ :=
  match r with
  | Ok t => OkJ t
  | Failed e => FailedJ (embedExn e)
  end.

(* ================================================================= *)
(** * Properties *)

(* ================================================================= *)
(** ** Temperature *)

Lemma temperatureClamped_in_range (t : option (list N)) :
  temperatureClamped t = defaultTemperature
  \/ (geZero (temperatureClamped t) = true /\ ltTwo (temperatureClamped t) = true).
Proof.
  unfold temperatureClamped.
  destruct t as [[|c s]|]; auto.
  destruct (negb (isNaN _) && geZero _ && ltTwo _) eqn:E; auto.
  right. apply andb_prop in E as [E1 E2]. apply andb_prop in E1 as [_ E1]. auto.
Qed.

(** C2. The temperature of src/main.js, [parseFloat(temperature) || 0.65],
    sends the empty string and "abc" to 0.65 and "1.5" to 1.5, but leaves
    the out-of-range "5" at 5 (and sends the in-range "0" to 0.65); the
    clamped variant of the repository resolves all of them as the design
    document says. *)
Theorem C2_temperature_main_not_clamped :
  temperatureOf (Some []) = defaultTemperature
  /\ temperatureOf (Some (lit "abc")) = defaultTemperature
  /\ temperatureOf (Some (lit "1.5")) = Finite (Qmake 3 2)
  /\ temperatureOf (Some (lit "5")) = Finite (Qmake 5 1)
  /\ temperatureOf (Some (lit "0")) = defaultTemperature
  /\ temperatureClamped (Some []) = defaultTemperature
  /\ temperatureClamped (Some (lit "abc")) = defaultTemperature
  /\ temperatureClamped (Some (lit "1.5")) = Finite (Qmake 3 2)
  /\ temperatureClamped (Some (lit "5")) = defaultTemperature
  /\ temperatureClamped (Some (lit "0")) = Finite (Qmake 0 1).
Proof. repeat split; vm_compute; reflexivity. Qed.

(* ================================================================= *)
(** ** The patterns [translate] builds always compile *)

Lemma isSyntaxChar_not_b c : isSyntaxChar c = true -> (c =? 98) = false.
Proof.
  intros H. destruct (N.eqb_spec c 98) as [->|]; [discriminate H | reflexivity].
Qed.

Lemma not_isSyntaxChar_not_backslash c :
  isSyntaxChar c = false -> (c =? 92) = false.
Proof.
  intros H. destruct (N.eqb_spec c 92) as [->|]; [discriminate H | reflexivity].
Qed.

Lemma parsePattern_escapeSource (src tl : list N) :
  parsePattern (escapeSource src ++ tl)
  = (fun a => map Char src ++ a) <$> parsePattern tl.
Proof.
  induction src as [|c src IH]; simpl.
  - destruct (parsePattern tl); reflexivity.
  - destruct (isSyntaxChar c) eqn:E; simpl.
    + rewrite (isSyntaxChar_not_b c E), E, IH.
      destruct (parsePattern tl); reflexivity.
    + rewrite (not_isSyntaxChar_not_backslash c E), E, IH.
      destruct (parsePattern tl); reflexivity.
Qed.

(** [new RegExp] never throws on the pattern of line 212: the fallback of
    lines 219-224 is not reached. *)
Lemma RegExp_wordPattern (src : list N) (caseSensitive : bool) :
  RegExp (lit "\b" ++ escapeSource src ++ lit "\b")
         (if caseSensitive then [] else lit "i")
  = Some {| atoms := WordBoundary :: map Char src ++ [WordBoundary];
            ignoreCase := negb caseSensitive; global := false |}.
Proof.
  unfold RegExp.
  change (lit "\b" ++ escapeSource src ++ lit "\b")
    with (92 :: 98 :: (escapeSource src ++ lit "\b")).
  cbn [parsePattern N.eqb Pos.eqb].
  rewrite parsePattern_escapeSource.
  destruct caseSensitive; reflexivity.
Qed.

Lemma isMatch_regex (P : Platform) (text : list N) (t : term) :
  isMatch P text t
  = searchFrom P (negb (case_sensitive t =? 1)%Z)
      (WordBoundary :: map Char (source t) ++ [WordBoundary]) None text.
Proof.
  unfold isMatch. rewrite RegExp_wordPattern. reflexivity.
Qed.

(* ================================================================= *)
(** ** Term matcher *)

Lemma matchTerms_acc (P : Platform) (text : list N) (allTerms : list term)
    (acc : list matchedTerm) :
  fold_left
    (fun matchedTerms t =>
       if isMatch P text t then matchedTerms ++ [projectTerm t]
       else matchedTerms)
    allTerms acc
  = acc ++ map projectTerm (List.filter (isMatch P text) allTerms).
Proof.
  revert acc. induction allTerms as [|t ts IH]; intros acc; simpl.
  - now rewrite app_nil_r.
  - rewrite IH. destruct (isMatch P text t); simpl.
    + now rewrite <- app_assoc.
    + reflexivity.
Qed.

(* ================================================================= *)
(** ** Response normaliser *)




Lemma startsWith_app (m s : list N) : startsWith m (m ++ s) = true.
Proof.
  induction m as [|a m IH]; simpl; [reflexivity|].
  now rewrite N.eqb_refl, IH.
Qed.








Lemma trimStart_spec (s : list N) :
  exists l, s = l ++ trimStart s /\ forallb isWhiteSpace l = true
            /\ (if head (trimStart s) is Some c then isWhiteSpace c else false) = false.
Proof.
  induction s as [|c s (l & E & Hl & Hh)]; simpl.
  - exists []. auto.
  - destruct (isWhiteSpace c) eqn:Ec.
    + exists (c :: l). simpl. rewrite Ec, Hl. split; [now f_equal|auto].
    + exists []. simpl. auto.
Qed.

Lemma trim_spec (s : list N) :
  exists l r, s = l ++ trim s ++ r
              /\ forallb isWhiteSpace l = true /\ forallb isWhiteSpace r = true
              /\ notWhiteSpace (head (trim s)) /\ notWhiteSpace (last (trim s)).
Proof.
  unfold trim, trimEnd, notWhiteSpace.
  destruct (trimStart_spec s) as (l & El & Hl & Hh).
  destruct (trimStart_spec (rev (trimStart s))) as (r & Er & Hr & Hu).
  set (t := trimStart s) in *. set (u := trimStart (rev t)) in *.
  assert (Et : t = rev u ++ rev r).
  { rewrite <- rev_app_distr, <- Er. symmetry. apply rev_involutive. }
  exists l, (rev r). repeat split.
  - rewrite <- Et. exact El.
  - exact Hl.
  - rewrite forallb_forall in *. intros x Hx. apply Hr.
    now apply in_rev.
  - destruct (rev u) as [|c ru] eqn:E; [reflexivity|].
    rewrite Et in Hh. exact Hh.
  - destruct u as [|c u']; [reflexivity|].
    simpl rev. rewrite last_snoc. exact Hu.
Qed.


(* ================================================================= *)
(** ** What the anchored pattern matches *)

Lemma lastOr_cons (prev : option N) (d : N) (l : list N) :
  lastOr prev (d :: l) = lastOr (Some d) l.
Proof.
  unfold lastOr. destruct l as [|c l]; [reflexivity|].
  rewrite last_cons_cons. destruct (last (c :: l)) eqn:E; [reflexivity|].
  apply last_None in E. discriminate.
Qed.

Lemma lastOr_last (pre mid : list N) : lastOr (last pre) mid = last (pre ++ mid).
Proof.
  unfold lastOr. destruct (last mid) eqn:E.
  - apply last_Some in E as (l' & ->). now rewrite app_assoc, last_snoc.
  - apply last_None in E. subst. now rewrite app_nil_r.
Qed.

Lemma matchAtoms_chars (P : Platform) (ic : bool) (src : list N) (a : list atom) :
  forall prev rest n,
    matchAtoms P ic (map Char src ++ a) prev rest = Some n
    <-> exists mid rest' k,
        rest = mid ++ rest' /\ Forall2 (sameUnit P ic) src mid
        /\ matchAtoms P ic a (lastOr prev mid) rest' = Some k
        /\ n = (length src + k)%nat.
Proof.
  induction src as [|c src IH]; intros prev rest n.
  - simpl. split.
    + intros H. exists [], rest, n. repeat split; [constructor | exact H].
    + intros (mid & rest' & k & -> & HF & H & ->).
      inversion HF; subst. exact H.
  - cbn [map app matchAtoms]. split.
    + destruct rest as [|d rest]; [discriminate|].
      destruct (N.eqb_spec (canonicalize P ic c) (canonicalize P ic d)) as [E|];
        [|discriminate].
      destruct (matchAtoms P ic (map Char src ++ a) (Some d) rest) as [n'|] eqn:Hm;
        [|discriminate].
      intros [= <-]. apply IH in Hm as (mid & rest' & k & -> & HF & H & ->).
      exists (d :: mid), rest', k. rewrite lastOr_cons.
      repeat split; [now constructor | exact H].
    + intros (mid & rest' & k & -> & HF & H & ->).
      inversion HF as [|? d ? mid' E HF']; subst.
      rewrite lastOr_cons in H. cbn [app].
      unfold sameUnit in E. rewrite E, N.eqb_refl.
      assert (Hm : matchAtoms P ic (map Char src ++ a) (Some d) (mid' ++ rest')
                   = Some (length src + k)%nat).
      { apply IH. exists mid', rest', k. auto. }
      rewrite Hm. reflexivity.
Qed.

Lemma searchFrom_spec (P : Platform) (ic : bool) (a : list atom) :
  forall rest prev,
    searchFrom P ic a prev rest = true
    <-> exists pre rest' n,
        rest = pre ++ rest' /\ matchAtoms P ic a (lastOr prev pre) rest' = Some n.
Proof.
  induction rest as [|d rest IH]; intros prev; cbn [searchFrom].
  - split.
    + destruct (matchAtoms P ic a prev []) as [n|] eqn:E; [|discriminate].
      intros _. exists [], [], n. auto.
    + intros (pre & rest' & n & E & H).
      symmetry in E. apply app_eq_nil in E as [-> ->].
      change (lastOr prev []) with prev in H. now rewrite H.
  - split.
    + destruct (matchAtoms P ic a prev (d :: rest)) as [n|] eqn:E.
      * intros _. exists [], (d :: rest), n. auto.
      * intros H. apply IH in H as (pre & rest' & n & -> & H).
        exists (d :: pre), rest', n. rewrite lastOr_cons. auto.
    + intros (pre & rest' & n & E & H).
      destruct pre as [|d' pre].
      * simpl in E. subst rest'. change (lastOr prev []) with prev in H.
        now rewrite H.
      * injection E as <- ->. rewrite lastOr_cons in H.
        destruct (matchAtoms P ic a prev (d :: pre ++ rest')); [reflexivity|].
        apply IH. eauto.
Qed.

(** The matcher accepts a term exactly when its spelling occurs with a
    word boundary at both ends. *)
Lemma isMatch_boundaryMatch (P : Platform) (text : list N) (t : term) :
  isMatch P text t = true
  <-> boundaryMatch P (negb (case_sensitive t =? 1)%Z) (source t) text.
Proof.
  rewrite isMatch_regex. set (ic := negb _). rewrite searchFrom_spec.
  unfold boundaryMatch, occurrence. split.
  - intros (pre & rest' & n & -> & H).
    change (lastOr None pre) with (lastOr (last []) pre) in H.
    rewrite lastOr_last in H. cbn [app matchAtoms] in H.
    destruct (xorb (isWordCharOpt (last pre)) (isWordCharOpt (head rest'))) eqn:Hb;
      [|discriminate].
    apply matchAtoms_chars in H as (mid & post & k & -> & HF & H & _).
    rewrite lastOr_last in H. cbn [matchAtoms] in H.
    destruct (xorb _ _) eqn:Hb' in H; [|discriminate].
    exists pre, mid, post. auto.
  - intros (pre & mid & post & [-> HF] & Hb & Hb').
    exists pre, (mid ++ post), (length (source t) + 0)%nat. split; [reflexivity|].
    change (lastOr None pre) with (lastOr (last []) pre).
    rewrite lastOr_last. cbn [app matchAtoms]. rewrite Hb.
    apply matchAtoms_chars. exists mid, post, O.
    rewrite lastOr_last. cbn [matchAtoms]. rewrite Hb'. auto.
Qed.

(** C5. The matcher returns, in store order, the terms that match, each
    reduced to (source, target); a term matches exactly when its
    spelling occurs in the text (up to case unless the term is case
    sensitive) with a word boundary at both ends; "GPU" (case-insensitive)
    matches "I bought a gpu" but not "agpu123", and the case-sensitive
    "API" matches "this is an API" but not "this is an api". *)
Theorem C5_matcher_ordered_subsequence (P : Platform) :
  (forall text allTerms,
      matchTerms P text allTerms
      = map projectTerm (List.filter (isMatch P text) allTerms))
  /\ (forall text t,
         isMatch P text t = true
         <-> boundaryMatch P (negb (case_sensitive t =? 1)%Z) (source t) text)
  /\ (forall tgt,
         isMatch P (lit "I bought a gpu")
           {| source := lit "GPU"; target := tgt; case_sensitive := 0 |} = true
         /\ isMatch P (lit "agpu123")
              {| source := lit "GPU"; target := tgt; case_sensitive := 0 |} = false
         /\ isMatch P (lit "this is an api")
              {| source := lit "API"; target := tgt; case_sensitive := 1 |} = false
         /\ isMatch P (lit "this is an API")
              {| source := lit "API"; target := tgt; case_sensitive := 1 |} = true).
Proof.
  split; [|split].
  - intros text allTerms. unfold matchTerms.
    exact (matchTerms_acc P text allTerms []).
  - apply isMatch_boundaryMatch.
  - intros tgt. repeat split; vm_compute; reflexivity.
Qed.

(** Under either case flag, only a word character compares equal to a
    word character. *)
Lemma sameUnit_wordChar (P : Platform) (ic : bool) (a d : N) :
  isWordChar a = true -> sameUnit P ic a d -> isWordChar d = true.
Proof.
  unfold sameUnit, canonicalize. destruct ic; [|now intros ? <-].
  unfold upperUnit, isWordChar, inRange. intros Ha.
  assert (Ha128 : (a <? 128) = true).
  { apply N.ltb_lt.
    repeat match type of Ha with
           | (_ || _) = true => apply orb_prop in Ha as [Ha|Ha]
           | (_ && _) = true => apply andb_prop in Ha as [? Ha]
           end;
    repeat match goal with
           | H : (_ <=? _) = true |- _ => apply N.leb_le in H
           | H : (_ =? _) = true |- _ => apply N.eqb_eq in H
           end; lia. }
  rewrite Ha128.
  assert (Hle : (128 <=? a) = false) by (apply N.leb_gt; now apply N.ltb_lt).
  rewrite Hle. cbn [andb].
  destruct (d <? 128) eqn:Hd.
  - assert (Hle' : (128 <=? d) = false) by (apply N.leb_gt; now apply N.ltb_lt).
    rewrite Hle'. cbn [andb]. intros E.
    apply N.ltb_lt in Hd, Ha128.
    destruct (N.leb_spec 97 a), (N.leb_spec a 122), (N.leb_spec 65 a),
      (N.leb_spec a 90), (N.leb_spec 48 a), (N.leb_spec a 57),
      (N.eqb_spec a 95); cbn in Ha; try discriminate Ha;
    destruct (N.leb_spec 97 d), (N.leb_spec d 122), (N.leb_spec 65 d),
      (N.leb_spec d 90), (N.leb_spec 48 d), (N.leb_spec d 57),
      (N.eqb_spec d 95); cbn in E |- *; try reflexivity; lia.
  - intros E. exfalso.
    assert (Hge : 128 <= d) by (now apply N.ltb_ge).
    assert (Hup : (if (97 <=? a) && (a <=? 122) then a - 32 else a) < 128).
    { apply N.ltb_lt in Ha128. destruct ((97 <=? a) && (a <=? 122)); lia. }
    apply N.leb_le in Hge as Hge'. rewrite Hge' in E. cbn [andb] in E.
    destruct (unicodeUpper P d) as [|cu [|? ?]]; try lia.
    destruct (cu <? 128) eqn:Hcu; [lia|].
    apply N.ltb_ge in Hcu. lia.
Qed.

Lemma xorb_true_r_false (b : bool) : xorb b true = true <-> b = false.
Proof. destruct b; simpl; split; congruence. Qed.

Lemma xorb_true_l_false (b : bool) : xorb true b = true <-> b = false.
Proof. destruct b; simpl; split; congruence. Qed.

(** For a spelling that begins and ends with a word character, the
    matcher is the whole-word match of the design document. *)
Lemma isMatch_wholeWord (P : Platform) (text : list N) (t : term) (a z : N) :
  head (source t) = Some a -> isWordChar a = true ->
  last (source t) = Some z -> isWordChar z = true ->
  isMatch P text t = true
  <-> wholeWordMatch P (negb (case_sensitive t =? 1)%Z) (source t) text.
Proof.
  intros Hh Ha Hl Hz. rewrite isMatch_boundaryMatch.
  set (ic := negb _). unfold boundaryMatch, wholeWordMatch, occurrence.
  assert (Hedges : forall mid post pre,
             Forall2 (sameUnit P ic) (source t) mid ->
             isWordCharOpt (head (mid ++ post)) = true
             /\ isWordCharOpt (last (pre ++ mid)) = true).
  { intros mid post pre HF. split.
    - destruct (source t) as [|a' src]; [discriminate|].
      injection Hh as ->. inversion HF as [|? d ? mid' E HF']; subst.
      simpl. exact (sameUnit_wordChar P ic a d Ha E).
    - apply last_Some in Hl as (src' & Hsrc). rewrite Hsrc in HF.
      apply Forall2_app_inv_l in HF as (mid1 & mid2 & _ & HF2 & ->).
      inversion HF2 as [|? d ? mid' E HF']; subst.
      inversion HF'; subst.
      rewrite app_assoc, last_snoc. simpl.
      exact (sameUnit_wordChar P ic z d Hz E). }
  split; intros (pre & mid & post & [-> HF] & H1 & H2);
    destruct (Hedges mid post pre HF) as [E1 E2];
    exists pre, mid, post; (split; [auto|]).
  - rewrite E1 in H1. rewrite E2 in H2.
    apply xorb_true_r_false in H1. apply xorb_true_l_false in H2. auto.
  - rewrite E1, E2, H1, H2. auto.
Qed.

(** C9. The anchors of the pattern are word boundaries, not edges of the
    occurrence: a spelling made of non-word characters, such as the CJK
    spelling of "processor", is a whole-word occurrence in the text
    where spaces surround it, yet the matcher rejects it there (and when
    it is the whole text); it accepts the spelling glued between two
    letters, which is no whole-word occurrence. *)
Theorem C9_cjk_spelling_not_matched (P : Platform) :
  let cjk := [22788; 29702; 22120] in
  let t := {| source := cjk; target := lit "processor"; case_sensitive := 0 |} in
  wholeWordMatch P true cjk ([32] ++ cjk ++ [32])
  /\ isMatch P ([32] ++ cjk ++ [32]) t = false
  /\ wholeWordMatch P true cjk cjk
  /\ isMatch P cjk t = false
  /\ ~ wholeWordMatch P true cjk ([97] ++ cjk ++ [98])
  /\ isMatch P ([97] ++ cjk ++ [98]) t = true.
Proof.
  intros cjk t.
  assert (HF : Forall2 (sameUnit P true) cjk cjk).
  { repeat constructor. }
  repeat apply conj.
  - exists [32], cjk, [32]. repeat split. exact HF.
  - vm_compute. reflexivity.
  - exists [], cjk, []. repeat split. exact HF.
  - vm_compute. reflexivity.
  - intros (pre & mid & post & [E HF'] & Hpre & Hpost).
    assert (Hlen : length mid = 3%nat).
    { apply Forall2_length in HF'. simpl in HF'. lia. }
    assert (Hlen' : (length pre + length post = 2)%nat).
    { apply (f_equal (@length N)) in E. rewrite !length_app in E.
      simpl in E. lia. }
    destruct pre as [|p0 [|p1 [|p2 pre]]]; simpl in Hlen'; try lia.
    + destruct post as [|q0 [|q1 [|q2 post]]]; simpl in Hlen'; try lia.
      destruct mid as [|m0 [|m1 [|m2 [|m3 mid]]]]; simpl in Hlen; try lia.
      simpl in E. injection E as <- <- <- <- <-.
      inversion HF' as [|? ? ? ? E0 HF1]; subst.
      assert (W : isWordChar 22788 = true).
      { apply (sameUnit_wordChar P true 97 22788); [reflexivity|].
        unfold sameUnit in *. congruence. }
      discriminate W.
    + destruct post as [|q0 [|q1 post]]; simpl in Hlen'; try lia.
      destruct mid as [|m0 [|m1 [|m2 [|m3 mid]]]]; simpl in Hlen; try lia.
      simpl in E. injection E as <- <- <- <- <-.
      discriminate Hpre.
    + destruct post as [|q0 post]; simpl in Hlen'; try lia.
      destruct mid as [|m0 [|m1 [|m2 [|m3 mid]]]]; simpl in Hlen; try lia.
      simpl in E. injection E as <- <- <- <- <-.
      inversion HF' as [|? ? ? ? E0 HF1]; subst.
      inversion HF1 as [|? ? ? ? E1 HF2]; subst.
      inversion HF2 as [|? ? ? ? E2 HF3]; subst.
      assert (W : isWordChar 22120 = true).
      { apply (sameUnit_wordChar P true 98 22120); [reflexivity|].
        unfold sameUnit in *. congruence. }
      discriminate W.
  - apply isMatch_boundaryMatch. exists [97], cjk, [98].
    repeat split. exact HF.
Qed.

(* ================================================================= *)
(** ** Reasoning about computations *)

Lemma bind_unfold {A B} (m : M A) (k : A -> M B) w :
  (m ≫= k) w
  = match m w with
    | (Normal a, w', ev) => let '(o, w'', ev') := k a w' in (o, w'', ev ++ ev')
    | (Return v, w', ev) => (Return v, w', ev)
    | (Throw e, w', ev) => (Throw e, w', ev)
    end.
Proof. reflexivity. Qed.

Lemma bind_normal {A B} (m : M A) (k : A -> M B) w a w' ev :
  m w = (Normal a, w', ev) ->
  (m ≫= k) w = let '(o, w'', ev') := k a w' in (o, w'', ev ++ ev').
Proof. intros H. rewrite bind_unfold, H. reflexivity. Qed.

Lemma bind_return {A B} (m : M A) (k : A -> M B) w v w' ev :
  m w = (Return v, w', ev) -> (m ≫= k) w = (Return v, w', ev).
Proof. intros H. rewrite bind_unfold, H. reflexivity. Qed.

Lemma bind_throw {A B} (m : M A) (k : A -> M B) w e w' ev :
  m w = (Throw e, w', ev) -> (m ≫= k) w = (Throw e, w', ev).
Proof. intros H. rewrite bind_unfold, H. reflexivity. Qed.

Lemma try_catch_normal {A} (m : M A) h w a w' ev :
  m w = (Normal a, w', ev) -> try_catch m h w = (Normal a, w', ev).
Proof. intros H. unfold try_catch. rewrite H. reflexivity. Qed.

Lemma try_catch_return {A} (m : M A) h w v w' ev :
  m w = (Return v, w', ev) -> try_catch m h w = (Return v, w', ev).
Proof. intros H. unfold try_catch. rewrite H. reflexivity. Qed.

Lemma try_catch_throw {A} (m : M A) h w e w' ev :
  m w = (Throw e, w', ev) ->
  try_catch m h w = let '(o, w'', ev') := h e w' in (o, w'', ev ++ ev').
Proof. intros H. unfold try_catch. rewrite H. reflexivity. Qed.

Lemma get_bind {B} (k : gmap (list N) database -> M B) w :
  (get ≫= k) w = k w w.
Proof.
  rewrite bind_unfold. unfold get. now destruct (k w w) as [[o w'] ev].
Qed.

Lemma ret_bind {A B} (a : A) (k : A -> M B) w : (mret a ≫= k) w = k a w.
Proof. rewrite bind_unfold. cbn. now destruct (k a w) as [[o w'] ev]. Qed.

Lemma emit_bind {B} (e : event) (k : unit -> M B) w :
  (emit e ≫= k) w = let '(o, w', ev) := k tt w in (o, w', e :: ev).
Proof. rewrite bind_unfold. reflexivity. Qed.

(** *** [noThrow] and [noReturn], by the shape of the computation *)

Lemma noThrow_ret {A} (a : A) : noThrow (mret a : M A).
Proof. intros w e. discriminate. Qed.

Lemma noThrow_return {A} v : noThrow (return_ v : M A).
Proof. intros w e. discriminate. Qed.

Lemma noThrow_emit e : noThrow (emit e).
Proof. intros w e'. discriminate. Qed.

Lemma noThrow_bind {A B} (m : M A) (k : A -> M B) :
  noThrow m -> (forall a, noThrow (k a)) -> noThrow (m ≫= k).
Proof.
  intros Hm Hk w e. unfold outcomeOf. rewrite bind_unfold.
  specialize (Hm w). unfold outcomeOf in Hm.
  destruct (m w) as [[[a|v|e'] w'] ev]; simpl in *.
  - specialize (Hk a w' e). unfold outcomeOf in Hk.
    destruct (k a w') as [[o w''] ev']. exact Hk.
  - discriminate.
  - now destruct (Hm e').
Qed.

Lemma noThrow_try_catch {A} (m : M A) h :
  (forall e, noThrow (h e)) -> noThrow (try_catch m h).
Proof.
  intros Hh w e. unfold outcomeOf, try_catch.
  destruct (m w) as [[[a|v|e'] w'] ev]; simpl; try discriminate.
  specialize (Hh e' w' e). unfold outcomeOf in Hh.
  destruct (h e' w') as [[o w''] ev']. exact Hh.
Qed.

Lemma noReturn_ret {A} (a : A) : noReturn (mret a : M A).
Proof. intros w e. discriminate. Qed.

Lemma noReturn_throw {A} e : noReturn (throw e : M A).
Proof. intros w v. discriminate. Qed.

Lemma noReturn_emit e : noReturn (emit e).
Proof. intros w e'. discriminate. Qed.

Lemma noReturn_get : noReturn get.
Proof. intros w e'. discriminate. Qed.

Lemma noReturn_set_store p d : noReturn (set_store p d).
Proof. intros w e'. discriminate. Qed.

Lemma noReturn_bind {A B} (m : M A) (k : A -> M B) :
  noReturn m -> (forall a, noReturn (k a)) -> noReturn (m ≫= k).
Proof.
  intros Hm Hk w v. unfold outcomeOf. rewrite bind_unfold.
  specialize (Hm w). unfold outcomeOf in Hm.
  destruct (m w) as [[[a|v'|e'] w'] ev]; simpl in *.
  - specialize (Hk a w' v). unfold outcomeOf in Hk.
    destruct (k a w') as [[o w''] ev']. exact Hk.
  - now destruct (Hm v').
  - discriminate.
Qed.

Lemma noReturn_try_catch {A} (m : M A) h :
  noReturn m -> (forall e, noReturn (h e)) -> noReturn (try_catch m h).
Proof.
  intros Hm Hh w v. unfold outcomeOf, try_catch.
  specialize (Hm w). unfold outcomeOf in Hm.
  destruct (m w) as [[[a|v'|e'] w'] ev]; simpl in *; try discriminate.
  - now destruct (Hm v').
  - specialize (Hh e' w' v). unfold outcomeOf in Hh.
    destruct (h e' w') as [[o w''] ev']. exact Hh.
Qed.

(** *** [safe], by the shape of the computation *)

Section Safe.
Context (R : relation (gmap (list N) database)) (E : event -> Prop).
Context (R_refl : forall w, R w w).
Context (R_trans : forall w1 w2 w3, R w1 w2 -> R w2 w3 -> R w1 w3).

Lemma safe_ret {A} (a : A) : safe R E (mret a : M A).
Proof. intros w. split; [apply R_refl | constructor]. Qed.

Lemma safe_throw {A} e : safe R E (throw e : M A).
Proof. intros w. split; [apply R_refl | constructor]. Qed.

Lemma safe_return {A} v : safe R E (return_ v : M A).
Proof. intros w. split; [apply R_refl | constructor]. Qed.

Lemma safe_get : safe R E get.
Proof. intros w. split; [apply R_refl | constructor]. Qed.

Lemma safe_emit e : E e -> safe R E (emit e).
Proof. intros He w. split; [apply R_refl | repeat constructor; exact He]. Qed.

Lemma safe_bind {A B} (m : M A) (k : A -> M B) :
  safe R E m -> (forall a, safe R E (k a)) -> safe R E (m ≫= k).
Proof.
  intros Hm Hk w. unfold storesOf, eventsOf. rewrite bind_unfold.
  destruct (Hm w) as [HR HE]. unfold storesOf, eventsOf in HR, HE.
  destruct (m w) as [[[a|v|e] w'] ev]; simpl in *; auto.
  destruct (Hk a w') as [HR' HE']. unfold storesOf, eventsOf in HR', HE'.
  destruct (k a w') as [[o w''] ev']; simpl in *.
  split; [eapply R_trans; eauto | apply Forall_app; auto].
Qed.

Lemma safe_try_catch {A} (m : M A) h :
  safe R E m -> (forall e, safe R E (h e)) -> safe R E (try_catch m h).
Proof.
  intros Hm Hh w. unfold storesOf, eventsOf, try_catch.
  destruct (Hm w) as [HR HE]. unfold storesOf, eventsOf in HR, HE.
  destruct (m w) as [[[a|v|e] w'] ev]; simpl in *; auto.
  destruct (Hh e w') as [HR' HE']. unfold storesOf, eventsOf in HR', HE'.
  destruct (h e w') as [[o w''] ev']; simpl in *.
  split; [eapply R_trans; eauto | apply Forall_app; auto].
Qed.

Lemma safe_set_store p d :
  (forall w, R w (<[p := d]> w)) -> safe R E (set_store p d).
Proof. intros H w. split; [apply H | constructor]. Qed.
End Safe.

(** Follow the shape of a computation: one rule per construct, a case
    split where the computation branches. *)
Ltac shape :=
  repeat first
    [ lazymatch goal with |- forall _, _ => intro end
    | apply noThrow_ret | apply noThrow_return | apply noThrow_emit
    | apply noThrow_try_catch | apply noThrow_bind
    | apply noReturn_ret | apply noReturn_throw | apply noReturn_emit
    | apply noReturn_get | apply noReturn_set_store
    | apply noReturn_try_catch | apply noReturn_bind
    | lazymatch goal with
      | |- noThrow (match ?x with _ => _ end) => destruct x
      | |- noReturn (match ?x with _ => _ end) => destruct x
      end ].

Ltac safety_step :=
  first
    [ assumption
    | lazymatch goal with |- forall _, _ => intro end
    | apply safe_ret | apply safe_throw | apply safe_return
    | apply safe_get | apply safe_emit | apply safe_try_catch
    | apply safe_bind
    | match goal with
      | H : forall e, _ = true -> ?E e |- ?E _ => solve [apply H; reflexivity]
      end
    | lazymatch goal with
      | |- safe _ _ (match ?x with _ => _ end) => destruct x eqn:?
      end ].

Ltac safety := repeat safety_step.

Section Stages.
Context (P : Platform) (U : Utils) (C : Config).

Lemma hostCall_noReturn c : noReturn (hostCall U c).
Proof. unfold hostCall. shape. Qed.

Lemma Database_load_noReturn uri : noReturn (Database_load U uri).
Proof. unfold Database_load, hostCall. shape. Qed.

Lemma execute_noReturn h q : noReturn (execute P U h q).
Proof. unfold execute, hostCall. shape. Qed.

Lemma resolvePath_noReturn f : noReturn (resolvePath U f).
Proof. unfold resolvePath, hostCall. shape. Qed.

Lemma migrate_noReturn h jsonTerms :
  forall n, noReturn (migrate P U h jsonTerms n).
Proof.
  induction jsonTerms as [|t rest IH]; intros n; cbn [migrate].
  - shape.
  - unfold member. pose proof (execute_noReturn h) as Hx.
    repeat first [ apply IH | apply Hx | progress shape ].
Qed.

Lemma termsStage_noReturn : noReturn (termsStage P U C).
Proof.
  unfold termsStage, exists_, readTextFile, parseJSON.
  pose proof resolvePath_noReturn as H1.
  pose proof Database_load_noReturn as H2.
  pose proof execute_noReturn as H3.
  pose proof migrate_noReturn as H4.
  pose proof hostCall_noReturn as H5.
  repeat first [ apply H1 | apply H2 | apply H3 | apply H4 | apply H5
               | progress shape ].
Qed.

Lemma termsStage_noThrow : noThrow (termsStage P U C).
Proof. unfold termsStage. shape. Qed.

Lemma cacheStage_noThrow text from to : noThrow (cacheStage P U C text from to).
Proof. unfold cacheStage. shape. Qed.

Lemma matchStage_noReturn termsDb text : noReturn (matchStage P U termsDb text).
Proof.
  unfold matchStage, selectTerms, hostCall. shape.
Qed.

Lemma matchStage_noThrow termsDb text : noThrow (matchStage P U termsDb text).
Proof. unfold matchStage. shape. Qed.

Lemma writeBack_noThrow db text from to translation :
  noThrow (writeBack P U db text from to translation).
Proof. unfold writeBack. shape. Qed.

Lemma writeBack_noReturn db text from to translation :
  noReturn (writeBack P U db text from to translation).
Proof.
  unfold writeBack. pose proof execute_noReturn as Hx.
  repeat first [ apply Hx | progress shape ].
Qed.

Section StageSafety.
Context (R : relation (gmap (list N) database)) (E : event -> Prop).
Context (R_refl : forall w, R w w).
Context (R_trans : forall w1 w2 w3, R w1 w2 -> R w2 w3 -> R w1 w3).
Context (E_term : forall e, termEvent e = true -> E e).
Context (R_new : forall w p, w !! p = None -> R w (<[p := emptyDatabase]> w)).

Lemma hostCall_safe c : E (Called c) -> safe R E (hostCall U c).
Proof.
  intros Hc. unfold hostCall.
  apply safe_bind; [assumption | apply safe_emit; auto | safety].
Qed.

Lemma Database_load_safe uri : safe R E (Database_load U uri).
Proof.
  unfold Database_load.
  apply safe_bind; [assumption | apply hostCall_safe; now apply E_term |].
  intros _. destruct (startsWith _ _); [|safety].
  intros w. rewrite get_bind. unfold storesOf, eventsOf.
  destruct (w !! drop 7 uri) eqn:Hw; [|rewrite bind_unfold]; cbn; split; auto.
Qed.

Lemma execute_safe h q :
  E (Called (Execute h q)) ->
  (forall w d d',
      w !! h = Some d -> runExecute P q d = Some d' -> R w (<[h := d']> w)) ->
  safe R E (execute P U h q).
Proof.
  intros Hq HR. unfold execute.
  apply safe_bind; [assumption | now apply hostCall_safe |].
  intros _ w. rewrite get_bind. unfold storesOf, eventsOf.
  destruct (w !! h) as [d|] eqn:Hw; cbn; [|auto].
  destruct (runExecute P q d) as [d'|] eqn:Hd; cbn; split; eauto.
Qed.

Lemma resolvePath_safe f : safe R E (resolvePath U f).
Proof.
  unfold resolvePath. pose proof hostCall_safe as Hc.
  repeat first [ apply Hc | safety_step ].
Qed.

Lemma matchStage_safe termsDb text : safe R E (matchStage P U termsDb text).
Proof.
  unfold matchStage, selectTerms. pose proof hostCall_safe as Hc.
  repeat first [ apply Hc | safety_step ].
Qed.

Section Terms.
Context (R_terms : forall w h d d' q,
            match q with
            | CreateTerms | InsertTermOrIgnore _ _ => True
            | _ => False
            end ->
            w !! h = Some d -> runExecute P q d = Some d' ->
            R w (<[h := d']> w)).

Lemma migrate_safe h jsonTerms :
  forall n, safe R E (migrate P U h jsonTerms n).
Proof.
  induction jsonTerms as [|t rest IH]; intros n; cbn [migrate].
  - safety.
  - unfold member.
    assert (Hx : forall s t, safe R E (execute P U h (InsertTermOrIgnore s t))).
    { intros s t'. apply execute_safe; [now apply E_term|].
      intros w d d'. now apply R_terms. }
    repeat first [ apply IH | apply Hx | safety_step ].
Qed.

Lemma termsStage_safe : safe R E (termsStage P U C).
Proof.
  unfold termsStage, exists_, readTextFile, parseJSON.
  pose proof hostCall_safe as Hc.
  pose proof resolvePath_safe as H1.
  pose proof Database_load_safe as H2.
  pose proof migrate_safe as H4.
  assert (Hx : forall h, safe R E (execute P U h CreateTerms)).
  { intros h. apply execute_safe; [now apply E_term|].
    intros w d d'. now apply R_terms. }
  repeat first [ apply H1 | apply H2 | apply Hx | apply H4
               | apply Hc | safety_step ].
Qed.
End Terms.

Lemma cacheStage_safe text from to :
  (forall e, quiet e = true -> E e) ->
  (forall w h d d',
      w !! h = Some d -> runExecute P CreateTranslations d = Some d' ->
      R w (<[h := d']> w)) ->
  safe R E (cacheStage P U C text from to).
Proof.
  intros E_quiet R_create. unfold cacheStage, selectTranslation.
  pose proof hostCall_safe as Hc.
  pose proof resolvePath_safe as H1.
  pose proof Database_load_safe as H2.
  assert (Hx : forall h, safe R E (execute P U h CreateTranslations)).
  { intros h. apply execute_safe; [now apply E_quiet|].
    intros w d d'. apply R_create. }
  repeat first [ apply H1 | apply H2 | apply Hx
               | apply Hc | safety_step ].
Qed.
End StageSafety.
End Stages.

(* ================================================================= *)
(** ** What the stages leave untouched *)

Lemma sameTranslations_refl w : sameTranslations w w.
Proof. intros p. reflexivity. Qed.

Lemma sameTranslations_trans w1 w2 w3 :
  sameTranslations w1 w2 -> sameTranslations w2 w3 -> sameTranslations w1 w3.
Proof. intros H1 H2 p. now rewrite H2, H1. Qed.

Lemma sameTranslations_new w p :
  w !! p = None -> sameTranslations w (<[p := emptyDatabase]> w).
Proof.
  intros Hp q. destruct (decide (p = q)) as [->|Hne].
  - now rewrite lookup_insert_eq, Hp.
  - now rewrite lookup_insert_ne.
Qed.

Lemma sameTranslations_store w h d d' :
  w !! h = Some d -> translations d' = translations d ->
  sameTranslations w (<[h := d']> w).
Proof.
  intros Hh Ht q. destruct (decide (h = q)) as [->|Hne].
  - rewrite lookup_insert_eq, Hh. simpl. exact Ht.
  - now rewrite lookup_insert_ne.
Qed.

Lemma runExecute_terms_translations (P : Platform) q d d' :
  match q with CreateTerms | InsertTermOrIgnore _ _ => True | _ => False end ->
  runExecute P q d = Some d' -> translations d' = translations d.
Proof.
  destruct q; try contradiction; intros _; cbn.
  - now intros [= <-].
  - destruct (terms d) as [rows|]; cbn; [|discriminate].
    destruct (textOf P src) as [s|]; cbn; [|discriminate].
    destruct (textOf P tgt) as [t|]; cbn; [|discriminate].
    destruct (hasSource s rows); now intros [= <-].
Qed.

Lemma sameTranslations_rows w w' : sameTranslations w w' -> sameCachedRows w w'.
Proof. intros H p. unfold cachedRows. now rewrite H. Qed.

Lemma sameCachedRows_refl w : sameCachedRows w w.
Proof. intros p. reflexivity. Qed.

Lemma sameCachedRows_trans w1 w2 w3 :
  sameCachedRows w1 w2 -> sameCachedRows w2 w3 -> sameCachedRows w1 w3.
Proof. intros H1 H2 p. now rewrite H2, H1. Qed.

Lemma sameCachedRows_create (P : Platform) w h d d' :
  w !! h = Some d -> runExecute P CreateTranslations d = Some d' ->
  sameCachedRows w (<[h := d']> w).
Proof.
  intros Hh [= <-] q. unfold cachedRows.
  destruct (decide (h = q)) as [->|Hne].
  - rewrite lookup_insert_eq, Hh. cbn. now destruct (translations d).
  - now rewrite lookup_insert_ne.
Qed.

Lemma hasSource_In s rows : hasSource s rows = false -> ~ In s (map source rows).
Proof.
  unfold hasSource. intros H Hin. apply in_map_iff in Hin as (r & <- & Hr).
  assert (Ht : existsb (fun r0 => bool_decide (source r0 = source r)) rows = true).
  { apply existsb_exists. exists r. split; [exact Hr|]. now apply bool_decide_eq_true. }
  congruence.
Qed.

Lemma runExecute_unique (P : Platform) q d d' rows' :
  (forall rows, terms d = Some rows -> NoDup (map source rows)) ->
  runExecute P q d = Some d' -> terms d' = Some rows' ->
  NoDup (map source rows').
Proof.
  intros Hd. destruct q; cbn.
  - intros [= <-]. cbn. apply Hd.
  - intros [= <-]. apply Hd.
  - destruct (translations d); cbn; [|discriminate]. intros [= <-]. apply Hd.
  - intros [= <-]. cbn. destruct (terms d) as [rows|] eqn:E; cbn.
    + intros [= <-]. now apply Hd.
    + intros [= <-]. apply NoDup_nil_2.
  - destruct (terms d) as [rows|] eqn:E; cbn; [|discriminate].
    destruct (textOf P src) as [s|]; cbn; [|discriminate].
    destruct (textOf P tgt) as [t|]; cbn; [|discriminate].
    destruct (hasSource s rows) eqn:Hs; intros [= <-].
    + rewrite E. intros [= <-]. now apply Hd.
    + cbn. intros [= <-]. rewrite map_app. cbn.
      apply NoDup_app. repeat split.
      * now apply Hd.
      * intros x Hx ->%list_elem_of_singleton.
        apply (hasSource_In _ _ Hs). now apply list_elem_of_In.
      * apply NoDup_singleton.
  - intros [= <-]. apply Hd.
Qed.

Lemma keepsUniqueSources_refl w : keepsUniqueSources w w.
Proof. intros H. exact H. Qed.

Lemma keepsUniqueSources_trans w1 w2 w3 :
  keepsUniqueSources w1 w2 -> keepsUniqueSources w2 w3 ->
  keepsUniqueSources w1 w3.
Proof. unfold keepsUniqueSources. auto. Qed.

Lemma keepsUniqueSources_new w p :
  w !! p = None -> keepsUniqueSources w (<[p := emptyDatabase]> w).
Proof.
  intros Hp Hw q d rows Hq Hrows. destruct (decide (p = q)) as [->|Hne].
  - rewrite lookup_insert_eq in Hq. injection Hq as <-. discriminate.
  - rewrite lookup_insert_ne in Hq by exact Hne. eauto.
Qed.

Lemma keepsUniqueSources_store (P : Platform) w h q d d' :
  w !! h = Some d -> runExecute P q d = Some d' ->
  keepsUniqueSources w (<[h := d']> w).
Proof.
  intros Hh Hx Hw p d0 rows Hp Hrows. destruct (decide (h = p)) as [->|Hne].
  - rewrite lookup_insert_eq in Hp. injection Hp as <-.
    eapply runExecute_unique; eauto.
  - rewrite lookup_insert_ne in Hp by exact Hne. eauto.
Qed.

Section TermResolution.
Context (P : Platform) (U : Utils) (C : Config).

Lemma termResolution_safe R E text :
  (forall w, R w w) ->
  (forall w1 w2 w3, R w1 w2 -> R w2 w3 -> R w1 w3) ->
  (forall e, termEvent e = true -> E e) ->
  (forall w p, w !! p = None -> R w (<[p := emptyDatabase]> w)) ->
  (forall w h d d' q,
      match q with CreateTerms | InsertTermOrIgnore _ _ => True | _ => False end ->
      w !! h = Some d -> runExecute P q d = Some d' -> R w (<[h := d']> w)) ->
  safe R E (termResolution P U C text).
Proof.
  intros H1 H2 H3 H4 H5. unfold termResolution.
  apply safe_bind; [exact H2 | now apply termsStage_safe |].
  intros termsDb. now apply matchStage_safe.
Qed.

(** Loading and matching the terms always completes normally, makes no
    remote call, writes no translation, leaves every [translations]
    table as it is and keeps the sources of every [terms] table unique. *)
Lemma termResolution_spec text w :
  exists matched w2 ev2,
    termResolution P U C text w = (Normal matched, w2, ev2)
    /\ sameTranslations w w2
    /\ termEvents ev2
    /\ keepsUniqueSources w w2.
Proof.
  assert (HT : noThrow (termResolution P U C text)).
  { unfold termResolution. apply noThrow_bind;
      [apply termsStage_noThrow | intros; apply matchStage_noThrow]. }
  assert (HR : noReturn (termResolution P U C text)).
  { unfold termResolution. apply noReturn_bind;
      [apply termsStage_noReturn | intros; apply matchStage_noReturn]. }
  assert (HS : safe sameTranslations (fun e => termEvent e = true)
                 (termResolution P U C text)).
  { apply termResolution_safe; auto using sameTranslations_refl,
      sameTranslations_new.
    - exact sameTranslations_trans.
    - intros w0 h d d' q Hq Hh Hx.
      eapply sameTranslations_store; [exact Hh|].
      eapply runExecute_terms_translations; eauto. }
  assert (HU : safe keepsUniqueSources (fun _ => True)
                 (termResolution P U C text)).
  { apply termResolution_safe; auto using keepsUniqueSources_refl,
      keepsUniqueSources_new.
    - exact keepsUniqueSources_trans.
    - intros w0 h d d' q _ Hh Hx.
      eapply keepsUniqueSources_store; eauto. }
  specialize (HT w). specialize (HR w).
  destruct (HS w) as [HS1 HS2]. destruct (HU w) as [HU1 _].
  unfold outcomeOf, storesOf, eventsOf in *.
  destruct (termResolution P U C text w) as [[[m|v|e] w2] ev2]; simpl in *.
  - exists m, w2, ev2. auto.
  - now destruct (HR v).
  - now destruct (HT e).
Qed.
End TermResolution.

(* ================================================================= *)
(** ** Running the host calls and the cache stage *)

Section Run.
Context (P : Platform) (U : Utils) (C : Config).

Lemma hostCall_ok c w :
  fails U c = false -> hostCall U c w = (Normal tt, w, [Called c]).
Proof. intros H. unfold hostCall. rewrite bind_unfold. cbn. now rewrite H. Qed.

Lemma hostCall_rejected c w :
  fails U c = true -> hostCall U c w = (Throw (Rejected c), w, [Called c]).
Proof. intros H. unfold hostCall. rewrite bind_unfold. cbn. now rewrite H. Qed.

Lemma resolvePath_pure f w :
  resolvePath U f w = (resolved U f, w, resolveEvents U f).
Proof.
  unfold resolved, resolveEvents, outcomeOf, eventsOf, resolvePath.
  destruct f as [[|c f]|]; try reflexivity.
  destruct (includes (c :: f) (lit "/") || includes (c :: f) (lit "\")).
  - reflexivity.
  - destruct (join U) as [j|]; [|reflexivity].
    rewrite !bind_unfold. unfold hostCall. rewrite !bind_unfold. cbn.
    destruct (fails U (Join (cacheDir U) (c :: f))); reflexivity.
Qed.

Lemma Database_load_ok p w :
  fails U (DatabaseLoad (lit "sqlite:" ++ p)) = false ->
  Database_load U (lit "sqlite:" ++ p) w
  = (Normal p, opened w p, [Called (DatabaseLoad (lit "sqlite:" ++ p))]).
Proof.
  intros H. unfold Database_load.
  rewrite (bind_normal _ _ _ _ _ _ (hostCall_ok _ w H)).
  change (startsWith (lit "sqlite:") (lit "sqlite:" ++ p)) with true.
  change (drop 7 (lit "sqlite:" ++ p)) with p. cbv iota.
  rewrite get_bind. unfold opened.
  destruct (w !! p); [reflexivity|]. rewrite bind_unfold. reflexivity.
Qed.

Lemma Database_load_rejected uri w :
  fails U (DatabaseLoad uri) = true ->
  Database_load U uri w
  = (Throw (Rejected (DatabaseLoad uri)), w, [Called (DatabaseLoad uri)]).
Proof.
  intros H. unfold Database_load.
  now rewrite (bind_throw _ _ _ _ _ _ (hostCall_rejected _ w H)).
Qed.

Lemma execute_ok h q w d d' :
  fails U (Execute h q) = false ->
  w !! h = Some d -> runExecute P q d = Some d' ->
  execute P U h q w = (Normal tt, <[h := d']> w, [Called (Execute h q)]).
Proof.
  intros H Hh Hx. unfold execute.
  rewrite (bind_normal _ _ _ _ _ _ (hostCall_ok _ w H)).
  rewrite get_bind, Hh. cbn. rewrite Hx. reflexivity.
Qed.

Lemma execute_rejected h q w :
  fails U (Execute h q) = true ->
  execute P U h q w
  = (Throw (Rejected (Execute h q)), w, [Called (Execute h q)]).
Proof.
  intros H. unfold execute.
  now rewrite (bind_throw _ _ _ _ _ _ (hostCall_rejected _ w H)).
Qed.

Lemma selectTranslation_ok h text from to w d m :
  fails U (Select h (SelectTranslation text from to)) = false ->
  w !! h = Some d -> translations d = Some m ->
  selectTranslation U h text from to w
  = (Normal (option_list (m !! (text, from, to))), w,
     [Called (Select h (SelectTranslation text from to))]).
Proof.
  intros H Hh Hm. unfold selectTranslation.
  rewrite (bind_normal _ _ _ _ _ _ (hostCall_ok _ w H)).
  rewrite get_bind, Hh. cbn. rewrite Hm. reflexivity.
Qed.

(** Opening the store and creating the schema. *)
Lemma opened_lookup w p :
  exists d, opened w p !! p = Some d
            /\ default ∅ (translations d) = cachedRows w p
            /\ terms d = w !! p ≫= terms.
Proof.
  unfold opened, cachedRows. destruct (w !! p) as [d|] eqn:E.
  - exists d. rewrite E. auto.
  - exists emptyDatabase. rewrite lookup_insert_eq. auto.
Qed.

Lemma created_opened w p :
  <[p := {| translations := Some (cachedRows w p); terms := w !! p ≫= terms |}]>
    (opened w p) = created w p.
Proof.
  unfold created, opened. destruct (w !! p); [reflexivity|].
  apply insert_insert_eq.
Qed.

Lemma open_and_create w p :
  cacheOpens U C p ->
  (fullDbPath ← resolvePath U (databaseFile C);
   h ← Database_load U (lit "sqlite:" ++ showOpt "null" fullDbPath);
   mret (Some h)) w
  = (Normal (Some p), opened w p,
     resolveEvents U (databaseFile C)
     ++ [Called (DatabaseLoad (lit "sqlite:" ++ p))])
  /\ execute P U p CreateTranslations (opened w p)
     = (Normal tt, created w p, [Called (Execute p CreateTranslations)]).
Proof.
  intros (_ & Hres & Hload & Hexec). split.
  - rewrite bind_unfold, resolvePath_pure, Hres. cbn [showOpt].
    rewrite bind_unfold, (Database_load_ok p w Hload). reflexivity.
  - destruct (opened_lookup w p) as (d & Hd & Ht & Htm).
    erewrite execute_ok; [|exact Hexec | exact Hd | reflexivity].
    cbn. rewrite Ht, Htm, created_opened. reflexivity.
Qed.

Lemma created_lookup w p :
  created w p !! p
  = Some {| translations := Some (cachedRows w p); terms := w !! p ≫= terms |}.
Proof. apply lookup_insert_eq. Qed.

Lemma created_id w p d m :
  w !! p = Some d -> translations d = Some m -> created w p = w.
Proof.
  intros Hp Hm. unfold created, cachedRows. rewrite Hp. cbn. rewrite Hm. cbn.
  apply insert_id. rewrite Hp. destruct d as [tr tm]. cbn in Hm. now subst.
Qed.

Lemma cached_Some w p text from to c :
  cached w p text from to = Some c ->
  exists d m, w !! p = Some d /\ translations d = Some m
              /\ m !! (text, from, to) = Some c.
Proof.
  unfold cached, cachedRows. destruct (w !! p) as [d|]; cbn.
  - destruct (translations d) as [m|] eqn:Hm; cbn.
    + intros H. exists d, m. auto.
    + rewrite ?lookup_empty. discriminate.
  - rewrite ?lookup_empty. discriminate.
Qed.

(** The cache stage when the store opens: the lookup of lines 70-86. *)
Lemma cacheStage_opened text from to w p :
  cacheOpens U C p ->
  cacheStage P U C text from to w
  = let '(o, w', ev) :=
      (if negb (forceOnlineBool C) then
         rows ← selectTranslation U p text from to;
         match rows with
         | cachedTranslation :: _ => info CacheHit;; return_ cachedTranslation
         | [] => info CacheMiss
         end
       else info ForcedOnline) (created w p) in
    match o with
    | Normal _ => (Normal (Some p), w', openEvents U C p ++ ev)
    | Return v => (Return v, w', openEvents U C p ++ ev)
    | Throw e =>
        (Normal (Some p), w',
         openEvents U C p ++ ev ++ [Logged Warn (DatabaseError e)])
    end.
Proof.
  intros Hopen. destruct (open_and_create w p Hopen) as [H1 H2].
  destruct Hopen as (Hset & _). unfold cacheStage. rewrite Hset.
  rewrite bind_unfold, (try_catch_normal _ _ _ _ _ _ H1).
  rewrite bind_unfold. unfold try_catch at 1.
  rewrite bind_unfold, H2. unfold openEvents.
  match goal with
  | |- context [?k (created w p)] =>
      destruct (k (created w p)) as [[[[]|v|e] w'] ev]
  end; cbn; rewrite <- ?app_assoc; cbn; rewrite ?app_nil_r; reflexivity.
Qed.

Lemma cacheStage_hit text from to w p c :
  cacheOpens U C p -> forceOnlineBool C = false ->
  fails U (Select p (SelectTranslation text from to)) = false ->
  cached w p text from to = Some c ->
  cacheStage P U C text from to w
  = (Return c, w,
     openEvents U C p
     ++ [Called (Select p (SelectTranslation text from to));
         Logged Info CacheHit]).
Proof.
  intros Hopen Hforce Hsel Hc.
  rewrite (cacheStage_opened _ _ _ _ _ Hopen), Hforce. cbn [negb].
  rewrite bind_unfold.
  erewrite selectTranslation_ok;
    [|exact Hsel | apply created_lookup | reflexivity].
  fold (cached w p text from to). rewrite Hc. cbn.
  destruct (cached_Some _ _ _ _ _ _ Hc) as (d & m & Hd & Hm & _).
  now rewrite (created_id _ _ _ _ Hd Hm).
Qed.

Lemma cacheStage_miss text from to w p :
  cacheOpens U C p -> forceOnlineBool C = false ->
  fails U (Select p (SelectTranslation text from to)) = false ->
  cached w p text from to = None ->
  cacheStage P U C text from to w
  = (Normal (Some p), created w p,
     openEvents U C p
     ++ [Called (Select p (SelectTranslation text from to));
         Logged Info CacheMiss]).
Proof.
  intros Hopen Hforce Hsel Hc.
  rewrite (cacheStage_opened _ _ _ _ _ Hopen), Hforce. cbn [negb].
  rewrite bind_unfold.
  erewrite selectTranslation_ok;
    [|exact Hsel | apply created_lookup | reflexivity].
  fold (cached w p text from to). rewrite Hc. reflexivity.
Qed.

Lemma cacheStage_forced text from to w p :
  cacheOpens U C p -> forceOnlineBool C = true ->
  cacheStage P U C text from to w
  = (Normal (Some p), created w p,
     openEvents U C p ++ [Logged Info ForcedOnline]).
Proof.
  intros Hopen Hforce.
  rewrite (cacheStage_opened _ _ _ _ _ Hopen), Hforce. reflexivity.
Qed.

Lemma cacheStage_unset text from to w :
  isSet (databaseFile C) = false ->
  cacheStage P U C text from to w = (Normal None, w, []).
Proof. intros H. unfold cacheStage. now rewrite H. Qed.

(** The store cannot be opened: the path does not resolve, or
    [Database.load] is rejected. *)
Lemma cacheStage_not_resolved text from to w e :
  isSet (databaseFile C) = true ->
  resolved U (databaseFile C) = Throw e ->
  cacheStage P U C text from to w
  = (Normal None, w,
     resolveEvents U (databaseFile C) ++ [Logged Warn (DatabaseError e)]).
Proof.
  intros Hset Hres. unfold cacheStage. rewrite Hset.
  rewrite bind_unfold. unfold try_catch.
  rewrite bind_unfold, resolvePath_pure, Hres.
  rewrite (bind_unfold (warn _)). cbn. now rewrite app_nil_r.
Qed.

Lemma cacheStage_not_loaded text from to w p :
  isSet (databaseFile C) = true ->
  resolved U (databaseFile C) = Normal (Some p) ->
  fails U (DatabaseLoad (lit "sqlite:" ++ p)) = true ->
  cacheStage P U C text from to w
  = (Normal None, w,
     resolveEvents U (databaseFile C)
     ++ [Called (DatabaseLoad (lit "sqlite:" ++ p));
         Logged Warn
           (DatabaseError (Rejected (DatabaseLoad (lit "sqlite:" ++ p))))]).
Proof.
  intros Hset Hres Hload. unfold cacheStage. rewrite Hset.
  rewrite bind_unfold. unfold try_catch.
  rewrite bind_unfold, resolvePath_pure, Hres. cbn [showOpt].
  rewrite bind_unfold, (Database_load_rejected _ w Hload).
  rewrite (bind_unfold (warn _)). cbn.
  now rewrite app_nil_r, <- app_assoc.
Qed.

(** The store opens but CREATE TABLE is rejected: [db] keeps the handle. *)
Lemma cacheStage_schema_rejected text from to w p :
  isSet (databaseFile C) = true ->
  resolved U (databaseFile C) = Normal (Some p) ->
  fails U (DatabaseLoad (lit "sqlite:" ++ p)) = false ->
  fails U (Execute p CreateTranslations) = true ->
  cacheStage P U C text from to w
  = (Normal (Some p), opened w p,
     resolveEvents U (databaseFile C)
     ++ [Called (DatabaseLoad (lit "sqlite:" ++ p));
         Called (Execute p CreateTranslations);
         Logged Warn
           (DatabaseError (Rejected (Execute p CreateTranslations)))]).
Proof.
  intros Hset Hres Hload Hexec. unfold cacheStage. rewrite Hset.
  rewrite bind_unfold. unfold try_catch at 1.
  rewrite bind_unfold, resolvePath_pure, Hres. cbn [showOpt].
  rewrite bind_unfold, (Database_load_ok _ w Hload). cbn.
  rewrite bind_unfold. unfold try_catch.
  rewrite bind_unfold, (execute_rejected _ _ _ Hexec). cbn.
  now rewrite <- !app_assoc.
Qed.
End Run.

(* ================================================================= *)
(** ** Write-back, remote stage, and the shape of a whole call *)

Lemma returnLogged_noReturn {A} (m : M A) : noReturn m -> returnLogged m.
Proof. intros H w v Hv. now destruct (H w v). Qed.

Lemma returnLogged_bind {A B} (m : M A) (k : A -> M B) :
  returnLogged m -> (forall a, returnLogged (k a)) -> returnLogged (m ≫= k).
Proof.
  intros Hm Hk w v. unfold outcomeOf, eventsOf. rewrite bind_unfold.
  specialize (Hm w). unfold outcomeOf, eventsOf in Hm.
  destruct (m w) as [[[a|v'|e] w'] ev]; simpl in *.
  - specialize (Hk a w' v). unfold outcomeOf, eventsOf in Hk.
    destruct (k a w') as [[o w''] ev']; simpl in *.
    intros H. apply in_or_app. right. auto.
  - intros _. exact (Hm v' eq_refl).
  - discriminate.
Qed.

Lemma returnLogged_try_catch {A} (m : M A) h :
  returnLogged m -> (forall e, returnLogged (h e)) ->
  returnLogged (try_catch m h).
Proof.
  intros Hm Hh w v. unfold outcomeOf, eventsOf, try_catch.
  specialize (Hm w). unfold outcomeOf, eventsOf in Hm.
  destruct (m w) as [[[a|v'|e] w'] ev]; simpl in *.
  - discriminate.
  - intros _. exact (Hm v' eq_refl).
  - specialize (Hh e w' v). unfold outcomeOf, eventsOf in Hh.
    destruct (h e w') as [[o w''] ev']; simpl in *.
    intros H. apply in_or_app. right. auto.
Qed.

Section Remote.
Context (P : Platform) (U : Utils) (C : Config).

Lemma writeBack_normal db text from to t w :
  exists w' ev, writeBack P U db text from to t w = (Normal tt, w', ev).
Proof.
  pose proof (writeBack_noThrow P U db text from to t w) as HT.
  pose proof (writeBack_noReturn P U db text from to t w) as HR.
  unfold outcomeOf in *.
  destruct (writeBack P U db text from to t w) as [[[[]|v|e] w'] ev]; simpl in *.
  - eauto.
  - now destruct (HR v).
  - now destruct (HT e).
Qed.

Lemma writeBack_empty db text from to w :
  writeBack P U db text from to [] w = (Normal tt, w, []).
Proof. unfold writeBack. now destruct db. Qed.

Lemma writeBack_no_store text from to t w :
  writeBack P U None text from to t w = (Normal tt, w, []).
Proof. reflexivity. Qed.

Lemma writeBack_ok h text from to t w d m :
  t <> [] ->
  fails U (Execute h (UpsertTranslation text from to t)) = false ->
  w !! h = Some d -> translations d = Some m ->
  writeBack P U (Some h) text from to t w
  = (Normal tt,
     <[h := {| translations := Some (<[(text, from, to) := t]> m);
               terms := terms d |}]> w,
     [Called (Execute h (UpsertTranslation text from to t));
      Logged Info CacheStored]).
Proof.
  intros Ht Hf Hh Hm. unfold writeBack.
  destruct t as [|c t]; [congruence|]. cbn [isEmpty negb].
  unfold try_catch. rewrite bind_unfold.
  erewrite execute_ok; [|exact Hf | exact Hh | cbn; rewrite Hm; reflexivity].
  reflexivity.
Qed.

(** The remote stage, case by case. *)
Lemma remoteStage_eq db text from to matched w :
  let req := buildRequest C text from to matched in
  let res := fetch U req in
  remoteStage P U C db text from to matched w
  = if fails U (Fetch req) then
      (Throw (Rejected (Fetch req)), w, [Called (Fetch req)])
    else if ok res then
      match normalize P (data res) with
      | Some t =>
          let '(_, w', ev) := writeBack P U db text from to t w in
          (Return t, w', [Called (Fetch req); Logged Info OnlineApi] ++ ev)
      | None => (Throw TypeError, w, [Called (Fetch req)])
      end
    else
      (Throw (Thrown (apiErrorMessage P res)), w,
       [Called (Fetch req); Logged Error (ApiError (apiErrorMessage P res))]).
Proof.
  intros req res. unfold remoteStage. fold req. fold res.
  rewrite bind_unfold.
  destruct (fails U (Fetch req)) eqn:Hf.
  - now rewrite (hostCall_rejected U _ w Hf).
  - rewrite (hostCall_ok U _ w Hf).
    destruct (ok res).
    + destruct (normalize P (data res)) as [t|].
      * repeat (rewrite bind_unfold; cbn).
        destruct (writeBack_normal db text from to t w) as (w' & ev & ->).
        cbn. now rewrite app_nil_r.
      * reflexivity.
    + reflexivity.
Qed.

Lemma cacheStage_returnLogged text from to :
  returnLogged (cacheStage P U C text from to).
Proof.
  unfold cacheStage.
  destruct (isSet (databaseFile C));
    [|apply returnLogged_noReturn; shape].
  apply returnLogged_bind.
  - apply returnLogged_noReturn.
    pose proof (resolvePath_noReturn U) as H1.
    pose proof (Database_load_noReturn U) as H2.
    repeat first [ apply H1 | apply H2 | progress shape ].
  - intros [h|]; [|apply returnLogged_noReturn; shape].
    apply returnLogged_bind; [|intros; apply returnLogged_noReturn; shape].
    apply returnLogged_try_catch; [|intros; apply returnLogged_noReturn; shape].
    apply returnLogged_bind; [apply returnLogged_noReturn, execute_noReturn|].
    intros _. destruct (negb (forceOnlineBool C));
      [|apply returnLogged_noReturn; shape].
    apply returnLogged_bind.
    + apply returnLogged_noReturn. unfold selectTranslation, hostCall. shape.
    + intros [|c rows]; [apply returnLogged_noReturn; shape|].
      intros w v _. rewrite bind_unfold. cbn. auto.
Qed.

Lemma cacheStage_quiet text from to :
  safe (fun _ _ => True) (fun e => quiet e = true)
    (cacheStage P U C text from to).
Proof.
  apply cacheStage_safe; auto.
  intros e He. destruct e as [[]|]; try reflexivity; try discriminate He.
  destruct q; try reflexivity; discriminate He.
Qed.

(** A call either returns from the cache stage with the hit logged, or
    goes through term resolution to the remote stage. *)
Lemma translateBody_cases text from to w :
  (exists c w1 ev1,
      cacheStage P U C text from to w = (Return c, w1, ev1)
      /\ translateBody P U C text from to w = (Return c, w1, ev1)
      /\ quietEvents ev1 /\ In (Logged Info CacheHit) ev1)
  \/ (exists db w1 ev1 matched w2 ev2,
         cacheStage P U C text from to w = (Normal db, w1, ev1)
         /\ quietEvents ev1
         /\ termResolution P U C text w1 = (Normal matched, w2, ev2)
         /\ termEvents ev2
         /\ sameTranslations w1 w2
         /\ keepsUniqueSources w1 w2
         /\ translateBody P U C text from to w
            = let '(o, w3, ev3) :=
                remoteStage P U C db text from to matched w2 in
              (o, w3, ev1 ++ ev2 ++ ev3)).
Proof.
  pose proof (cacheStage_noThrow P U C text from to w) as HT.
  pose proof (cacheStage_returnLogged text from to w) as HL.
  destruct (cacheStage_quiet text from to w) as [_ HQ].
  unfold translateBody, onlineStages, outcomeOf, eventsOf in *.
  rewrite bind_unfold.
  destruct (cacheStage P U C text from to w) as [[[db|c|e] w1] ev1];
    simpl in *.
  - right.
    destruct (termResolution_spec P U C text w1)
      as (matched & w2 & ev2 & Hterm & Hsame & Hq & Hu).
    exists db, w1, ev1, matched, w2, ev2.
    split; [reflexivity|]. split; [exact HQ|]. split; [exact Hterm|].
    split; [exact Hq|]. split; [exact Hsame|]. split; [exact Hu|].
    rewrite bind_unfold, Hterm.
    destruct (remoteStage P U C db text from to matched w2) as [[o w3] ev3].
    reflexivity.
  - left. exists c, w1, ev1.
    split; [reflexivity|]. split; [reflexivity|]. split; [exact HQ|].
    exact (HL c eq_refl).
  - now destruct (HT e).
Qed.
End Remote.

(* ================================================================= *)
(** ** Counting remote calls *)

Lemma remoteCalls_app ev1 ev2 :
  remoteCalls (ev1 ++ ev2) = (remoteCalls ev1 + remoteCalls ev2)%nat.
Proof. unfold remoteCalls. now rewrite List.filter_app, length_app. Qed.

Lemma termEvents_quiet ev : termEvents ev -> quietEvents ev.
Proof.
  unfold termEvents, quietEvents. intros H. eapply Forall_impl; [exact H|].
  intros e He.
  destruct e as [[]|]; try reflexivity; try discriminate He.
  destruct q; try reflexivity; discriminate He.
Qed.

Lemma remoteCalls_quiet ev : quietEvents ev -> remoteCalls ev = O.
Proof.
  unfold remoteCalls. induction 1 as [|e ev He _ IH]; [reflexivity|].
  simpl. destruct e as [[]|]; simpl in *; try exact IH. discriminate.
Qed.

Lemma writeBack_no_remote (P : Platform) (U : Utils) db text from to t w :
  remoteCalls (eventsOf (writeBack P U db text from to t w)) = O.
Proof.
  unfold writeBack. destruct db as [h|]; [|reflexivity].
  destruct (negb (isEmpty t)); [|reflexivity].
  unfold try_catch, eventsOf. rewrite bind_unfold. unfold execute.
  rewrite bind_unfold. unfold hostCall. rewrite bind_unfold. cbn.
  destruct (fails U _); cbn; [reflexivity|].
  rewrite get_bind. destruct (w !! h ≫= _); reflexivity.
Qed.

Lemma remoteStage_events (P : Platform) (U : Utils) (C : Config)
    db text from to matched w :
  let req := buildRequest C text from to matched in
  exists ev,
    eventsOf (remoteStage P U C db text from to matched w) = Called (Fetch req) :: ev
    /\ remoteCalls ev = O.
Proof.
  intros req. rewrite remoteStage_eq. fold req.
  destruct (fails U (Fetch req)); [now exists []|].
  destruct (ok (fetch U req)); [|now eexists].
  destruct (normalize P (data (fetch U req))) as [t|]; [|now exists []].
  pose proof (writeBack_no_remote P U db text from to t w) as Hw.
  destruct (writeBack P U db text from to t w) as [[o w'] ev].
  eexists. split; [reflexivity|]. exact Hw.
Qed.

Lemma quietEvents_no_fetch ev req : quietEvents ev -> ~ In (Called (Fetch req)) ev.
Proof.
  intros H Hin. unfold quietEvents in H.
  rewrite List.Forall_forall in H. specialize (H _ Hin). discriminate H.
Qed.

Lemma remoteCalls_no_fetch ev req : remoteCalls ev = O -> ~ In (Called (Fetch req)) ev.
Proof.
  unfold remoteCalls. intros H Hin.
  assert (Hf : In (Called (Fetch req)) (List.filter isFetch ev)).
  { apply List.filter_In. split; [exact Hin | reflexivity]. }
  destruct (List.filter isFetch ev); [destruct Hf | discriminate H].
Qed.

(* ================================================================= *)
(** ** Error handling *)

(** The claim as stated fails: the term file exists but reading it is
    rejected; the failure is swallowed by the empty [catch] of lines
    124-127 and no warning is logged. *)
Lemma C3_counterexample_silent_read_failure :
  let U := exampleUtils (chat (lit "hi")) rejectsRead in
  let '(r, _, ev) :=
    translate plainPlatform U exampleConfig (lit "a") (lit "en") (lit "zh") ∅ in
  nth_error ev 5 = Some (Called (ReadTextFile (Some (lit "/cache/terms.db"))))
  /\ fails U (ReadTextFile (Some (lit "/cache/terms.db"))) = true
  /\ existsb isWarning ev = false
  /\ r = Ok (lit "hi").
Proof. vm_compute. auto. Qed.

(* ================================================================= *)
(** ** Cache read and write-back *)

Lemma quietEvents_no_write ev : quietEvents ev -> existsb isCacheWrite ev = false.
Proof.
  induction 1 as [|e ev He _ IH]; [reflexivity|]. simpl. rewrite IH.
  destruct e as [[]|]; try reflexivity. destruct q; try reflexivity.
  discriminate He.
Qed.

Lemma termEvents_no_read ev : termEvents ev -> existsb isCacheRead ev = false.
Proof.
  induction 1 as [|e ev He _ IH]; [reflexivity|]. simpl. rewrite IH.
  destruct e as [[]|]; try reflexivity. destruct q; try reflexivity.
  discriminate He.
Qed.

Section CacheClaims.
Context (P : Platform) (U : Utils) (C : Config).

Lemma cacheStage_rows text from to w :
  sameCachedRows w (storesOf (cacheStage P U C text from to w)).
Proof.
  refine (proj1 (cacheStage_safe P U C sameCachedRows (fun _ => True)
                   sameCachedRows_refl sameCachedRows_trans _ _
                   text from to _ _ w)); auto.
  - intros w0 p Hp. now apply sameTranslations_rows, sameTranslations_new.
  - intros w0 h d d'. apply sameCachedRows_create.
Qed.

(** The request a call sends is the one built from the terms its term
    resolution matched; a call that sends one passed the cache stage
    without returning. *)
Lemma translate_sent text from to w req :
  In (Called (Fetch req)) (snd (translate P U C text from to w)) ->
  exists db w1 ev1 matched w2 ev2,
    cacheStage P U C text from to w = (Normal db, w1, ev1)
    /\ quietEvents ev1
    /\ termResolution P U C text w1 = (Normal matched, w2, ev2)
    /\ termEvents ev2
    /\ req = buildRequest C text from to matched.
Proof.
  unfold translate.
  destruct (translateBody_cases P U C text from to w)
    as [(c & w1 & ev1 & _ & -> & Hq & _)
       |(db & w1 & ev1 & matched & w2 & ev2 & Hc & Hq1 & Hterm & Hq2 & _ & _ & ->)].
  - cbn. intros Hin. now destruct (quietEvents_no_fetch _ req Hq).
  - intros Hin. exists db, w1, ev1, matched, w2, ev2.
    repeat (split; [assumption|]).
    destruct (remoteStage_events P U C db text from to matched w2)
      as (ev3' & Hev & Hno).
    destruct (remoteStage P U C db text from to matched w2) as [[o w3] ev3].
    unfold eventsOf in Hev. cbn in Hev. subst ev3.
    assert (Hin' : In (Called (Fetch req))
                     (ev1 ++ ev2 ++ Called (Fetch (buildRequest C text from to matched))
                                     :: ev3')).
    { destruct o; exact Hin. }
    apply in_app_or in Hin' as [Hin'|Hin'];
      [now destruct (quietEvents_no_fetch _ req Hq1)|].
    apply in_app_or in Hin' as [Hin'|Hin'];
      [now destruct (quietEvents_no_fetch _ req (termEvents_quiet _ Hq2))|].
    destruct Hin' as [[= <-]|Hin']; [reflexivity|].
    now destruct (remoteCalls_no_fetch _ req Hno).
Qed.

(** C10. When the remote call a call makes succeeds and the normalised
    translation is the empty string, the write-back is skipped: the
    rows of every [translations] table are as before the call and no
    write to the cache was made, while the empty string is returned,
    after that one remote call. *)
Theorem C10_empty_translation_not_cached (text from to : list N)
    (w : gmap (list N) database) (req : request) :
  In (Called (Fetch req)) (snd (translate P U C text from to w)) ->
  fails U (Fetch req) = false -> ok (fetch U req) = true ->
  normalize P (data (fetch U req)) = Some [] ->
  let '(r, w', ev) := translate P U C text from to w in
  sameCachedRows w w'
  /\ existsb isCacheWrite ev = false
  /\ r = Ok [] /\ remoteCalls ev = 1%nat.
Proof.
  intros Hsent Hf Hok Hn.
  destruct (translate_sent text from to w req Hsent)
    as (db & w1 & ev1 & matched & w2 & ev2 & Hc & Hq1 & Hterm & Hq2 & ->).
  pose proof (cacheStage_rows text from to w) as Hrows.
  rewrite Hc in Hrows. unfold storesOf in Hrows. simpl in Hrows.
  destruct (termResolution_spec P U C text w1)
    as (matched' & w2' & ev2' & Hterm' & Hsame & _ & _).
  rewrite Hterm in Hterm'. injection Hterm' as <- <- <-.
  unfold translate, translateBody.
  rewrite (bind_normal _ _ _ _ _ _ Hc). unfold onlineStages.
  rewrite (bind_normal _ _ _ _ _ _ Hterm).
  rewrite (remoteStage_eq P U C db text from to matched w2). cbv zeta.
  rewrite Hf, Hok, Hn, writeBack_empty. cbv beta iota zeta.
  split; [eapply sameCachedRows_trans;
          [exact Hrows | now apply sameTranslations_rows]|].
  split; [|split; [reflexivity|]].
  - rewrite !existsb_app, (quietEvents_no_write _ Hq1),
      (quietEvents_no_write _ (termEvents_quiet _ Hq2)). reflexivity.
  - rewrite !remoteCalls_app, (remoteCalls_quiet _ Hq1),
      (remoteCalls_quiet _ (termEvents_quiet _ Hq2)). reflexivity.
Qed.

Lemma translate_hit text from to w c w1 ev1 :
  cacheStage P U C text from to w = (Return c, w1, ev1) ->
  translate P U C text from to w = (Ok c, w1, ev1).
Proof.
  intros H. unfold translate, translateBody.
  now rewrite (bind_return _ _ _ _ _ _ H).
Qed.

(** After the store was opened and the lookup skipped or missed: when
    the remote call made succeeds with a non-empty normalised
    translation, it is returned and upserted under the key. *)
Lemma translate_stored text from to w p evA t req :
  cacheStage P U C text from to w = (Normal (Some p), created w p, evA) ->
  In (Called (Fetch req)) (snd (translate P U C text from to w)) ->
  fails U (Fetch req) = false -> ok (fetch U req) = true ->
  normalize P (data (fetch U req)) = Some t ->
  t <> [] ->
  fails U (Execute p (UpsertTranslation text from to t)) = false ->
  exists w' ev',
    translate P U C text from to w = (Ok t, w', evA ++ ev')
    /\ remoteCalls (evA ++ ev') = 1%nat
    /\ existsb isCacheRead ev' = false
    /\ cachedRows w' p = <[(text, from, to) := t]> (cachedRows w p).
Proof.
  intros Hc Hsent Hf Hok Hn Ht Hup.
  destruct (translate_sent text from to w req Hsent)
    as (db & w1 & ev1 & matched & w2 & ev2 & Hc' & HqA & Hterm & Hq2 & ->).
  rewrite Hc in Hc'. injection Hc' as <- <- <-.
  destruct (termResolution_spec P U C text (created w p))
    as (matched' & w2' & ev2' & Hterm' & Hsame & _ & _).
  rewrite Hterm in Hterm'. injection Hterm' as <- <- <-.
  assert (Hd : exists d, w2 !! p = Some d
                         /\ translations d = Some (cachedRows w p)).
  { specialize (Hsame p). rewrite created_lookup in Hsame. cbn in Hsame.
    destruct (w2 !! p) as [d|]; [|discriminate]. now exists d. }
  destruct Hd as (d & Hd & Hm).
  eexists _, _. split.
  - unfold translate, translateBody.
    rewrite (bind_normal _ _ _ _ _ _ Hc). unfold onlineStages.
    rewrite (bind_normal _ _ _ _ _ _ Hterm).
    rewrite (remoteStage_eq P U C (Some p) text from to matched w2).
    cbv zeta. rewrite Hf, Hok, Hn.
    rewrite (writeBack_ok P U p text from to t w2 d _ Ht Hup Hd Hm).
    reflexivity.
  - split; [|split].
    + rewrite !remoteCalls_app, (remoteCalls_quiet _ HqA),
        (remoteCalls_quiet _ (termEvents_quiet _ Hq2)). reflexivity.
    + rewrite existsb_app, (termEvents_no_read _ Hq2). reflexivity.
    + unfold cachedRows at 1. now rewrite lookup_insert_eq.
Qed.

Lemma writeBack_no_read db text from to t w :
  existsb isCacheRead (eventsOf (writeBack P U db text from to t w)) = false.
Proof.
  unfold writeBack. destruct db as [h|]; [|reflexivity].
  destruct (negb (isEmpty t)); [|reflexivity].
  unfold try_catch, eventsOf. rewrite bind_unfold. unfold execute.
  rewrite bind_unfold. unfold hostCall. rewrite bind_unfold. cbn.
  destruct (fails U _); cbn; [reflexivity|].
  rewrite get_bind. destruct (w !! h ≫= _); reflexivity.
Qed.

Lemma remoteStage_no_read db text from to matched w :
  existsb isCacheRead (eventsOf (remoteStage P U C db text from to matched w))
  = false.
Proof.
  rewrite remoteStage_eq. cbv zeta.
  destruct (fails U _); [reflexivity|].
  destruct (ok _); [|reflexivity].
  destruct (normalize P _) as [t|]; [|reflexivity].
  pose proof (writeBack_no_read db text from to t w) as Hw.
  destruct (writeBack P U db text from to t w) as [[o w'] ev]. exact Hw.
Qed.

Lemma resolveEvents_no_read f : existsb isCacheRead (resolveEvents U f) = false.
Proof.
  apply termEvents_no_read. unfold resolveEvents.
  refine (proj2 (resolvePath_safe U (fun _ _ => True)
                   (fun e => termEvent e = true) _ _ _ f ∅)); auto.
Qed.

Lemma translate_online text from to w db w1 ev1 :
  cacheStage P U C text from to w = (Normal db, w1, ev1) ->
  translate P U C text from to w
  = let '(o, w', ev) := onlineStages P U C db text from to w1 in
    (toResult o, w', ev1 ++ ev).
Proof.
  intros H. unfold translate, translateBody.
  rewrite (bind_normal _ _ _ _ _ _ H).
  now destruct (onlineStages P U C db text from to w1) as [[[v|v|e] w'] ev].
Qed.

(** C7 (as amended). With force-online set and the cache store open,
    the lookup is skipped: the cache stage only opens the store and no
    read of the cache is made in the whole call; the write-back stays:
    when the remote call made succeeds with a non-empty normalised
    translation and the write is not rejected, that translation is
    returned and upserted under the key, whatever was stored there. *)
Theorem C7_force_online_skips_read_keeps_writeback (text from to : list N)
    (w : gmap (list N) database) (p : list N) :
  cacheOpens U C p -> forceOnlineBool C = true ->
  cacheStage P U C text from to w
  = (Normal (Some p), created w p,
     openEvents U C p ++ [Logged Info ForcedOnline])
  /\ (let '(_, _, ev) := translate P U C text from to w in
      existsb isCacheRead ev = false)
  /\ (exists req, In (Called (Fetch req)) (snd (translate P U C text from to w)))
  /\ (forall t req,
         In (Called (Fetch req)) (snd (translate P U C text from to w)) ->
         fails U (Fetch req) = false -> ok (fetch U req) = true ->
         normalize P (data (fetch U req)) = Some t ->
         t <> [] ->
         fails U (Execute p (UpsertTranslation text from to t)) = false ->
         exists w' ev,
           translate P U C text from to w = (Ok t, w', ev)
           /\ remoteCalls ev = 1%nat
           /\ cachedRows w' p = <[(text, from, to) := t]> (cachedRows w p)).
Proof.
  intros Hopen Hforce.
  pose proof (cacheStage_forced P U C text from to w p Hopen Hforce) as Hc.
  split; [exact Hc|].
  assert (Hrun : exists matched w2 ev2,
             termEvents ev2
             /\ translate P U C text from to w
                = let '(o, w3, ev3) :=
                    remoteStage P U C (Some p) text from to matched w2 in
                  (toResult o, w3,
                   (openEvents U C p ++ [Logged Info ForcedOnline])
                   ++ ev2 ++ ev3)).
  { destruct (termResolution_spec P U C text (created w p))
      as (matched & w2 & ev2 & Hterm & _ & Hq2 & _).
    exists matched, w2, ev2. split; [exact Hq2|].
    rewrite (translate_online _ _ _ _ _ _ _ Hc).
    unfold onlineStages. rewrite (bind_normal _ _ _ _ _ _ Hterm).
    now destruct (remoteStage P U C (Some p) text from to matched w2)
      as [[o w3] ev3]. }
  destruct Hrun as (matched & w2 & ev2 & Hq2 & Hrun).
  split; [|split].
  - rewrite Hrun.
    pose proof (remoteStage_no_read (Some p) text from to matched w2) as Hr.
    destruct (remoteStage P U C (Some p) text from to matched w2)
      as [[o w3] ev3].
    unfold eventsOf in Hr. simpl in Hr. unfold openEvents.
    rewrite !existsb_app, resolveEvents_no_read,
      (termEvents_no_read _ Hq2), Hr. reflexivity.
  - exists (buildRequest C text from to matched). rewrite Hrun.
    destruct (remoteStage_events P U C (Some p) text from to matched w2)
      as (ev3' & Hev & _).
    destruct (remoteStage P U C (Some p) text from to matched w2)
      as [[o w3] ev3].
    unfold eventsOf in Hev. cbn in Hev. subst ev3. cbn [snd].
    apply in_or_app. right. apply in_or_app. right. now left.
  - intros t req Hsent Hf Hok Hn Ht Hup.
    destruct (translate_stored text from to w p _ t req Hc Hsent Hf Hok Hn Ht Hup)
      as (w' & ev' & Htr & Hcount & _ & Hrows).
    eauto.
Qed.

(** C1 (as amended). With force-online unset and the cache store open
    and readable: a key the cache holds is answered with the cached
    text by the cache stage alone, the stores untouched, with no remote
    call and no term resolution; after a miss, when the remote call
    made succeeds with a non-empty normalised translation and the
    write-back is not rejected, a second identical call is answered
    from the cache written by the first, so the two calls make one
    remote call. *)
Theorem C1_cache_hit_and_idempotence (text from to : list N)
    (w : gmap (list N) database) (p : list N) :
  cacheOpens U C p -> forceOnlineBool C = false ->
  fails U (Select p (SelectTranslation text from to)) = false ->
  (forall c,
      cached w p text from to = Some c ->
      translate P U C text from to w
      = (Ok c, w,
         openEvents U C p
         ++ [Called (Select p (SelectTranslation text from to));
             Logged Info CacheHit])
      /\ remoteCalls (snd (translate P U C text from to w)) = O)
  /\ (forall t req,
         cached w p text from to = None ->
         In (Called (Fetch req)) (snd (translate P U C text from to w)) ->
         fails U (Fetch req) = false -> ok (fetch U req) = true ->
         normalize P (data (fetch U req)) = Some t ->
         t <> [] ->
         fails U (Execute p (UpsertTranslation text from to t)) = false ->
         let '(r1, w1, ev1) := translate P U C text from to w in
         let '(r2, w2, ev2) := translate P U C text from to w1 in
         r1 = Ok t /\ r2 = Ok t /\ w2 = w1
         /\ cached w1 p text from to = Some t
         /\ remoteCalls (ev1 ++ ev2) = 1%nat
         /\ ev2 = openEvents U C p
                  ++ [Called (Select p (SelectTranslation text from to));
                      Logged Info CacheHit]).
Proof.
  intros Hopen Hforce Hsel. split.
  - intros c Hc.
    pose proof (cacheStage_hit P U C text from to w p c Hopen Hforce Hsel Hc)
      as Hhit.
    rewrite (translate_hit _ _ _ _ _ _ _ Hhit). split; [reflexivity|].
    apply remoteCalls_quiet.
    pose proof (proj2 (cacheStage_quiet P U C text from to w)) as H.
    now rewrite Hhit in H.
  - intros t req Hmiss Hsent Hf Hok Hn Ht Hup.
    pose proof (cacheStage_miss P U C text from to w p Hopen Hforce Hsel Hmiss)
      as Hc.
    destruct (translate_stored text from to w p _ t req Hc Hsent Hf Hok Hn Ht Hup)
      as (w1 & ev' & -> & Hcount & _ & Hrows).
    assert (Hcached : cached w1 p text from to = Some t).
    { unfold cached. rewrite Hrows. apply lookup_insert_eq. }
    pose proof (cacheStage_hit P U C text from to w1 p t Hopen Hforce Hsel Hcached)
      as Hhit.
    rewrite (translate_hit _ _ _ _ _ _ _ Hhit).
    repeat split; auto.
    rewrite remoteCalls_app, Hcount.
    rewrite (remoteCalls_quiet (openEvents U C p ++ _)); [reflexivity|].
    pose proof (proj2 (cacheStage_quiet P U C text from to w1)) as H.
    now rewrite Hhit in H.
Qed.

Lemma translate_noCache text from to w :
  translate P U (noCache C) text from to w
  = let '(o, w', ev) := onlineStages P U C None text from to w in
    (toResult o, w', ev).
Proof.
  unfold translate, translateBody. rewrite bind_unfold.
  change (cacheStage P U (noCache C) text from to w) with (Normal (@None (list N)), w, @nil event).
  change (onlineStages P U (noCache C)) with (onlineStages P U C).
  cbv beta iota.
  destruct (onlineStages P U C None text from to w) as [[[v|v|e] w'] ev];
    reflexivity.
Qed.

(** What the remote stage hands back does not depend on the handle. *)
Lemma remoteStage_outcome_db db text from to matched w :
  outcomeOf (remoteStage P U C db text from to matched w)
  = outcomeOf (remoteStage P U C None text from to matched w).
Proof.
  rewrite !remoteStage_eq. cbv zeta.
  destruct (fails U _); [reflexivity|].
  destruct (ok _); [|reflexivity].
  destruct (normalize P _) as [t|]; [|reflexivity].
  now destruct (writeBack P U db text from to t w) as [[o w'] ev].
Qed.

(** C4 (as amended). When the cache store cannot be opened (its path
    does not resolve, or [Database.load] is rejected), the failure is
    logged as a warning and the call proceeds exactly as without a
    cache store: same result, same stores, same further events. When
    the store opens but its schema cannot be created, the failure is
    logged as a warning, no lookup is made, terms are resolved and the
    remote stage runs with the handle kept in [db] (so it still writes
    back); what it hands to the caller is what it hands without a
    handle. *)
Theorem C4_fail_open (text from to : list N) (w : gmap (list N) database) :
  isSet (databaseFile C) = true ->
  (forall e,
      resolved U (databaseFile C) = Throw e ->
      translate P U C text from to w
      = let '(r, w', ev) := translate P U (noCache C) text from to w in
        (r, w',
         (resolveEvents U (databaseFile C)
          ++ [Logged Warn (DatabaseError e)]) ++ ev))
  /\ (forall p,
         resolved U (databaseFile C) = Normal (Some p) ->
         fails U (DatabaseLoad (lit "sqlite:" ++ p)) = true ->
         translate P U C text from to w
         = let '(r, w', ev) := translate P U (noCache C) text from to w in
           (r, w',
            (resolveEvents U (databaseFile C)
             ++ [Called (DatabaseLoad (lit "sqlite:" ++ p));
                 Logged Warn
                   (DatabaseError
                      (Rejected (DatabaseLoad (lit "sqlite:" ++ p))))])
            ++ ev))
  /\ (forall p,
         resolved U (databaseFile C) = Normal (Some p) ->
         fails U (DatabaseLoad (lit "sqlite:" ++ p)) = false ->
         fails U (Execute p CreateTranslations) = true ->
         exists matched w2 ev2,
           termResolution P U C text (opened w p) = (Normal matched, w2, ev2)
           /\ termEvents ev2
           /\ translate P U C text from to w
              = (let '(o, w3, ev3) :=
                   remoteStage P U C (Some p) text from to matched w2 in
                 (toResult o, w3,
                  (resolveEvents U (databaseFile C)
                   ++ [Called (DatabaseLoad (lit "sqlite:" ++ p));
                       Called (Execute p CreateTranslations);
                       Logged Warn
                         (DatabaseError
                            (Rejected (Execute p CreateTranslations)))])
                  ++ ev2 ++ ev3))
           /\ outcomeOf (remoteStage P U C (Some p) text from to matched w2)
              = outcomeOf (remoteStage P U C None text from to matched w2)).
Proof.
  intros Hset. split; [|split].
  - intros e Hres.
    rewrite (translate_online _ _ _ _ _ _ _
               (cacheStage_not_resolved P U C text from to w e Hset Hres)).
    rewrite translate_noCache.
    now destruct (onlineStages P U C None text from to w) as [[o w'] ev].
  - intros p Hres Hload.
    rewrite (translate_online _ _ _ _ _ _ _
               (cacheStage_not_loaded P U C text from to w p Hset Hres Hload)).
    rewrite translate_noCache.
    now destruct (onlineStages P U C None text from to w) as [[o w'] ev].
  - intros p Hres Hload Hexec.
    rewrite (translate_online _ _ _ _ _ _ _
               (cacheStage_schema_rejected P U C text from to w p
                  Hset Hres Hload Hexec)).
    destruct (termResolution_spec P U C text (opened w p))
      as (matched & w2 & ev2 & Hterm & _ & Hq2 & _).
    exists matched, w2, ev2. split; [exact Hterm|]. split; [exact Hq2|].
    split; [|apply remoteStage_outcome_db].
    unfold onlineStages. rewrite (bind_normal _ _ _ _ _ _ Hterm).
    now destruct (remoteStage P U C (Some p) text from to matched w2)
      as [[o w3] ev3].
Qed.
End CacheClaims.

(* ================================================================= *)
(** ** Term-store migration *)

Section Migration.
Context (P : Platform) (U : Utils) (C : Config).

Lemma exists_ok p w :
  fails U (Exists (Some p)) = false ->
  exists_ U (Some p) w
  = (Normal (bool_decide (is_Some (files U !! p))
             || bool_decide (is_Some (w !! p))), w,
     [Called (Exists (Some p))]).
Proof.
  intros H. unfold exists_.
  rewrite (bind_normal _ _ _ _ _ _ (hostCall_ok U _ w H)).
  now rewrite get_bind.
Qed.

Lemma readTextFile_ok p content w :
  fails U (ReadTextFile (Some p)) = false ->
  files U !! p = Some content ->
  readTextFile U (Some p) w
  = (Normal content, w, [Called (ReadTextFile (Some p))]).
Proof.
  intros H Hc. unfold readTextFile.
  rewrite (bind_normal _ _ _ _ _ _ (hostCall_ok U _ w H)).
  cbn. now rewrite Hc.
Qed.



Section LegacyFile.
Context (path content : list N).
Context (Hset : isSet (termsFile C) = true).
Context (Hres : resolved U (termsFile C) = Normal (Some path)).
Context (Hfile : files U !! path = Some content).
Context (Hparse : JSON_parse P content = Some legacyCPU).
Context (Hfails : forall c, fails U c = false).

End LegacyFile.


End Migration.


Section MigrationTurns.
Context (P : Platform) (U : Utils) (C : Config).




Section Refused.
Context (path content : list N) (items : list json).
Context (Hset : isSet (termsFile C) = true).
Context (Hres : resolved U (termsFile C) = Normal (Some path)).
Context (Hfile : files U !! path = Some content).
Context (Hparse : JSON_parse P content = Some (JArr items)).
Context (Hexists : fails U (Exists (Some path)) = false).
Context (Hread : fails U (ReadTextFile (Some path)) = false).



End Refused.
End MigrationTurns.




(* ================================================================= *)
(** ** Rejected host calls and their warnings *)

Section Warned.
Context (U : Utils).

Lemma warned_app ev1 ev2 :
  warned U ev1 -> warned U ev2 -> warned U (ev1 ++ ev2).
Proof.
  induction ev1 as [|[c|l m] ev1 IH]; cbn; auto.
  intros [Hc H1] H2. split; [|auto].
  intros Hf Hl. destruct (Hc Hf Hl) as (m & post' & -> & Hm).
  now exists m, (post' ++ ev2).
Qed.

Lemma warned_split pre c post :
  warned U (pre ++ Called c :: post) ->
  fails U c = true -> loud c = true -> warnedAfter c post.
Proof.
  induction pre as [|[c0|l m] pre IH]; cbn.
  - intros [H _]. exact H.
  - intros [_ H]. now apply IH.
  - exact IH.
Qed.

Lemma warned_quiet_call pre c :
  warned U pre -> loud c = false -> warned U (pre ++ [Called c]).
Proof.
  intros H Hl. apply warned_app; [exact H|]. cbn. split; [|exact I].
  intros _ Hl'. congruence.
Qed.

Lemma warned_caught pre c m :
  warned U pre -> reason m = Some (Rejected c) ->
  warned U ((pre ++ [Called c]) ++ [Logged Warn m]).
Proof.
  intros H Hm. rewrite <- app_assoc. apply warned_app; [exact H|].
  cbn. split; [|exact I]. intros _ _. now exists m, [].
Qed.

Lemma warned_logged ev l m : warned U ev -> warned U (ev ++ [Logged l m]).
Proof. intros H. apply warned_app; [exact H | exact I]. Qed.

Section Rules.
Context {A B : Type} (L : hostcall -> Prop).

Lemma disciplined_ret (a : A) : disciplined U L (mret a : M A).
Proof. intros w. exact I. Qed.

Lemma disciplined_return v : disciplined U L (return_ v : M A).
Proof. intros w. exact I. Qed.

Lemma disciplined_throw e :
  match e with Rejected _ => False | _ => True end ->
  disciplined U L (throw e : M A).
Proof. intros He w. cbn. destruct e; [destruct He|exact I..]. Qed.

Lemma disciplined_log l m : disciplined U L (emit (Logged l m)).
Proof. intros w. exact I. Qed.

Lemma disciplined_get : disciplined U L get.
Proof. intros w. exact I. Qed.

Lemma disciplined_weaken (L' : hostcall -> Prop) (m : M A) :
  (forall c, L' c -> L c) -> disciplined U L' m -> disciplined U L m.
Proof.
  intros HL Hm w. specialize (Hm w).
  destruct (m w) as [[[a|v|[c| | |]] w1] ev]; auto.
  destruct Hm as (pre & E & Hp & Hc). eauto.
Qed.

Lemma disciplined_bind (m : M A) (f : A -> M B) :
  disciplined U L m -> (forall a, disciplined U L (f a)) ->
  disciplined U L (m ≫= f).
Proof.
  intros Hm Hf w. rewrite bind_unfold. specialize (Hm w).
  destruct (m w) as [[[a|v|e] w1] ev1].
  - specialize (Hf a w1).
    destruct (f a w1) as [[[b|v|[c| | |]] w2] ev2];
      try (now apply warned_app).
    destruct Hf as (pre & -> & Hp & Hc).
    exists (ev1 ++ pre). rewrite <- app_assoc.
    split; [reflexivity|]. split; [now apply warned_app | exact Hc].
  - exact Hm.
  - exact Hm.
Qed.

(** A [catch] that logs one warning carrying the error. *)
Lemma disciplined_try_warn (L' : hostcall -> Prop) (m : M A)
    (h : exn -> M A) :
  disciplined U L' m ->
  (forall e w, exists a msg,
      h e w = (Normal a, w, [Logged Warn msg]) /\ reason msg = Some e) ->
  disciplined U L (try_catch m h).
Proof.
  intros Hm Hh w. unfold try_catch. specialize (Hm w).
  destruct (m w) as [[[a|v|e] w1] ev1]; try exact Hm.
  destruct (Hh e w1) as (a & msg & -> & Hr).
  destruct e as [c| | |]; try (now apply warned_logged).
  destruct Hm as (pre & -> & Hp & _). now apply warned_caught.
Qed.

(** An empty [catch]. *)
Lemma disciplined_try_silent (m : M A) (h : exn -> M A) :
  disciplined U (fun c => loud c = false) m ->
  (forall e w, exists a, h e w = (Normal a, w, [])) ->
  disciplined U L (try_catch m h).
Proof.
  intros Hm Hh w. unfold try_catch. specialize (Hm w).
  destruct (m w) as [[[a|v|e] w1] ev1]; try exact Hm.
  destruct (Hh e w1) as (a & ->). rewrite app_nil_r.
  destruct e as [c| | |]; try exact Hm.
  destruct Hm as (pre & -> & Hp & Hl). now apply warned_quiet_call.
Qed.
End Rules.

Lemma disciplined_hostCall (L : hostcall -> Prop) c :
  L c -> disciplined U L (hostCall U c).
Proof.
  intros Hc w. unfold hostCall. rewrite bind_unfold. cbn.
  destruct (fails U c) eqn:Hf; cbn.
  - exists []. repeat split. exact Hc.
  - split; [|exact I]. intros Hf'. congruence.
Qed.

(** A host call that throws its own rejection after it went through. *)
Lemma disciplined_call_then {A} (L : hostcall -> Prop) c (k : M A) :
  L c ->
  (forall w, match k w with
             | (Throw e, _, ev) => e = Rejected c /\ ev = []
             | (_, _, ev) => ev = []
             end) ->
  disciplined U L (hostCall U c;; k).
Proof.
  intros Hc Hk w. unfold hostCall. rewrite bind_unfold, bind_unfold. cbn.
  destruct (fails U c) eqn:Hf; cbn.
  - exists []. repeat split. exact Hc.
  - specialize (Hk w).
    destruct (k w) as [[[a|v|e] w1] ev].
    + subst ev. cbn. split; [|exact I]. intros Hf'. congruence.
    + subst ev. cbn. split; [|exact I]. intros Hf'. congruence.
    + destruct Hk as [-> ->]. exists []. repeat split. exact Hc.
Qed.
End Warned.

Ltac discipline_step :=
  lazymatch goal with
  | |- disciplined _ _ (mret _) => apply disciplined_ret
  | |- disciplined _ _ (return_ _) => apply disciplined_return
  | |- disciplined _ _ (throw _) => apply disciplined_throw; exact I
  | |- disciplined _ _ (emit (Logged _ _)) => apply disciplined_log
  | |- disciplined _ _ (info _) => apply disciplined_log
  | |- disciplined _ _ (warn _) => apply disciplined_log
  | |- disciplined _ _ (error _) => apply disciplined_log
  | |- disciplined _ _ (hostCall _ _) => apply disciplined_hostCall
  | |- disciplined _ _ (mbind _ _) => apply disciplined_bind
  | |- disciplined _ _ (match ?x with _ => _ end) => destruct x eqn:?
  | |- forall _, _ => intro
  end.

Ltac discipline := repeat discipline_step.

Section StageDiscipline.
Context (P : Platform) (U : Utils) (C : Config).

Lemma disciplined_execute L h q :
  L (Execute h q) -> disciplined U L (execute P U h q).
Proof.
  intros Hc. unfold execute. apply disciplined_call_then; [exact Hc|].
  intros w. rewrite get_bind.
  destruct (w !! h ≫= runExecute P q); cbn; auto.
Qed.

Lemma disciplined_selectTranslation L h text from to :
  L (Select h (SelectTranslation text from to)) ->
  disciplined U L (selectTranslation U h text from to).
Proof.
  intros Hc. unfold selectTranslation.
  apply disciplined_call_then; [exact Hc|].
  intros w. rewrite get_bind.
  destruct (w !! h ≫= translations); cbn; auto.
Qed.

Lemma disciplined_selectTerms L h :
  L (Select h SelectTerms) -> disciplined U L (selectTerms U h).
Proof.
  intros Hc. unfold selectTerms.
  apply disciplined_call_then; [exact Hc|].
  intros w. rewrite get_bind.
  destruct (w !! h ≫= terms); cbn; auto.
Qed.

Lemma disciplined_exists L path :
  L (Exists path) -> disciplined U L (exists_ U path).
Proof.
  intros Hc. unfold exists_.
  apply disciplined_call_then; [exact Hc|].
  intros w. destruct path; [rewrite get_bind|]; cbn; auto.
Qed.

Lemma disciplined_readTextFile L path :
  L (ReadTextFile path) -> disciplined U L (readTextFile U path).
Proof.
  intros Hc. unfold readTextFile.
  apply disciplined_call_then; [exact Hc|].
  intros w. destruct (path ≫= _); cbn; auto.
Qed.

Lemma disciplined_Database_load L uri :
  L (DatabaseLoad uri) -> disciplined U L (Database_load U uri).
Proof.
  intros Hc. unfold Database_load.
  apply disciplined_call_then; [exact Hc|].
  intros w. destruct (startsWith _ uri); [|cbn; auto].
  rewrite get_bind. destruct (w !! drop 7 uri); [reflexivity|].
  rewrite bind_unfold. reflexivity.
Qed.

Lemma disciplined_resolvePath L f :
  (forall d g, L (Join d g)) -> disciplined U L (resolvePath U f).
Proof.
  intros HL. unfold resolvePath.
  destruct f as [[|c f]|]; discipline. apply HL.
Qed.

Lemma disciplined_parseJSON L content : disciplined U L (parseJSON P content).
Proof. unfold parseJSON. discipline. Qed.

Lemma disciplined_cacheStage L text from to :
  disciplined U L (cacheStage P U C text from to).
Proof.
  unfold cacheStage. destruct (isSet (databaseFile C)); [|discipline].
  apply disciplined_bind.
  - apply (disciplined_try_warn U L (fun _ => True)).
    + discipline.
      * now apply disciplined_resolvePath.
      * now apply disciplined_Database_load.
    + intros e w. now eexists _, _.
  - intros [h|]; [|discipline].
    apply disciplined_bind; [|discipline].
    apply (disciplined_try_warn U L (fun _ => True)).
    + apply disciplined_bind; [now apply disciplined_execute|].
      intros _. destruct (negb (forceOnlineBool C)).
      * apply disciplined_bind;
          [now apply disciplined_selectTranslation|].
        intros [|c rows]; unfold info; discipline.
      * unfold info. discipline.
    + intros e w. now eexists _, _.
Qed.

Lemma disciplined_migrate h items :
  forall n, disciplined U (fun _ => True) (migrate P U h items n).
Proof.
  induction items as [|t rest IH]; intros n; cbn [migrate].
  - discipline.
  - unfold member. destruct t; discipline; try apply IH.
    all: apply (disciplined_try_silent U);
      [ apply disciplined_bind;
        [now apply disciplined_execute | discipline]
      | intros e w; now eexists ].
Qed.

Lemma disciplined_termsStage L : disciplined U L (termsStage P U C).
Proof.
  unfold termsStage. destruct (isSet (termsFile C)); [|discipline].
  apply (disciplined_try_warn U L (fun _ => True));
    [|intros e w; now eexists _, _].
  apply disciplined_bind; [now apply disciplined_resolvePath|].
  intros fullTermsPath. apply disciplined_bind.
  { apply (disciplined_try_warn U _ (fun _ => True));
      [now apply disciplined_exists | intros e w; now eexists _, _]. }
  intros fileExists. apply disciplined_bind.
  { destruct fileExists; [|discipline].
    apply (disciplined_try_silent U); [|intros e w; now eexists].
    apply disciplined_bind; [now apply disciplined_readTextFile|].
    intros fileContent. apply disciplined_bind;
      [apply disciplined_parseJSON|].
    intros parsed. unfold info. destruct parsed; discipline. }
  intros [needMigration jsonTerms]. apply disciplined_bind.
  { apply (disciplined_try_warn U _ (fun _ => True));
      [|intros e w; now eexists _, _].
    apply disciplined_bind; [now apply disciplined_Database_load|].
    discipline. }
  intros [h|]; unfold info, warn.
  - discipline; try (now apply disciplined_execute).
    apply disciplined_migrate.
  - discipline.
Qed.

Lemma disciplined_matchStage L termsDb text :
  disciplined U L (matchStage P U termsDb text).
Proof.
  unfold matchStage. destruct termsDb as [h|]; [|discipline].
  apply (disciplined_try_warn U L (fun _ => True));
    [|intros e w; now eexists _, _].
  unfold info. discipline. now apply disciplined_selectTerms.
Qed.

Lemma disciplined_writeBack L db text from to t :
  disciplined U L (writeBack P U db text from to t).
Proof.
  unfold writeBack. destruct db as [h|]; [|discipline].
  destruct (negb (isEmpty t)); [|discipline].
  apply (disciplined_try_warn U L (fun _ => True));
    [|intros e w; now eexists _, _].
  unfold info. discipline. now apply disciplined_execute.
Qed.

Lemma disciplined_remoteStage db text from to matched :
  disciplined U (fun c => loud c = false)
    (remoteStage P U C db text from to matched).
Proof.
  unfold remoteStage.
  apply disciplined_bind; [now apply disciplined_hostCall|].
  intros _. unfold info, error.
  destruct (ok _); discipline.
  apply disciplined_writeBack.
Qed.

(** In the events of a call every rejected host call but the remote
    call, the read of the term file and a migration insert is followed
    at once by the warning that reports it. *)
Lemma translate_warned text from to w :
  warned U (snd (translate P U C text from to w)).
Proof.
  assert (H : disciplined U (fun c => loud c = false)
                (translateBody P U C text from to)).
  { unfold translateBody, onlineStages, termResolution.
    discipline.
    - apply disciplined_cacheStage.
    - apply disciplined_termsStage.
    - apply disciplined_matchStage.
    - apply disciplined_remoteStage. }
  specialize (H w). unfold translate.
  destruct (translateBody P U C text from to w) as [[[v|v|[c| | |]] w'] ev];
    cbn; try exact H.
  destruct H as (pre & -> & Hp & Hl). now apply warned_quiet_call.
Qed.
End StageDiscipline.

Section SilentFailures.
Context (P : Platform) (U : Utils) (C : Config).

(** A rejected migration insert (lines 160-167): the turn records the
    call and nothing else, the count and the stores stay, and the loop
    goes on with the next entry. *)
Lemma migrate_rejected_insert h t rest n w :
  t <> JNull ->
  truthy (prop "source" t) && truthy (prop "target" t) = true ->
  fails U (Execute h (InsertTermOrIgnore (prop "source" t) (prop "target" t)))
  = true ->
  migrate P U h (t :: rest) n w
  = let '(o, w', ev) := migrate P U h rest n w in
    (o, w',
     Called (Execute h (InsertTermOrIgnore (prop "source" t) (prop "target" t)))
     :: ev).
Proof.
  intros Ht Hc Hf. cbn [migrate]. unfold member.
  assert (E : forall (k : option json -> M nat),
             (match t with JNull => throw TypeError | _ => mret (prop "source" t) end
              ≫= k) w = k (prop "source" t) w).
  { intros k. destruct t; try congruence; now rewrite ret_bind. }
  rewrite E.
  assert (E' : forall (k : option json -> M nat),
             (match t with JNull => throw TypeError | _ => mret (prop "target" t) end
              ≫= k) w = k (prop "target" t) w).
  { intros k. destruct t; try congruence; now rewrite ret_bind. }
  rewrite E', Hc. rewrite bind_unfold.
  unfold try_catch at 1. rewrite bind_unfold.
  rewrite (execute_rejected P U h _ w Hf). cbn.
  now destruct (migrate P U h rest n w) as [[o w'] ev].
Qed.

(** A term file that is there but cannot be read, or whose content is
    no JSON (lines 113-127): nothing is logged for it, and the store is
    opened as for a file that is no legacy array. *)
Lemma termsStage_silent_read path w :
  isSet (termsFile C) = true ->
  resolved U (termsFile C) = Normal (Some path) ->
  fails U (Exists (Some path)) = false ->
  is_Some (files U !! path) \/ is_Some (w !! path) ->
  (fails U (ReadTextFile (Some path)) = true
   \/ files U !! path = None
   \/ exists content,
       files U !! path = Some content /\ JSON_parse P content = None) ->
  fails U (DatabaseLoad (lit "sqlite:" ++ path)) = false ->
  fails U (Execute path CreateTerms) = false ->
  let d0 := default emptyDatabase (w !! path) in
  termsStage P U C w
  = (Normal (Some path),
     <[path := {| translations := translations d0;
                  terms := Some (default [] (terms d0)) |}]> w,
     nativeLoadEvents U C path).
Proof.
  intros Hset Hres Hex Hthere Hbad Hload Hcreate d0.
  assert (A1 : try_catch (exists_ U (Some path))
                 (fun e => warn (TermsCheckFailed e);; mret false) w
               = (Normal true, w, [Called (Exists (Some path))])).
  { apply try_catch_normal. rewrite (exists_ok U _ _ Hex).
    repeat f_equal. apply orb_true_iff.
    destruct Hthere as [H|H]; [left | right]; now apply bool_decide_eq_true. }
  assert (A2 : try_catch
                 (fileContent ← readTextFile U (Some path);
                  parsed ← parseJSON P fileContent;
                  match parsed with
                  | JArr items =>
                      info (JsonTermsDetected (length items));;
                      mret (true, items)
                  | _ => mret (false, [])
                  end)
                 (fun jsonErr => mret (false, [])) w
               = (Normal (false, []), w,
                  [Called (ReadTextFile (Some path))])).
  { unfold try_catch, readTextFile.
    rewrite (bind_unfold (hostCall U _ ≫= _)).
    rewrite bind_unfold. unfold hostCall at 1. rewrite bind_unfold. cbn.
    destruct (fails U (ReadTextFile (Some path))) eqn:Hr; [reflexivity|].
    cbn. destruct Hbad as [Hbad|[Hbad|(content & Hc & Hp)]];
      [congruence| |].
    - rewrite Hbad. reflexivity.
    - rewrite Hc. cbn. unfold parseJSON. rewrite Hp. reflexivity. }
  assert (A3 : try_catch
                 (h ← Database_load U (lit "sqlite:" ++ showOpt "null" (Some path));
                  mret (Some h))
                 (fun dbErr => warn (TermsSqliteFailed dbErr);; mret None) w
               = (Normal (Some path), opened w path,
                  [Called (DatabaseLoad (lit "sqlite:" ++ path))])).
  { apply try_catch_normal. cbn [showOpt].
    now rewrite (bind_normal _ _ _ _ _ _ (Database_load_ok U path w Hload)). }
  assert (Hd0 : opened w path !! path = Some d0).
  { unfold opened, d0. destruct (w !! path) as [d|] eqn:E; [exact E|].
    apply lookup_insert_eq. }
  pose proof (execute_ok P U path CreateTerms (opened w path) d0 _
                Hcreate Hd0 eq_refl) as A4.
  assert (Hw : <[path := {| translations := translations d0;
                            terms := Some (default [] (terms d0)) |}]>
                 (opened w path)
               = <[path := {| translations := translations d0;
                              terms := Some (default [] (terms d0)) |}]> w).
  { unfold opened. destruct (w !! path); [reflexivity|].
    apply insert_insert_eq. }
  rewrite Hw in A4.
  unfold termsStage. rewrite Hset.
  apply try_catch_normal.
  rewrite bind_unfold, resolvePath_pure, Hres.
  rewrite (bind_normal _ _ _ _ _ _ A1). cbv beta iota.
  rewrite (bind_normal _ _ _ _ _ _ A2). cbv beta iota.
  rewrite (bind_normal _ _ _ _ _ _ A3). cbv beta iota.
  rewrite bind_unfold. rewrite (bind_normal _ _ _ _ _ _ A4).
  unfold nativeLoadEvents. reflexivity.
Qed.
End SilentFailures.

(** C3 (as amended). Whatever host calls on stores and files are
    rejected, a call either returns from the cache with the hit logged
    and no remote call, or makes exactly one remote call, for the request
    built from the matched terms, and hands the caller what the remote
    stage yields: the rejection of the call, or for a non-success
    response the thrown message with the status and the serialised body,
    or for a success response with content that normalises the
    normalised text. Every rejected host call on a store or a file is
    followed at once by the warning that reports it, but for two that
    sit in an empty [catch]: the read of the term file (with the parse
    of its content) and a migration insert, after which the code goes on
    with nothing logged. *)
Theorem C3_failures_caught_remote_decides (P : Platform) (U : Utils)
    (C : Config) (text from to : list N) (w : gmap (list N) database) :
  (let '(r, _, ev) := translate P U C text from to w in
   ((exists c, r = Ok c /\ remoteCalls ev = O /\ In (Logged Info CacheHit) ev)
    \/ (exists matched,
           let req := buildRequest C text from to matched in
           let res := fetch U req in
           In (Called (Fetch req)) ev /\ remoteCalls ev = 1%nat
           /\ (fails U (Fetch req) = true -> r = Failed (Rejected (Fetch req)))
           /\ (fails U (Fetch req) = false -> ok res = false ->
               r = Failed (Thrown (apiErrorText P res)))
           /\ (fails U (Fetch req) = false -> ok res = true ->
               forall t, normalize P (data res) = Some t -> r = Ok t)))
   /\ (forall pre c post,
          ev = pre ++ Called c :: post ->
          fails U c = true -> loud c = true ->
          exists m post',
            post = Logged Warn m :: post' /\ reason m = Some (Rejected c)))
  /\ (forall path,
         isSet (termsFile C) = true ->
         resolved U (termsFile C) = Normal (Some path) ->
         fails U (Exists (Some path)) = false ->
         is_Some (files U !! path) \/ is_Some (w !! path) ->
         (fails U (ReadTextFile (Some path)) = true
          \/ files U !! path = None
          \/ exists content,
              files U !! path = Some content /\ JSON_parse P content = None) ->
         fails U (DatabaseLoad (lit "sqlite:" ++ path)) = false ->
         fails U (Execute path CreateTerms) = false ->
         exists w',
           termsStage P U C w
           = (Normal (Some path), w',
              resolveEvents U (termsFile C)
              ++ [Called (Exists (Some path));
                  Called (ReadTextFile (Some path));
                  Called (DatabaseLoad (lit "sqlite:" ++ path));
                  Called (Execute path CreateTerms);
                  Logged Info TermsReady]))
  /\ (forall h t rest n,
         t <> JNull ->
         truthy (prop "source" t) && truthy (prop "target" t) = true ->
         fails U (Execute h (InsertTermOrIgnore (prop "source" t) (prop "target" t)))
         = true ->
         migrate P U h (t :: rest) n w
         = let '(o, w', ev) := migrate P U h rest n w in
           (o, w',
            Called (Execute h (InsertTermOrIgnore (prop "source" t)
                                 (prop "target" t)))
            :: ev)).
Proof.
  split; [|split].
  - pose proof (translate_warned P U C text from to w) as Hwarned.
    unfold translate in *. revert Hwarned.
    destruct (translateBody_cases P U C text from to w)
      as [(c & w1 & ev1 & _ & -> & Hq & Hin)
         |(db & w1 & ev1 & matched & w2 & ev2 & _ & Hq1 & _ & Hq2 & _ & _ & ->)].
    + cbv beta iota zeta. cbn [snd]. intros Hwarned. split.
      * left. exists c. auto using remoteCalls_quiet.
      * intros pre c0 post -> Hf Hl.
        exact (warned_split U pre c0 post Hwarned Hf Hl).
    + assert (Hloud : forall ev,
                 warned U ev ->
                 forall pre c post,
                   ev = pre ++ Called c :: post ->
                   fails U c = true -> loud c = true ->
                   exists m post',
                     post = Logged Warn m :: post' /\ reason m = Some (Rejected c)).
      { intros ev Hw pre c post -> Hf Hl.
        exact (warned_split U pre c post Hw Hf Hl). }
      rewrite (remoteStage_eq P U C db text from to matched w2). cbv zeta.
      assert (Hcount : forall ev,
                 remoteCalls ev = O ->
                 remoteCalls
                   (ev1 ++ ev2 ++ Called (Fetch (buildRequest C text from to matched)) :: ev)
                 = 1%nat).
      { intros ev Hno.
        rewrite !remoteCalls_app, (remoteCalls_quiet _ Hq1),
          (remoteCalls_quiet _ (termEvents_quiet _ Hq2)).
        change (Called ?c :: ev) with ([Called c] ++ ev).
        rewrite remoteCalls_app, Hno. reflexivity. }
      assert (Hin : forall ev,
                 In (Called (Fetch (buildRequest C text from to matched)))
                   (ev1 ++ ev2 ++ Called (Fetch (buildRequest C text from to matched)) :: ev)).
      { intros ev. apply in_or_app. right. apply in_or_app. right. now left. }
      destruct (fails U (Fetch (buildRequest C text from to matched))) eqn:Hf.
      * cbv beta iota. intros Hwarned. split; [|exact (Hloud _ Hwarned)].
        right. exists matched. rewrite Hf.
        repeat split; auto; discriminate.
      * destruct (ok (fetch U (buildRequest C text from to matched))) eqn:Hok.
        -- destruct (normalize P (data (fetch U (buildRequest C text from to matched))))
             as [t|] eqn:Hn.
           ++ pose proof (writeBack_no_remote P U db text from to t w2) as Hw.
              destruct (writeBack P U db text from to t w2) as [[o' w'] ev'].
              cbv beta iota. intros Hwarned. split; [|exact (Hloud _ Hwarned)].
              right. exists matched. rewrite Hf, Hok, Hn.
              split; [exact (Hin (Logged Info OnlineApi :: ev'))|].
              split; [exact (Hcount (Logged Info OnlineApi :: ev') Hw)|].
              repeat split; try discriminate. now intros _ _ t' [= <-].
           ++ cbv beta iota. intros Hwarned. split; [|exact (Hloud _ Hwarned)].
              right. exists matched. rewrite Hf, Hok, Hn.
              repeat split; auto; discriminate.
        -- cbv beta iota. intros Hwarned. split; [|exact (Hloud _ Hwarned)].
           right. exists matched. rewrite Hf, Hok.
           repeat split; auto; discriminate.
  - intros path Hset Hres Hex Hthere Hbad Hload Hcreate. eexists.
    exact (termsStage_silent_read P U C path w Hset Hres Hex Hthere Hbad
             Hload Hcreate).
  - intros h t rest n. apply migrate_rejected_insert.
Qed.

Lemma C3_witness :
  let U := exampleUtils (chat (lit "hi")) rejectsLoad in
  let c := DatabaseLoad (lit "sqlite:/cache/cache.db") in
  let run := translate plainPlatform U exampleConfig (lit "a") (lit "en") (lit "zh") ∅ in
  fails U c = true
  /\ fst (fst run) = Ok (lit "hi")
  /\ exists post, snd run = Called c :: Logged Warn (DatabaseError (Rejected c)) :: post.
Proof.
  intros U c run.
  pose proof (proj1 (C3_failures_caught_remote_decides plainPlatform U exampleConfig
                       (lit "a") (lit "en") (lit "zh") ∅)) as H.
  fold run in H. remember run as r eqn:E. unfold run in E.
  vm_compute in E. subst r. cbv beta iota zeta in H.
  destruct H as [Hres Hwarn].
  split; [reflexivity|]. split.
  - destruct Hres as [(t & _ & Hcount & _)|(matched & _ & _ & _ & _ & H)].
    + vm_compute in Hcount. discriminate Hcount.
    + exact (H eq_refl eq_refl (lit "hi") eq_refl).
  - destruct (Hwarn [] _ _ eq_refl eq_refl eq_refl) as (m & post' & Hpost & Hm).
    injection Hpost as <- <-. eexists. reflexivity.
Defined.

(* ================================================================= *)
(** ** The cache claims on the example host *)

Lemma exampleConfig_opens reply rejects :
  rejects (DatabaseLoad (lit "sqlite:" ++ cachePath)) = false ->
  rejects (Execute cachePath CreateTranslations) = false ->
  cacheOpens (exampleUtils reply rejects) exampleConfig cachePath
  /\ cacheOpens (exampleUtils reply rejects) forcedConfig cachePath.
Proof. intros H1 H2. repeat split; assumption || reflexivity. Qed.

(** The idempotence claim as stated fails: the provider answers with
    empty content, nothing is written back, and the second identical
    call makes a remote call again. *)
Lemma C1_counterexample_empty_translation :
  let U := exampleUtils (chat []) rejectsNothing in
  cacheOpens U exampleConfig cachePath
  /\ forceOnlineBool exampleConfig = false
  /\ (let '(r1, w1, ev1) :=
        translate plainPlatform U exampleConfig (lit "a") (lit "en") (lit "zh") ∅ in
      let '(r2, _, ev2) :=
        translate plainPlatform U exampleConfig (lit "a") (lit "en") (lit "zh") w1 in
      r1 = Ok [] /\ r2 = Ok [] /\ remoteCalls (ev1 ++ ev2) = 2%nat).
Proof.
  split; [apply exampleConfig_opens; reflexivity|].
  vm_compute. auto.
Qed.

Lemma C1_witness :
  let U := termSensitiveUtils (chat (lit "hi")) in
  let '(r1, w1, ev1) :=
    translate plainPlatform U exampleConfig (lit "a") (lit "en") (lit "zh") ∅ in
  let '(r2, w2, ev2) :=
    translate plainPlatform U exampleConfig (lit "a") (lit "en") (lit "zh") w1 in
  r1 = Ok (lit "hi") /\ r2 = Ok (lit "hi") /\ w2 = w1
  /\ cached w1 cachePath (lit "a") (lit "en") (lit "zh") = Some (lit "hi")
  /\ remoteCalls (ev1 ++ ev2) = 1%nat
  /\ ev2 = openEvents U exampleConfig cachePath
           ++ [Called (Select cachePath
                         (SelectTranslation (lit "a") (lit "en") (lit "zh")));
               Logged Info CacheHit].
Proof.
  intros U.
  refine (proj2 (C1_cache_hit_and_idempotence plainPlatform U exampleConfig
                   (lit "a") (lit "en") (lit "zh") ∅ cachePath _ _ _)
            (lit "hi")
            (buildRequest exampleConfig (lit "a") (lit "en") (lit "zh") [])
            _ _ _ _ _ _ _).
  - repeat split.
  - reflexivity.
  - reflexivity.
  - reflexivity.
  - vm_compute. tauto.
  - reflexivity.
  - reflexivity.
  - reflexivity.
  - discriminate.
  - reflexivity.
Defined.

(** The force-online claim as stated fails: the key is cached, the
    remote call succeeds with empty content, and the cached text is not
    replaced. *)
Lemma C7_counterexample_empty_translation :
  let U := exampleUtils (chat []) rejectsNothing in
  cacheOpens U forcedConfig cachePath
  /\ forceOnlineBool forcedConfig = true
  /\ (let '(r, w', ev) :=
        translate plainPlatform U forcedConfig (lit "a") (lit "en") (lit "zh")
          (oneCached (lit "a") (lit "en") (lit "zh") (lit "old")) in
      r = Ok [] /\ remoteCalls ev = 1%nat
      /\ cached w' cachePath (lit "a") (lit "en") (lit "zh") = Some (lit "old")).
Proof.
  split; [apply exampleConfig_opens; reflexivity|].
  vm_compute. auto.
Qed.

Lemma C7_witness :
  let U := termSensitiveUtils (chat (lit "hi")) in
  let w := oneCached (lit "a") (lit "en") (lit "zh") (lit "old") in
  exists w' ev,
    translate plainPlatform U forcedConfig (lit "a") (lit "en") (lit "zh") w
    = (Ok (lit "hi"), w', ev)
    /\ remoteCalls ev = 1%nat
    /\ cachedRows w' cachePath
       = <[(lit "a", lit "en", lit "zh") := lit "hi"]> (cachedRows w cachePath).
Proof.
  intros U w.
  refine (proj2 (proj2 (proj2 (C7_force_online_skips_read_keeps_writeback
                          plainPlatform U forcedConfig
                          (lit "a") (lit "en") (lit "zh") w cachePath _ _)))
            (lit "hi")
            (buildRequest forcedConfig (lit "a") (lit "en") (lit "zh") [])
            _ _ _ _ _ _).
  - repeat split.
  - reflexivity.
  - vm_compute. tauto.
  - reflexivity.
  - reflexivity.
  - reflexivity.
  - discriminate.
  - reflexivity.
Defined.

Lemma C10_witness :
  let U := termSensitiveUtils (chat (lit "<|endofcontent|> ")) in
  let '(r, w', ev) :=
    translate plainPlatform U exampleConfig (lit "a") (lit "en") (lit "zh") ∅ in
  sameCachedRows ∅ w'
  /\ existsb isCacheWrite ev = false
  /\ r = Ok [] /\ remoteCalls ev = 1%nat.
Proof.
  intros U.
  apply (C10_empty_translation_not_cached plainPlatform U exampleConfig
           (lit "a") (lit "en") (lit "zh") ∅
           (buildRequest exampleConfig (lit "a") (lit "en") (lit "zh") [])).
  - vm_compute. tauto.
  - reflexivity.
  - reflexivity.
  - reflexivity.
Defined.

(** The fail-open claim as stated fails for a schema that cannot be
    created: the handle stays in [db], the translation is written to the
    store, which a call without a cache store never does. *)
Lemma C4_counterexample_schema_rejected_still_writes :
  let U := exampleUtils (chat (lit "hi")) rejectsSchema in
  let '(r, w', ev) :=
    translate plainPlatform U exampleConfig (lit "a") (lit "en") (lit "zh")
      emptyCache in
  let '(r0, w0, ev0) :=
    translate plainPlatform U (noCache exampleConfig)
      (lit "a") (lit "en") (lit "zh") emptyCache in
  fails U (Execute cachePath CreateTranslations) = true
  /\ r = Ok (lit "hi") /\ r0 = Ok (lit "hi")
  /\ existsb isCacheWrite ev = true /\ existsb isCacheWrite ev0 = false
  /\ cached w' cachePath (lit "a") (lit "en") (lit "zh") = Some (lit "hi")
  /\ cached w0 cachePath (lit "a") (lit "en") (lit "zh") = None.
Proof. vm_compute. auto 10. Qed.

Lemma C4_witness :
  let U := {| cacheDir := lit "/cache"; join := None; files := ∅;
              fetch := fun _ => chat (lit "hi");
              fails := fun c => match c with
                                | DatabaseLoad uri =>
                                    bool_decide (uri = lit "sqlite:" ++ cachePath)
                                | _ => false
                                end |} in
  translate plainPlatform U exampleConfig (lit "a") (lit "en") (lit "zh") ∅
  = let '(r, w', ev) :=
      translate plainPlatform U (noCache exampleConfig)
        (lit "a") (lit "en") (lit "zh") ∅ in
    (r, w',
     (resolveEvents U (databaseFile exampleConfig)
      ++ [Called (DatabaseLoad (lit "sqlite:" ++ cachePath));
          Logged Warn
            (DatabaseError
               (Rejected (DatabaseLoad (lit "sqlite:" ++ cachePath))))])
     ++ ev).
Proof.
  intros U.
  apply (proj1 (proj2 (C4_fail_open plainPlatform U exampleConfig
                         (lit "a") (lit "en") (lit "zh") ∅ eq_refl))
           cachePath); reflexivity.
Defined.


Section WholeCall.
Context (P : Platform) (U : Utils) (C : Config).
Context (R : relation (gmap (list N) database)).
Context (R_refl : forall w, R w w).
Context (R_trans : forall w1 w2 w3, R w1 w2 -> R w2 w3 -> R w1 w3).
Context (R_new : forall w p, w !! p = None -> R w (<[p := emptyDatabase]> w)).
Context (R_exec : forall w h q d d',
            w !! h = Some d -> runExecute P q d = Some d' ->
            R w (<[h := d']> w)).

Lemma writeBack_safe db text from to t :
  safe R (fun _ => True) (writeBack P U db text from to t).
Proof.
  unfold writeBack.
  assert (Hx : forall h q, safe R (fun _ => True) (execute P U h q)).
  { intros h q. apply execute_safe; auto. intros w d d'. apply R_exec. }
  repeat first [ apply Hx | safety_step ]; auto.
Qed.

Lemma remoteStage_safe db text from to matched :
  safe R (fun _ => True) (remoteStage P U C db text from to matched).
Proof.
  unfold remoteStage.
  pose proof (hostCall_safe U R (fun _ => True) R_refl R_trans) as Hc.
  pose proof writeBack_safe as Hw.
  repeat first [ apply Hc | apply Hw | safety_step ]; auto.
Qed.

Lemma translateBody_safe text from to :
  safe R (fun _ => True) (translateBody P U C text from to).
Proof.
  unfold translateBody, onlineStages.
  apply safe_bind; [exact R_trans | |].
  - apply cacheStage_safe; auto. intros w h d d'. apply R_exec.
  - intros db. apply safe_bind; [exact R_trans | |].
    + apply termResolution_safe; auto. intros w h d d' q _. apply R_exec.
    + intros matched. apply remoteStage_safe.
Qed.

Lemma translate_safe text from to w :
  R w (translate P U C text from to w).1.2.
Proof.
  pose proof (proj1 (translateBody_safe text from to w)) as H.
  unfold translate, storesOf in *.
  now destruct (translateBody P U C text from to w) as [[[v|v|e] w'] ev].
Qed.
End WholeCall.

Lemma termsGrow_refl w : termsGrow w w.
Proof. intros p rows H. exists []. rewrite app_nil_r. auto. Qed.

Lemma termsGrow_trans w1 w2 w3 :
  termsGrow w1 w2 -> termsGrow w2 w3 -> termsGrow w1 w3.
Proof.
  intros H1 H2 p rows Hr.
  destruct (H1 p rows Hr) as (e1 & Hr1 & F1).
  destruct (H2 p _ Hr1) as (e2 & Hr2 & F2).
  exists (e1 ++ e2). rewrite app_assoc. split; [exact Hr2|].
  apply Forall_app; auto.
Qed.

Lemma termsGrow_new w p :
  w !! p = None -> termsGrow w (<[p := emptyDatabase]> w).
Proof.
  intros Hp q rows Hr. exists []. rewrite app_nil_r. split; [|constructor].
  destruct (decide (p = q)) as [->|Hne].
  - rewrite Hp in Hr. discriminate.
  - now rewrite lookup_insert_ne.
Qed.

Lemma runExecute_termsGrow (P : Platform) q d d' rows :
  runExecute P q d = Some d' -> terms d = Some rows ->
  exists extra, terms d' = Some (rows ++ extra)
                /\ Forall (fun r => case_sensitive r = 0%Z) extra.
Proof.
  intros Hx Hr.
  assert (Hsame : terms d' = terms d ->
                  exists extra, terms d' = Some (rows ++ extra)
                                /\ Forall (fun r => case_sensitive r = 0%Z) extra).
  { intros ->. exists []. rewrite app_nil_r. auto. }
  destruct q; cbn in Hx.
  - injection Hx as <-. now apply Hsame.
  - injection Hx as <-. now apply Hsame.
  - destruct (translations d); [|discriminate]. injection Hx as <-.
    now apply Hsame.
  - injection Hx as <-. apply Hsame. cbn. now rewrite Hr.
  - rewrite Hr in Hx. cbn in Hx.
    destruct (textOf P src) as [s|]; [|discriminate].
    destruct (textOf P tgt) as [t|]; [|discriminate]. cbn in Hx.
    destruct (hasSource s rows); injection Hx as <-.
    + now apply Hsame.
    + eexists. split; [reflexivity|]. repeat constructor.
  - injection Hx as <-. now apply Hsame.
Qed.

Lemma termsGrow_store (P : Platform) w h q d d' :
  w !! h = Some d -> runExecute P q d = Some d' ->
  termsGrow w (<[h := d']> w).
Proof.
  intros Hh Hx p rows Hr. destruct (decide (h = p)) as [->|Hne].
  - rewrite lookup_insert_eq. rewrite Hh in Hr. cbn in *.
    eapply runExecute_termsGrow; eauto.
  - rewrite lookup_insert_ne by exact Hne. exists [].
    rewrite app_nil_r. auto.
Qed.

(** X5. One call of [translate] leaves every row of every [terms] table
    in place: a table that exists before the call exists after it with
    the same rows first, in the same order; what the call adds comes
    after them and has the default case sensitivity. *)
Theorem translate_terms_append_only (P : Platform) (U : Utils) (C : Config)
    (text from to : list N) (w : gmap (list N) database) :
  termsGrow w (translate P U C text from to w).1.2.
Proof.
  apply translate_safe.
  - exact termsGrow_refl.
  - exact termsGrow_trans.
  - exact termsGrow_new.
  - intros w0 h q d d'. apply termsGrow_store.
Qed.

Section CacheFrame.
Context (P : Platform) (U : Utils) (C : Config).

(** What the write-back does to the rows of the [translations] tables. *)
Lemma writeBack_rows db text from to t w :
  let '(_, w', ev) := writeBack P U db text from to t w in
  forall path,
    cachedRows w' path = cachedRows w path
    \/ (t <> []
        /\ In (Called (Execute path (UpsertTranslation text from to t))) ev
        /\ In (Logged Info CacheStored) ev
        /\ cachedRows w' path = <[(text, from, to) := t]> (cachedRows w path)).
Proof.
  unfold writeBack. destruct db as [h|]; [|now left].
  destruct t as [|c t]; [now left|]. cbn [isEmpty negb].
  unfold try_catch. rewrite bind_unfold.
  destruct (fails U (Execute h (UpsertTranslation text from to (c :: t)))) eqn:Hf.
  - rewrite (execute_rejected P U _ _ w Hf). cbn. now left.
  - unfold execute. rewrite (bind_normal _ _ _ _ _ _ (hostCall_ok U _ w Hf)).
    rewrite get_bind.
    destruct (w !! h) as [d|] eqn:Hd; cbn; [|now left].
    destruct (translations d) as [m|] eqn:Hm; cbn; [|now left].
    intros path. destruct (decide (h = path)) as [<-|Hne].
    + right. split; [discriminate|]. split; [now left|].
      split; [right; now left|].
      unfold cachedRows. rewrite lookup_insert_eq, Hd. cbn. now rewrite Hm.
    + left. unfold cachedRows. now rewrite lookup_insert_ne.
Qed.
End CacheFrame.

Section Returns.
Context (text from to : list N).

Lemma returnsCached_noReturn {A} (m : M A) :
  noReturn m -> returnsCached text from to m.
Proof. intros H w v Hv. now destruct (H w v). Qed.

Lemma returnsCached_bind {A B} (m : M A) (k : A -> M B) :
  returnsCached text from to m -> (forall a, returnsCached text from to (k a)) ->
  returnsCached text from to (m ≫= k).
Proof.
  intros Hm Hk w v. unfold outcomeOf, storesOf. rewrite bind_unfold.
  specialize (Hm w). unfold outcomeOf, storesOf in Hm.
  destruct (m w) as [[[a|v'|e] w'] ev]; simpl in *.
  - specialize (Hk a w' v). unfold outcomeOf, storesOf in Hk.
    destruct (k a w') as [[o w''] ev']; simpl in *. exact Hk.
  - intros [= <-]. exact (Hm v' eq_refl).
  - discriminate.
Qed.

Lemma returnsCached_try_catch {A} (m : M A) h :
  returnsCached text from to m -> (forall e, returnsCached text from to (h e)) ->
  returnsCached text from to (try_catch m h).
Proof.
  intros Hm Hh w v. unfold outcomeOf, storesOf, try_catch.
  specialize (Hm w). unfold outcomeOf, storesOf in Hm.
  destruct (m w) as [[[a|v'|e] w'] ev]; simpl in *.
  - discriminate.
  - intros [= <-]. exact (Hm v' eq_refl).
  - specialize (Hh e w' v). unfold outcomeOf, storesOf in Hh.
    destruct (h e w') as [[o w''] ev']; simpl in *. exact Hh.
Qed.
End Returns.

Section CacheRows.
Context (P : Platform) (U : Utils) (C : Config).

Lemma cacheStage_returnsCached text from to :
  returnsCached text from to (cacheStage P U C text from to).
Proof.
  unfold cacheStage.
  destruct (isSet (databaseFile C));
    [|apply returnsCached_noReturn; shape].
  apply returnsCached_bind.
  - apply returnsCached_noReturn.
    pose proof (resolvePath_noReturn U) as H1.
    pose proof (Database_load_noReturn U) as H2.
    repeat first [ apply H1 | apply H2 | progress shape ].
  - intros [h|]; [|apply returnsCached_noReturn; shape].
    apply returnsCached_bind; [|intros; apply returnsCached_noReturn; shape].
    apply returnsCached_try_catch; [|intros; apply returnsCached_noReturn; shape].
    apply returnsCached_bind; [apply returnsCached_noReturn, execute_noReturn|].
    intros _. destruct (negb (forceOnlineBool C));
      [|apply returnsCached_noReturn; shape].
    intros w v. unfold outcomeOf, storesOf, selectTranslation.
    rewrite bind_unfold. rewrite bind_unfold. unfold hostCall. rewrite bind_unfold. cbn.
    destruct (fails U _); cbn; [discriminate|].
    rewrite get_bind.
    cbv beta. destruct (w !! h ≫= _) as [m|] eqn:Hm; cbn; [|discriminate].
    destruct (m !! (text, from, to)) as [c|] eqn:Hc; cbn; [|discriminate].
    intros [= <-]. exists h. unfold cached, cachedRows. unfold info. rewrite emit_bind. cbn.
    rewrite Hm. exact Hc.
Qed.

(** The outcome of a call and the rows it leaves in the [translations]
    tables: a hit hands back a cached row; a remote call hands back a
    normalised text or fails; only a normalised text that is not empty
    is written, under the key of the request. *)
Lemma translateBody_rows text from to w :
  let '(o, w', ev) := translateBody P U C text from to w in
  (exists c h,
      o = Return c /\ cached w h text from to = Some c
      /\ sameCachedRows w w')
  \/ (exists e, o = Throw e /\ sameCachedRows w w')
  \/ (exists t result,
         o = Return t /\ normalize P result = Some t
         /\ forall path,
             cachedRows w' path = cachedRows w path
             \/ (t <> []
                 /\ In (Called (Execute path (UpsertTranslation text from to t))) ev
                 /\ In (Logged Info CacheStored) ev
                 /\ cachedRows w' path
                    = <[(text, from, to) := t]> (cachedRows w path))).
Proof.
  pose proof (cacheStage_rows P U C text from to w) as Hrows.
  pose proof (cacheStage_returnsCached text from to w) as Hret.
  destruct (translateBody_cases P U C text from to w)
    as [(c & w1 & ev1 & Hc & -> & Hq & Hin)
       |(db & w1 & ev1 & matched & w2 & ev2 & Hc & Hq1 & _ & Hq2 & Hsame & _ & ->)];
    rewrite Hc in Hrows, Hret; unfold storesOf, outcomeOf in Hrows, Hret;
    simpl in Hrows, Hret.
  - left. destruct (Hret c eq_refl) as (h & Hh). exists c, h.
    split; [reflexivity|]. split; [|exact Hrows].
    unfold cached in *. now rewrite <- Hrows.
  - assert (H12 : sameCachedRows w w2).
    { eapply sameCachedRows_trans; [exact Hrows|].
      now apply sameTranslations_rows. }
    rewrite (remoteStage_eq P U C db text from to matched w2). cbv zeta.
    destruct (fails U _).
    { right. left. eauto. }
    destruct (ok _).
    2:{ right. left. eauto. }
    destruct (normalize P _) as [t|] eqn:Hn.
    2:{ right. left. eauto. }
    pose proof (writeBack_rows P U db text from to t w2) as Hw.
    destruct (writeBack P U db text from to t w2) as [[o w3] ev3].
    right. right. exists t. eexists. split; [reflexivity|].
    split; [exact Hn|]. intros path.
    destruct (Hw path) as [E|(Ht & Hin & Hst & E)].
    + left. now rewrite E.
    + right. split; [exact Ht|]. rewrite E, H12.
      repeat split; apply in_or_app; right; apply in_or_app; right;
        right; right; assumption.
Qed.
End CacheRows.

Lemma trimStart_fixed (t : list N) :
  notWhiteSpace (head t) -> trimStart t = t.
Proof.
  destruct t as [|c t]; [reflexivity|]. unfold notWhiteSpace. simpl.
  now intros ->.
Qed.

Lemma head_rev (t : list N) : head (rev t) = last t.
Proof.
  induction t as [|x l _] using rev_ind; [reflexivity|].
  now rewrite rev_app_distr, last_snoc.
Qed.

Lemma trim_fixed (t : list N) :
  notWhiteSpace (head t) -> notWhiteSpace (last t) -> trim t = t.
Proof.
  intros Hh Hl. unfold trim, trimEnd. rewrite (trimStart_fixed t Hh).
  rewrite trimStart_fixed; [apply rev_involutive|]. now rewrite head_rev.
Qed.

Lemma trim_idempotent (s : list N) : trim (trim s) = trim s.
Proof.
  destruct (trim_spec s) as (l & r & _ & _ & _ & Hh & Hl).
  now apply trim_fixed.
Qed.

Lemma normalize_trimmed (P : Platform) result t :
  normalize P result = Some t -> trim t = t.
Proof.
  unfold normalize. destruct (contentOrEmpty result); try discriminate.
  intros [= <-]. apply trim_idempotent.
Qed.

(** X1. The rows of every [translations] table after a call are the rows
    before it, except that the table the cache write went to has the
    key of the request set to the text the call returned, which is not
    empty. In particular a call that fails, and a call that returns the
    empty string, leave every cached row as it was, and no key other
    than (text, from, to) is ever written. *)
Theorem translate_cache_coherent (P : Platform) (U : Utils) (C : Config)
    (text from to : list N) (w : gmap (list N) database) :
  let '(r, w', ev) := translate P U C text from to w in
  forall path,
    cachedRows w' path = cachedRows w path
    \/ exists t,
        r = Ok t /\ t <> []
        /\ In (Called (Execute path (UpsertTranslation text from to t))) ev
        /\ cachedRows w' path = <[(text, from, to) := t]> (cachedRows w path).
Proof.
  unfold translate.
  pose proof (translateBody_rows P U C text from to w) as H.
  destruct (translateBody P U C text from to w) as [[o w'] ev].
  destruct H as [(c & h & -> & _ & Hs)|[(e & -> & Hs)|(t & res & -> & _ & Hw)]].
  - intros path. left. apply Hs.
  - intros path. left. apply Hs.
  - intros path. destruct (Hw path) as [E|(Ht & Hin & _ & E)]; [now left|].
    right. exists t. auto.
Qed.

(** X2. A cache that holds no empty text and only texts that [trim]
    leaves unchanged stays so across a call, and over such a cache the
    text a call returns is one that [trim] leaves unchanged: it has no
    white space at either end. *)
Theorem translate_keeps_cache_clean (P : Platform) (U : Utils) (C : Config)
    (text from to : list N) (w : gmap (list N) database) :
  cleanCache w ->
  let '(r, w', _) := translate P U C text from to w in
  cleanCache w' /\ forall t, r = Ok t -> trim t = t.
Proof.
  intros Hclean. unfold translate.
  pose proof (translateBody_rows P U C text from to w) as H.
  destruct (translateBody P U C text from to w) as [[o w'] ev].
  assert (Hsame : sameCachedRows w w' -> cleanCache w').
  { intros Hs path key v Hv. rewrite Hs in Hv. eauto. }
  destruct H as [(c & h & -> & Hc & Hs)|[(e & -> & Hs)|(t & res & -> & Hn & Hw)]].
  - split; [auto|]. intros t [= <-]. exact (proj2 (Hclean h _ c Hc)).
  - split; [auto|]. discriminate.
  - split.
    + intros path key v Hv.
      destruct (Hw path) as [E|(Ht & _ & _ & E)]; rewrite E in Hv; [eauto|].
      destruct (decide ((text, from, to) = key)) as [<-|Hne].
      * rewrite lookup_insert_eq in Hv. injection Hv as <-.
        split; [exact Ht | exact (normalize_trimmed P res t Hn)].
      * rewrite lookup_insert_ne in Hv by exact Hne. eauto.
    + intros t' [= <-]. exact (normalize_trimmed P res t Hn).
Qed.

Lemma translate_keeps_cache_clean_witness :
  let '(r, w', _) :=
    translate plainPlatform (exampleUtils (chat (lit " hi ")) rejectsNothing)
      exampleConfig (lit "a") (lit "en") (lit "zh") ∅ in
  cleanCache w' /\ forall t, r = Ok t -> trim t = t.
Proof.
  apply (translate_keeps_cache_clean plainPlatform
           (exampleUtils (chat (lit " hi ")) rejectsNothing) exampleConfig
           (lit "a") (lit "en") (lit "zh") ∅).
  intros path key v H. unfold cachedRows in H.
  rewrite lookup_empty in H. discriminate H.
Defined.

Section WriteBack.
Context (P : Platform) (U : Utils) (C : Config).

(** The write-back, case by case. *)
Lemma writeBack_cases db text from to t w :
  writeBack P U db text from to t w = (Normal tt, w, [])
    /\ (db = None \/ t = [])
  \/ exists h,
      db = Some h /\ t <> []
      /\ let c := Execute h (UpsertTranslation text from to t) in
         (exists d m,
             fails U c = false
             /\ w !! h = Some d /\ translations d = Some m
             /\ writeBack P U db text from to t w
                = (Normal tt,
                   <[h := {| translations := Some (<[(text, from, to) := t]> m);
                             terms := terms d |}]> w,
                   [Called c; Logged Info CacheStored]))
         \/ ((fails U c = true \/ w !! h ≫= translations = None)
             /\ writeBack P U db text from to t w
                = (Normal tt, w,
                   [Called c; Logged Warn (CacheWriteFailed (Rejected c))])).
Proof.
  destruct db as [h|]; [|left; split; [reflexivity | now left]].
  destruct t as [|x t]; [left; split; [reflexivity | now right]|].
  right. exists h. split; [reflexivity|]. split; [discriminate|].
  cbv zeta.
  destruct (fails U (Execute h (UpsertTranslation text from to (x :: t)))) eqn:Hf.
  - right. split; [now left|]. unfold writeBack. cbn [isEmpty negb].
    unfold try_catch. rewrite bind_unfold.
    now rewrite (execute_rejected P U _ _ w Hf).
  - destruct (w !! h) as [d|] eqn:Hd.
    + destruct (translations d) as [m|] eqn:Hm.
      * left. exists d, m. split; [reflexivity|]. split; [reflexivity|].
        split; [exact Hm|].
        apply (writeBack_ok P U h text from to (x :: t) w d m);
          [discriminate | exact Hf | exact Hd | exact Hm].
      * right. split; [right; cbn; exact Hm|].
        unfold writeBack. cbn [isEmpty negb].
        unfold try_catch. rewrite bind_unfold. unfold execute.
        rewrite (bind_normal _ _ _ _ _ _ (hostCall_ok U _ w Hf)).
        rewrite get_bind, Hd. cbn. rewrite Hm. reflexivity.
    + right. split; [right; reflexivity|].
      unfold writeBack. cbn [isEmpty negb].
      unfold try_catch. rewrite bind_unfold. unfold execute.
      rewrite (bind_normal _ _ _ _ _ _ (hostCall_ok U _ w Hf)).
      rewrite get_bind, Hd. reflexivity.
Qed.

Lemma writeBack_sameTerms db text from to t w :
  sameTerms w (storesOf (writeBack P U db text from to t w)).
Proof.
  destruct (writeBack_cases db text from to t w)
    as [[-> _]|(h & _ & _ & [(d & m & _ & Hd & _ & ->)|[_ ->]])];
    unfold storesOf; cbn; try (intros p; reflexivity).
  intros p. destruct (decide (h = p)) as [<-|Hne].
  - now rewrite lookup_insert_eq, Hd.
  - now rewrite lookup_insert_ne.
Qed.

Lemma remoteStage_sameTerms db text from to matched w :
  sameTerms w (storesOf (remoteStage P U C db text from to matched w)).
Proof.
  rewrite remoteStage_eq. cbv zeta.
  destruct (fails U _); [intros p; reflexivity|].
  destruct (ok _); [|intros p; reflexivity].
  destruct (normalize P _) as [t|]; [|intros p; reflexivity].
  pose proof (writeBack_sameTerms db text from to t w) as H.
  now destruct (writeBack P U db text from to t w) as [[o w'] ev].
Qed.
End WriteBack.

(** X3. When the remote call succeeds and its content normalises to [t],
    the remote stage returns [t] whatever becomes of the cache write.
    With no handle or an empty [t] nothing is written. Otherwise one
    upsert is issued: when it goes through, the key of the request is
    set to [t] and the success is logged; when it is rejected, or the
    store has no [translations] table, the stores are left as they are
    and one warning is logged. *)
Theorem remoteStage_write_back_outcomes (P : Platform) (U : Utils) (C : Config)
    (db : option (list N)) (text from to : list N) (matched : list matchedTerm)
    (w : gmap (list N) database) (t : list N) :
  let req := buildRequest C text from to matched in
  fails U (Fetch req) = false -> ok (fetch U req) = true ->
  normalize P (data (fetch U req)) = Some t ->
  exists w' ev,
    remoteStage P U C db text from to matched w
    = (Return t, w', Called (Fetch req) :: Logged Info OnlineApi :: ev)
    /\ ((w' = w /\ ev = [] /\ (db = None \/ t = []))
        \/ exists h,
            db = Some h /\ t <> []
            /\ let c := Execute h (UpsertTranslation text from to t) in
               (fails U c = false
                /\ cached w' h text from to = Some t
                /\ ev = [Called c; Logged Info CacheStored])
               \/ ((fails U c = true \/ w !! h ≫= translations = None)
                   /\ w' = w
                   /\ ev = [Called c;
                            Logged Warn (CacheWriteFailed (Rejected c))])).
Proof.
  intros req Hf Hok Hn.
  rewrite (remoteStage_eq P U C db text from to matched w). cbv zeta.
  fold req. rewrite Hf, Hok, Hn.
  destruct (writeBack_cases P U db text from to t w)
    as [[-> Hnone]|(h & -> & Ht & [(d & m & Hfc & Hd & Hm & ->)|[Hbad ->]])].
  - eexists _, _. split; [reflexivity|]. left. auto.
  - eexists _, _. split; [reflexivity|]. right. exists h.
    split; [reflexivity|]. split; [exact Ht|]. left.
    split; [exact Hfc|]. split; [|reflexivity].
    unfold cached, cachedRows. rewrite lookup_insert_eq. cbn.
    apply lookup_insert_eq.
  - eexists _, _. split; [reflexivity|]. right. exists h.
    split; [reflexivity|]. split; [exact Ht|]. right. auto.
Qed.

Lemma remoteStage_write_back_outcomes_witness :
  let U := exampleUtils (chat (lit "hi")) rejectsWrite in
  exists w' ev,
    remoteStage plainPlatform U exampleConfig (Some cachePath)
      (lit "a") (lit "en") (lit "zh") [] emptyCache
    = (Return (lit "hi"), w',
       Called (Fetch (buildRequest exampleConfig (lit "a") (lit "en") (lit "zh") []))
       :: Logged Info OnlineApi :: ev)
    /\ ((w' = emptyCache /\ ev = [] /\ (Some cachePath = None \/ lit "hi" = []))
        \/ exists h,
            Some cachePath = Some h /\ lit "hi" <> []
            /\ let c := Execute h (UpsertTranslation (lit "a") (lit "en") (lit "zh")
                                     (lit "hi")) in
               (fails U c = false
                /\ cached w' h (lit "a") (lit "en") (lit "zh") = Some (lit "hi")
                /\ ev = [Called c; Logged Info CacheStored])
               \/ ((fails U c = true \/ emptyCache !! h ≫= translations = None)
                   /\ w' = emptyCache
                   /\ ev = [Called c;
                            Logged Warn (CacheWriteFailed (Rejected c))])).
Proof.
  intros U.
  apply (remoteStage_write_back_outcomes plainPlatform U exampleConfig
           (Some cachePath) (lit "a") (lit "en") (lit "zh") [] emptyCache (lit "hi"));
    reflexivity.
Defined.

Section TermsSent.
Context (P : Platform) (U : Utils) (C : Config).

(** The matcher stage hands back the matches among the rows of the
    store it was given, or nothing; it leaves the stores as they are. *)
Lemma matchStage_result termsDb text w :
  exists matched ev,
    matchStage P U termsDb text w = (Normal matched, w, ev)
    /\ (matched = []
        \/ exists h rows,
            termsDb = Some h /\ w !! h ≫= terms = Some rows
            /\ matched = matchTerms P text rows).
Proof.
  destruct termsDb as [h|]; [|exists [], []; split; [reflexivity | now left]].
  unfold matchStage, try_catch, selectTerms. rewrite bind_unfold.
  destruct (fails U (Select h SelectTerms)) eqn:Hf.
  - rewrite (bind_throw _ _ _ _ _ _ (hostCall_rejected U _ w Hf)).
    eexists _, _. split; [reflexivity | now left].
  - rewrite (bind_normal _ _ _ _ _ _ (hostCall_ok U _ w Hf)).
    rewrite get_bind. cbv beta.
    destruct (w !! h ≫= _) as [rows|] eqn:Hr.
    + eexists _, _. split; [reflexivity|]. right. exists h, rows. auto.
    + eexists _, _. split; [reflexivity | now left].
Qed.

Lemma termResolution_result text w :
  exists matched w2 ev2,
    termResolution P U C text w = (Normal matched, w2, ev2)
    /\ (matched = []
        \/ exists h rows,
            w2 !! h ≫= terms = Some rows /\ matched = matchTerms P text rows).
Proof.
  pose proof (termsStage_noThrow P U C w) as HT.
  pose proof (termsStage_noReturn P U C w) as HR.
  unfold termResolution, outcomeOf in *. rewrite bind_unfold.
  destruct (termsStage P U C w) as [[[termsDb|v|e] w1] ev1]; simpl in *.
  - destruct (matchStage_result termsDb text w1) as (matched & ev & -> & Hm).
    exists matched, w1, (ev1 ++ ev). split; [reflexivity|].
    destruct Hm as [->|(h & rows & _ & Hr & ->)]; [now left|].
    right. eauto.
  - now destruct (HR v).
  - now destruct (HT e).
Qed.
End TermsSent.

(** Every remote call of a call of [translate] is made for the request
    built from the matched terms, which are none or the matches among
    the rows of a [terms] table as the call leaves it. *)
Lemma translate_fetch_request (P : Platform) (U : Utils) (C : Config)
    (text from to : list N) (w : gmap (list N) database) :
  let '(_, w', ev) := translate P U C text from to w in
  forall req,
    In (Called (Fetch req)) ev ->
    exists matched,
      req = buildRequest C text from to matched
      /\ (matched = []
          \/ exists h rows,
              w' !! h ≫= terms = Some rows /\ matched = matchTerms P text rows).
Proof.
  unfold translate.
  destruct (translateBody_cases P U C text from to w)
    as [(c & w1 & ev1 & _ & -> & Hq & _)
       |(db & w1 & ev1 & matched & w2 & ev2 & _ & Hq1 & Hterm & Hq2 & _ & _ & ->)].
  - intros req Hin. now destruct (quietEvents_no_fetch _ req Hq).
  - destruct (termResolution_result P U C text w1)
      as (matched' & w2' & ev2' & Hterm' & Hm).
    rewrite Hterm in Hterm'. injection Hterm' as <- <- <-.
    pose proof (remoteStage_sameTerms P U C db text from to matched w2) as Hsame.
    destruct (remoteStage_events P U C db text from to matched w2)
      as (ev3' & Hev & Hno).
    destruct (remoteStage P U C db text from to matched w2) as [[o w3] ev3].
    unfold storesOf, eventsOf in *. simpl in Hsame, Hev. subst ev3.
    assert (Hall : forall req,
               In (Called (Fetch req))
                 (ev1 ++ ev2 ++ Called (Fetch (buildRequest C text from to matched)) :: ev3') ->
               exists matched0,
                 req = buildRequest C text from to matched0
                 /\ (matched0 = []
                     \/ exists h rows,
                         w3 !! h ≫= terms = Some rows
                         /\ matched0 = matchTerms P text rows)).
    { intros req Hin.
      apply in_app_or in Hin as [Hin|Hin];
        [now destruct (quietEvents_no_fetch _ req Hq1)|].
      apply in_app_or in Hin as [Hin|Hin];
        [now destruct (quietEvents_no_fetch _ req (termEvents_quiet _ Hq2))|].
      destruct Hin as [[= <-]|Hin]; [|now destruct (remoteCalls_no_fetch _ req Hno)].
      exists matched. split; [reflexivity|].
      destruct Hm as [->|(h & rows & Hr & ->)]; [now left|].
      right. exists h, rows. now rewrite Hsame. }
    destruct o; exact Hall.
Qed.

(** X8. The terms a remote call carries are the rows of a [terms] table
    (as the call leaves it) that the matcher accepts for the text, in
    table order, each reduced to source and target; when there is none
    the request has no [terms] field: an empty list is never sent. *)
Theorem translate_sends_matching_terms (P : Platform) (U : Utils) (C : Config)
    (text from to : list N) (w : gmap (list N) database) :
  let '(_, w', ev) := translate P U C text from to w in
  forall req,
    In (Called (Fetch req)) ev ->
    req_terms req = None
    \/ exists h rows,
        w' !! h ≫= terms = Some rows
        /\ List.filter (isMatch P text) rows <> []
        /\ req_terms req
           = Some (map projectTerm (List.filter (isMatch P text) rows)).
Proof.
  pose proof (translate_fetch_request P U C text from to w) as H.
  destruct (translate P U C text from to w) as [[r w'] ev].
  intros req Hin. destruct (H req Hin) as (matched & -> & Hm).
  destruct Hm as [->|(h & rows & Hr & ->)]; [now left|].
  assert (E0 : matchTerms P text rows
               = map projectTerm (List.filter (isMatch P text) rows))
    by exact (matchTerms_acc P text rows []).
  rewrite E0. cbn [req_terms buildRequest].
  destruct (List.filter (isMatch P text) rows) as [|t ts] eqn:E; [now left|].
  right. exists h, rows. rewrite E. repeat split; [exact Hr | discriminate].
Qed.

(** X9. What every remote call of [translate] carries, whatever the
    configuration and the stores: the fixed endpoint, the text as the
    content, the two languages, the bearer key, the configured model or
    the default one, a temperature that is neither NaN nor zero, and
    domains only when they are not empty. *)
Theorem translate_request_invariants (P : Platform) (U : Utils) (C : Config)
    (text from to : list N) (w : gmap (list N) database) :
  let '(_, _, ev) := translate P U C text from to w in
  forall req,
    In (Called (Fetch req)) ev ->
    url req = lit "https://dashscope.aliyuncs.com/compatible-mode/v1/chat/completions"
    /\ req_content req = text /\ source_lang req = from /\ target_lang req = to
    /\ authorization req = lit "Bearer " ++ showOpt "undefined" (apiKey C)
    /\ (req_model req = lit "qwen-mt-flash" \/ model C = Some (req_model req))
    /\ numberTruthy (req_temperature req) = true
    /\ (req_temperature req = parseFloatOpt (temperature C)
        \/ req_temperature req = defaultTemperature)
    /\ req_domains req <> Some []
    /\ (req_domains req = None \/ req_domains req = domains C).
Proof.
  pose proof (translate_fetch_request P U C text from to w) as H.
  destruct (translate P U C text from to w) as [[r w'] ev].
  intros req Hin. destruct (H req Hin) as (matched & -> & _).
  cbn [url req_content source_lang target_lang authorization req_model
       req_temperature req_domains buildRequest].
  repeat split.
  - destruct (model C); cbn; auto.
  - unfold temperatureOf.
    destruct (numberTruthy (parseFloatOpt (temperature C))) eqn:E;
      [exact E | reflexivity].
  - unfold temperatureOf.
    destruct (numberTruthy (parseFloatOpt (temperature C))); auto.
  - destruct (domains C) as [[|c d]|]; discriminate.
  - destruct (domains C) as [[|c d]|]; auto.
Qed.

Lemma trimStart_blank (f : list N) :
  trimStart f = [] <-> forallb isWhiteSpace f = true.
Proof.
  induction f as [|c f IH]; simpl; [tauto|].
  destruct (isWhiteSpace c); simpl; [exact IH|]. split; discriminate.
Qed.

Lemma trim_blank (f : list N) : trim f = [] <-> forallb isWhiteSpace f = true.
Proof.
  rewrite <- trimStart_blank. unfold trim, trimEnd. split.
  - intros H. destruct (trimStart_spec f) as (l & _ & _ & Hh).
    destruct (trimStart f) as [|c t] eqn:E; [reflexivity|]. exfalso.
    assert (Hr : trimStart (rev (c :: t)) = []).
    { apply (f_equal (@rev N)) in H. now rewrite rev_involutive in H. }
    apply trimStart_blank in Hr. rewrite forallb_forall in Hr.
    simpl in Hh. rewrite (Hr c) in Hh; [discriminate|].
    apply in_rev. rewrite rev_involutive. now left.
  - now intros ->.
Qed.

Lemma isSet_blank (name : option (list N)) : isSet name = false <-> blank name.
Proof.
  unfold isSet, blank. destruct name as [f|]; [|split; [discriminate | reflexivity]].
  split.
  - intros H s [= <-]. destruct f as [|c f]; [reflexivity|].
    cbn [isEmpty negb andb] in H. apply trim_blank.
    destruct (trim (c :: f)); [reflexivity | discriminate H].
  - intros H. specialize (H f eq_refl). apply trim_blank in H.
    rewrite H. now destruct f.
Qed.

(** X6. A cache file name that is not set, empty or made of white space
    only switches the cache off: the call is the call made with no cache
    file configured. A term file name of that kind switches the term
    store off: no term is matched, no store is touched and no host call
    is made to resolve terms. *)
Theorem blank_names_switch_stores_off (P : Platform) (U : Utils) (C : Config)
    (text from to : list N) (w : gmap (list N) database) :
  (blank (databaseFile C) ->
   translate P U C text from to w = translate P U (noCache C) text from to w)
  /\ (blank (termsFile C) ->
      termResolution P U C text w = (Normal [], w, [])
      /\ translate P U C text from to w = translate P U (noTerms C) text from to w).
Proof.
  split.
  - intros H. apply isSet_blank in H.
    rewrite (translate_online P U C text from to w None w []
               (cacheStage_unset P U C text from to w H)).
    rewrite translate_noCache.
    now destruct (onlineStages P U C None text from to w) as [[o w'] ev].
  - intros H. apply isSet_blank in H.
    assert (Ht : forall w0, termResolution P U C text w0 = (Normal [], w0, [])).
    { intros w0. unfold termResolution, termsStage. now rewrite H. }
    split; [apply Ht|].
    unfold translate, translateBody.
    change (cacheStage P U (noTerms C)) with (cacheStage P U C).
    rewrite !bind_unfold.
    destruct (cacheStage P U C text from to w) as [[[db|v|e] w1] ev1];
      [|reflexivity..].
    unfold onlineStages. rewrite !bind_unfold, Ht.
    change (termResolution P U (noTerms C) text w1) with (Normal (@nil matchedTerm), w1, @nil event).
    reflexivity.
Qed.

Lemma blank_names_switch_stores_off_witness :
  let C := {| model := None; apiKey := None; domains := None; temperature := None;
              termsFile := Some (lit "  "); databaseFile := Some [32; 9];
              forceOnline := None |} in
  let U := exampleUtils (chat (lit "hi")) rejectsNothing in
  translate plainPlatform U C (lit "a") (lit "en") (lit "zh") ∅
  = translate plainPlatform U (noCache C) (lit "a") (lit "en") (lit "zh") ∅.
Proof.
  intros C U.
  apply (proj1 (blank_names_switch_stores_off plainPlatform U C
                  (lit "a") (lit "en") (lit "zh") ∅)).
  intros f [= <-]. reflexivity.
Defined.

Section CaseTable.
Context (P P' : Platform).
Context (Hupper : forall c, unicodeUpper P c = unicodeUpper P' c).

Lemma canonicalize_ext ic c : canonicalize P ic c = canonicalize P' ic c.
Proof. unfold canonicalize, upperUnit. now rewrite Hupper. Qed.

Lemma matchAtoms_ext ic a :
  forall prev rest, matchAtoms P ic a prev rest = matchAtoms P' ic a prev rest.
Proof.
  induction a as [|[|c] a IH]; intros prev rest; cbn [matchAtoms].
  - reflexivity.
  - now rewrite IH.
  - destruct rest as [|d rest]; [reflexivity|].
    now rewrite !canonicalize_ext, IH.
Qed.

Lemma searchFrom_ext ic a :
  forall rest prev, searchFrom P ic a prev rest = searchFrom P' ic a prev rest.
Proof.
  induction rest as [|d rest IH]; intros prev; cbn [searchFrom];
    rewrite matchAtoms_ext; [reflexivity|].
  now rewrite IH.
Qed.
End CaseTable.

(** X7. Escaping makes every spelling a literal: the escaped spelling
    parses back to the units of the spelling, one literal each, so the
    pattern built around it always compiles, to the spelling between two
    word boundaries. The fallback on [includes] is never taken: what the
    matcher answers does not depend on [toLowerCase], only on the case
    table the regex uses. *)
Theorem escaped_pattern_always_compiles (src : list N) (caseSensitive : bool) :
  parsePattern (escapeSource src) = Some (map Char src)
  /\ RegExp (lit "\b" ++ escapeSource src ++ lit "\b")
            (if caseSensitive then [] else lit "i")
     = Some {| atoms := WordBoundary :: map Char src ++ [WordBoundary];
               ignoreCase := negb caseSensitive; global := false |}
  /\ forall (P P' : Platform) text t,
      (forall c, unicodeUpper P c = unicodeUpper P' c) ->
      isMatch P text t = isMatch P' text t.
Proof.
  split; [|split].
  - rewrite <- (app_nil_r (escapeSource src)), parsePattern_escapeSource.
    cbn. now rewrite app_nil_r.
  - apply RegExp_wordPattern.
  - intros P P' text t H. rewrite !isMatch_regex. now apply searchFrom_ext.
Qed.

(** X13. The variant that clamps: the temperature it sends is always a
    number of the range [0, 2), never NaN; it is the parsed value
    whenever that value lies in the range, and 0.65 otherwise. Where the
    parsed value lies in the range and is not zero, src/main.js sends the
    same number; where the value is no number, both send 0.65. The
    parsed value is the binary64 the string rounds to: twenty nines after
    "1." round to 2 and give 0.65, "1e-400" rounds to 0, which the
    variant sends and src/main.js replaces by 0.65, and "1e400" is
    Infinity, which src/main.js sends and the variant replaces. *)
Theorem temperatureClamped_range (t : option (list N)) :
  let v := parseFloatOpt t in
  geZero (temperatureClamped t) = true
  /\ ltTwo (temperatureClamped t) = true
  /\ (geZero v = true -> ltTwo v = true -> temperatureClamped t = v)
  /\ (geZero v && ltTwo v = false -> temperatureClamped t = defaultTemperature)
  /\ (geZero v = true -> ltTwo v = true -> numberTruthy v = true ->
      temperatureOf t = temperatureClamped t)
  /\ (isNaN v = true -> temperatureOf t = temperatureClamped t)
  /\ (parseFloat (lit "1.99999999999999999999") = Finite (Qmake 2 1)
      /\ temperatureClamped (Some (lit "1.99999999999999999999"))
         = defaultTemperature)
  /\ (temperatureClamped (Some (lit "1e-400")) = Finite (Qmake 0 1)
      /\ temperatureOf (Some (lit "1e-400")) = defaultTemperature)
  /\ (temperatureOf (Some (lit "1e400")) = Infinity false
      /\ temperatureClamped (Some (lit "1e400")) = defaultTemperature).
Proof.
  intros v.
  assert (Hex : (parseFloat (lit "1.99999999999999999999") = Finite (Qmake 2 1)
                 /\ temperatureClamped (Some (lit "1.99999999999999999999"))
                    = defaultTemperature)
                /\ (temperatureClamped (Some (lit "1e-400")) = Finite (Qmake 0 1)
                    /\ temperatureOf (Some (lit "1e-400")) = defaultTemperature)
                /\ (temperatureOf (Some (lit "1e400")) = Infinity false
                    /\ temperatureClamped (Some (lit "1e400")) = defaultTemperature)).
  { repeat split; vm_compute; reflexivity. }
  assert (Hgen : geZero (temperatureClamped t) = true
    /\ ltTwo (temperatureClamped t) = true
    /\ (geZero v = true -> ltTwo v = true -> temperatureClamped t = v)
    /\ (geZero v && ltTwo v = false -> temperatureClamped t = defaultTemperature)
    /\ (geZero v = true -> ltTwo v = true -> numberTruthy v = true ->
        temperatureOf t = temperatureClamped t)
    /\ (isNaN v = true -> temperatureOf t = temperatureClamped t));
    [|tauto].
  clear Hex. unfold temperatureClamped, temperatureOf. fold v.
  assert (Hnan : isNaN v = true -> geZero v = false).
  { destruct v; try discriminate. reflexivity. }
  destruct t as [[|c s]|].
  - repeat split; try reflexivity; discriminate.
  - destruct (isNaN v) eqn:En; cbn [negb andb].
    + rewrite (Hnan eq_refl). repeat split; try reflexivity; try discriminate.
      destruct v; try discriminate En. reflexivity.
    + destruct (geZero v) eqn:Eg, (ltTwo v) eqn:El; cbn [andb];
        repeat split; try reflexivity; try discriminate; try assumption.
      now intros _ _ ->.
  - repeat split; try reflexivity; discriminate.
Qed.

Lemma insertAll_prefix rows pairs :
  exists extra, insertAll rows pairs = rows ++ extra
                /\ (length extra <= length pairs)%nat.
Proof.
  revert rows. induction pairs as [|[s g] pairs IH]; intros rows.
  - exists []. cbn. rewrite app_nil_r. auto.
  - cbn [insertAll fold_left]. fold (insertAll (if hasSource s rows then rows
                                                 else rows ++ [newRow s g]) pairs).
    destruct (hasSource s rows).
    + destruct (IH rows) as (extra & -> & Hl). exists extra. cbn. split; [auto|lia].
    + destruct (IH (rows ++ [newRow s g])) as (extra & -> & Hl).
      exists (newRow s g :: extra). rewrite <- app_assoc. cbn. split; [auto|lia].
Qed.

Lemma hasSource_true s rows :
  hasSource s rows = true <-> In s (map source rows).
Proof.
  unfold hasSource. rewrite existsb_exists, in_map_iff. split.
  - intros (r & Hr & E). apply bool_decide_eq_true in E. eauto.
  - intros (r & E & Hr). exists r. split; [exact Hr|]. now apply bool_decide_eq_true.
Qed.

Lemma insertAll_keeps rows pairs r : In r rows -> In r (insertAll rows pairs).
Proof.
  intros H. destruct (insertAll_prefix rows pairs) as (extra & -> & _).
  apply in_or_app. now left.
Qed.

(** The first pair of a source that is not in the table yet gives the
    row of that source. *)
Lemma insertAll_first rows pre s g post :
  hasSource s rows = false -> ~ In s (map fst pre) ->
  In (newRow s g) (insertAll rows (pre ++ (s, g) :: post)).
Proof.
  revert rows. induction pre as [|[s' g'] pre IH]; intros rows Hs Hpre.
  - cbn [app insertAll fold_left]. rewrite Hs.
    apply (insertAll_keeps _ post). apply in_or_app. right. now left.
  - cbn [app insertAll fold_left].
    apply IH; [|intros Hin; apply Hpre; now right].
    destruct (hasSource s' rows); [exact Hs|].
    destruct (hasSource s (rows ++ [newRow s' g'])) eqn:E; [|reflexivity].
    apply hasSource_true in E. rewrite map_app in E.
    apply in_app_or in E as [E|[E|[]]].
    + apply hasSource_true in E. congruence.
    + cbn in E. subst s'. exfalso. apply Hpre. now left.
Qed.

Lemma insertAll_complete rows pairs s g :
  In (s, g) pairs -> In s (map source (insertAll rows pairs)).
Proof.
  revert rows. induction pairs as [|[s' g'] pairs IH]; intros rows; [intros []|].
  intros [[= -> ->]|Hin]; cbn [insertAll fold_left].
  - apply in_map_iff.
    destruct (hasSource s rows) eqn:E.
    + apply hasSource_true, in_map_iff in E as (r & Hr & Hin).
      exists r. split; [exact Hr|]. now apply insertAll_keeps.
    + exists (newRow s g). split; [reflexivity|].
      apply insertAll_keeps. apply in_or_app. right. now left.
  - now apply IH.
Qed.

Section MigrationLoop.
Context (P : Platform) (U : Utils).

Lemma member_ok k t w :
  t <> JNull -> member k t w = (Normal (prop k t), w, []).
Proof. intros H. now destruct t. Qed.

(** One turn of the loop for an entry that is not null. *)
Lemma migrate_turn h t rest n w :
  t <> JNull ->
  migrate P U h (t :: rest) n w
  = (n' ← (if candidate t then
             try_catch
               (execute P U h (InsertTermOrIgnore (prop "source" t) (prop "target" t));;
                mret (S n))
               (fun insertErr => mret n)
           else mret n);
     migrate P U h rest n') w.
Proof.
  intros Ht. cbn [migrate]. unfold member, candidate.
  destruct t; try congruence; rewrite !ret_bind; reflexivity.
Qed.

Lemma migrate_run h items :
  Forall (fun t => t <> JNull) items ->
  (forall s g, fails U (Execute h (InsertTermOrIgnore s g)) = false) ->
  forall n w d rows,
    w !! h = Some d -> terms d = Some rows ->
    let pairs := omap (boundPair P) (List.filter candidate items) in
    migrate P U h items n w
    = (Normal (n + length pairs)%nat,
       <[h := {| translations := translations d;
                 terms := Some (insertAll rows pairs) |}]> w,
       map (insertCall h) (List.filter candidate items)).
Proof.
  intros Hitems Hfails.
  induction Hitems as [|t items Ht _ IH]; intros n w d rows Hd Hrows pairs.
  - assert (E : <[h := {| translations := translations d;
                          terms := Some rows |}]> w = w).
    { apply insert_id. rewrite Hd. destruct d as [tr tm]. cbn in *. now subst. }
    subst pairs. cbn.
    rewrite E, Nat.add_0_r. reflexivity.
  - rewrite (migrate_turn h t items n w Ht). subst pairs.
    cbn [List.filter]. destruct (candidate t) eqn:Hc.
    + assert (Eo : omap (boundPair P) (t :: List.filter candidate items)
                   = match boundPair P t with
                     | Some y => y :: omap (boundPair P) (List.filter candidate items)
                     | None => omap (boundPair P) (List.filter candidate items)
                     end) by reflexivity.
      rewrite Eo. clear Eo.
      rewrite bind_unfold. unfold try_catch at 1.
      rewrite bind_unfold. unfold execute at 1.
      rewrite (bind_normal _ _ _ _ _ _ (hostCall_ok U _ w (Hfails _ _))).
      rewrite get_bind, Hd. cbn [mbind option_bind runExecute].
      rewrite Hrows. cbn [mbind option_bind]. unfold boundPair.
      destruct (textOf P (prop "source" t)) as [s|]; cbn [mbind option_bind].
      * destruct (textOf P (prop "target" t)) as [g|]; cbn [mbind option_bind].
        -- set (d' := if hasSource s rows then d
                      else {| translations := translations d;
                              terms := Some (rows ++ [newRow s g]) |}).
           set (rows' := if hasSource s rows then rows else rows ++ [newRow s g]).
           assert (Hd' : <[h := d']> w !! h = Some d') by apply lookup_insert_eq.
           assert (Hrows' : terms d' = Some rows').
           { unfold d', rows'. now destruct (hasSource s rows). }
           assert (Htr : translations d' = translations d).
           { unfold d'. now destruct (hasSource s rows). }
           cbn. fold (newRow s g). fold d'.
           rewrite (IH (S n) _ d' rows' Hd' Hrows').
           rewrite insert_insert_eq, Htr. cbn [length map insertAll fold_left].
           fold rows'. unfold insertCall at 1.
           rewrite Nat.add_succ_r. reflexivity.
        -- cbn. rewrite (IH n w d rows Hd Hrows). reflexivity.
      * cbn. rewrite (IH n w d rows Hd Hrows). reflexivity.
    + rewrite ret_bind. apply IH; assumption.
Qed.

(** A [null] entry stops the loop with a TypeError, whatever the
    inserts before it did. *)
Lemma migrate_null h items :
  In JNull items ->
  forall n w, exists w' ev,
    migrate P U h items n w = (Throw TypeError, w', ev).
Proof.
  induction items as [|t items IH]; [intros []|]. intros Hin n w.
  assert (Hcase : t = JNull \/ t <> JNull)
    by (destruct t; (now left) || (right; discriminate)).
  destruct Hcase as [->|Ht].
  - exists w, []. reflexivity.
  - destruct Hin as [->|Hin]; [congruence|].
    rewrite (migrate_turn h t items n w Ht). rewrite bind_unfold.
    set (step := if candidate t then _ else _).
    assert (HT : noThrow step).
    { unfold step. shape. }
    assert (HR : noReturn step).
    { unfold step. pose proof (execute_noReturn P U h) as Hx.
      repeat first [ apply Hx | progress shape ]. }
    specialize (HT w). specialize (HR w). unfold outcomeOf in *.
    destruct (step w) as [[[n'|v|e] w1] ev1]; simpl in *.
    + destruct (IH Hin n' w1) as (w' & ev & ->). eauto.
    + now destruct (HR v).
    + now destruct (HT e).
Qed.
End MigrationLoop.

Lemma insertAll_NoDup rows pairs :
  NoDup (map source rows) -> NoDup (map source (insertAll rows pairs)).
Proof.
  revert rows. induction pairs as [|[s g] pairs IH]; intros rows H; [exact H|].
  cbn [insertAll fold_left]. apply IH.
  destruct (hasSource s rows) eqn:E; [exact H|].
  rewrite map_app. apply NoDup_app. repeat split.
  - exact H.
  - intros x Hx ->%list_elem_of_singleton.
    apply (hasSource_In _ _ E). now apply list_elem_of_In.
  - apply NoDup_singleton.
Qed.

(** X10. The migration loop over a legacy array without [null], on a
    store that has a [terms] table and rejects no insert: one insert is
    issued for every entry whose source and target are truthy, in array
    order; the count it reports is the number of those the driver could
    bind, repeated sources included; the table keeps its rows and gains,
    after them, one row for each new source, with the target of the
    first entry that names it; every bound source is in the table
    afterwards, and sources stay unique. *)
Theorem migration_inserts_or_ignores (P : Platform) (U : Utils) (h : list N)
    (items : list json) (n : nat) (w : gmap (list N) database) (d : database)
    (rows : list term) :
  Forall (fun t => t <> JNull) items ->
  (forall s g, fails U (Execute h (InsertTermOrIgnore s g)) = false) ->
  w !! h = Some d -> terms d = Some rows ->
  let pairs := omap (boundPair P) (List.filter candidate items) in
  exists rows',
    migrate P U h items n w
    = (Normal (n + length pairs)%nat,
       <[h := {| translations := translations d; terms := Some rows' |}]> w,
       map (insertCall h) (List.filter candidate items))
    /\ rows' = insertAll rows pairs
    /\ (exists extra, rows' = rows ++ extra /\ (length extra <= length pairs)%nat)
    /\ (forall s g, In (s, g) pairs -> In s (map source rows'))
    /\ (forall pre s g post,
           pairs = pre ++ (s, g) :: post ->
           hasSource s rows = false -> ~ In s (map fst pre) ->
           In (newRow s g) rows')
    /\ (NoDup (map source rows) -> NoDup (map source rows')).
Proof.
  intros Hitems Hfails Hd Hrows pairs. exists (insertAll rows pairs).
  split; [exact (migrate_run P U h items Hitems Hfails n w d rows Hd Hrows)|].
  split; [reflexivity|]. split; [apply insertAll_prefix|].
  split; [intros s g; apply insertAll_complete|]. split.
  - intros pre s g post ->. apply insertAll_first.
  - apply insertAll_NoDup.
Qed.

Lemma migration_inserts_or_ignores_witness :
  let h := lit "/cache/terms.db" in
  let U := exampleUtils (chat (lit "hi")) rejectsNothing in
  migrate plainPlatform U h repeatedCPU O emptyTerms
  = (Normal 2%nat,
     <[h := {| translations := None;
               terms := Some [newRow (lit "CPU") (lit "a")] |}]> emptyTerms,
     [insertCall h (entry (lit "CPU") (lit "a"));
      insertCall h (entry (lit "CPU") (lit "b"))]).
Proof.
  intros h U.
  destruct (migration_inserts_or_ignores plainPlatform U h repeatedCPU O emptyTerms
              {| translations := None; terms := Some [] |} [])
    as (rows' & Hrun & -> & _).
  - repeat constructor; discriminate.
  - reflexivity.
  - reflexivity.
  - reflexivity.
  - exact Hrun.
Defined.

Section NullEntry.
Context (P : Platform) (U : Utils) (C : Config).
Context (path content : list N) (items : list json).
Context (Hset : isSet (termsFile C) = true).
Context (Hres : resolved U (termsFile C) = Normal (Some path)).
Context (Hfile : files U !! path = Some content).
Context (Hparse : JSON_parse P content = Some (JArr items)).
Context (Hnull : In JNull items).
Context (Hexists : fails U (Exists (Some path)) = false).
Context (Hread : fails U (ReadTextFile (Some path)) = false).
Context (Hload : fails U (DatabaseLoad (lit "sqlite:" ++ path)) = false).
Context (Hcreate : fails U (Execute path CreateTerms) = false).

Lemma termsStage_null w :
  exists w' ev,
    termsStage P U C w
    = (Normal None, w', ev ++ [Logged Warn (TermsInitFailed TypeError)]).
Proof.
  assert (A1 : try_catch (exists_ U (Some path))
                 (fun e => warn (TermsCheckFailed e);; mret false) w
               = (Normal true, w, [Called (Exists (Some path))])).
  { apply try_catch_normal. rewrite (exists_ok _ _ _ Hexists), Hfile.
    reflexivity. }
  assert (A2 : try_catch
                 (fileContent ← readTextFile U (Some path);
                  parsed ← parseJSON P fileContent;
                  match parsed with
                  | JArr items =>
                      info (JsonTermsDetected (length items));;
                      mret (true, items)
                  | _ => mret (false, [])
                  end)
                 (fun jsonErr => mret (false, [])) w
               = (Normal (true, items), w,
                  [Called (ReadTextFile (Some path));
                   Logged Info (JsonTermsDetected (length items))])).
  { apply try_catch_normal.
    rewrite (bind_normal _ _ _ _ _ _ (readTextFile_ok _ _ _ _ Hread Hfile)).
    unfold parseJSON. rewrite Hparse, ret_bind.
    unfold info. rewrite emit_bind. reflexivity. }
  assert (A3 : try_catch
                 (h ← Database_load U (lit "sqlite:" ++ showOpt "null" (Some path));
                  mret (Some h))
                 (fun dbErr => warn (TermsSqliteFailed dbErr);; mret None) w
               = (Normal (Some path), opened w path,
                  [Called (DatabaseLoad (lit "sqlite:" ++ path))])).
  { apply try_catch_normal. cbn [showOpt].
    rewrite (bind_normal _ _ _ _ _ _ (Database_load_ok U path w Hload)).
    reflexivity. }
  destruct (opened_lookup w path) as (d0 & Hd0 & _ & _).
  pose proof (execute_ok P U path CreateTerms (opened w path) d0 _
                Hcreate Hd0 eq_refl) as A4.
  set (w1 := <[path := _]> (opened w path)) in A4.
  destruct (migrate_null P U path items Hnull O w1) as (w2 & ev2 & A5).
  assert (Hne : isEmpty items = false).
  { destruct items; [destruct Hnull | reflexivity]. }
  eexists w2, _. unfold termsStage. rewrite Hset.
  unfold try_catch at 1.
  rewrite bind_unfold, resolvePath_pure, Hres.
  rewrite (bind_normal _ _ _ _ _ _ A1). cbv beta iota.
  rewrite (bind_normal _ _ _ _ _ _ A2). cbv beta iota.
  rewrite (bind_normal _ _ _ _ _ _ A3). cbv beta iota.
  rewrite bind_unfold.
  rewrite (bind_normal _ _ _ _ _ _ A4). rewrite Hne.
  cbn [andb negb].
  assert (A6 : (info MigrationStarted;;
                migratedCount ← migrate P U path items O;
                info (Migrated migratedCount)) w1
               = (Throw TypeError, w2, Logged Info MigrationStarted :: ev2)).
  { change (info MigrationStarted) with (emit (Logged Info MigrationStarted)).
    rewrite emit_bind. now rewrite (bind_throw _ _ _ _ _ _ A5). }
  rewrite (bind_throw _ _ _ _ _ _ A6).
  cbv beta iota zeta. unfold warn. rewrite emit_bind. reflexivity.
Qed.

Lemma termResolution_null text w :
  exists w' ev,
    termResolution P U C text w
    = (Normal [], w', ev ++ [Logged Warn (TermsInitFailed TypeError)]).
Proof.
  destruct (termsStage_null w) as (w' & ev & H).
  exists w', ev. unfold termResolution.
  rewrite (bind_normal _ _ _ _ _ _ H). cbn. now rewrite app_nil_r.
Qed.
End NullEntry.

(** X11. A [null] among the entries of the legacy array stops the
    migration with a TypeError, whatever was inserted before it; the
    outer [catch] logs it as a warning and resets the handle, so the call
    goes on without any term, whatever the term store holds. *)
Theorem null_entry_disables_terms (P : Platform) (U : Utils) (C : Config)
    (path content : list N) (items : list json) (text : list N)
    (w : gmap (list N) database) :
  isSet (termsFile C) = true ->
  resolved U (termsFile C) = Normal (Some path) ->
  files U !! path = Some content ->
  JSON_parse P content = Some (JArr items) ->
  In JNull items ->
  fails U (Exists (Some path)) = false ->
  fails U (ReadTextFile (Some path)) = false ->
  fails U (DatabaseLoad (lit "sqlite:" ++ path)) = false ->
  fails U (Execute path CreateTerms) = false ->
  (forall h n w0, outcomeOf (migrate P U h items n w0) = Throw TypeError)
  /\ exists w' ev,
      termResolution P U C text w
      = (Normal [], w', ev ++ [Logged Warn (TermsInitFailed TypeError)]).
Proof.
  intros Hset Hres Hfile Hparse Hnull Hexists Hread Hload Hcreate. split.
  - intros h n w0. destruct (migrate_null P U h items Hnull n w0) as (w' & ev & ->).
    reflexivity.
  - exact (termResolution_null P U C path content items Hset Hres Hfile Hparse
             Hnull Hexists Hread Hload Hcreate text w).
Qed.

Lemma null_entry_disables_terms_witness :
  exists w' ev,
    termResolution nullPlatform nullUtils exampleConfig (lit "CPU")
      {[ lit "/cache/terms.db" :=
           {| translations := None;
              terms := Some [newRow (lit "CPU") (lit "a")] |} ]}
    = (Normal [], w', ev ++ [Logged Warn (TermsInitFailed TypeError)]).
Proof.
  apply (null_entry_disables_terms nullPlatform nullUtils exampleConfig
           (lit "/cache/terms.db") (lit "[null]") [JNull]);
    try reflexivity.
  now left.
Defined.

Section Yields.
Context (R : relation (gmap (list N) database)).
Context (R_refl : forall w, R w w).
Context (R_trans : forall w1 w2 w3, R w1 w2 -> R w2 w3 -> R w1 w3).

Lemma yields_ret {A} (Q : A -> Prop) a : Q a -> yields R Q (mret a).
Proof. intros H w. split; [apply R_refl|]. now intros a' [= <-]. Qed.

Lemma yields_safe {A} E (m : M A) : safe R E m -> yields R (fun _ => True) m.
Proof. intros H w. split; [apply H | auto]. Qed.

Lemma yields_bind {A B} (Q : A -> Prop) (Q' : B -> Prop) (m : M A)
    (k : A -> M B) :
  yields R Q m -> (forall a, Q a -> yields R Q' (k a)) ->
  yields R Q' (m ≫= k).
Proof.
  intros Hm Hk w. unfold storesOf, outcomeOf. rewrite bind_unfold.
  destruct (Hm w) as [HR HQ]. unfold storesOf, outcomeOf in HR, HQ.
  destruct (m w) as [[[a|v|e] w'] ev]; simpl in *;
    [|split; [exact HR | discriminate]..].
  destruct (Hk a (HQ a eq_refl) w') as [HR' HQ'].
  unfold storesOf, outcomeOf in HR', HQ'.
  destruct (k a w') as [[o w''] ev']; simpl in *.
  split; [eapply R_trans; eauto | exact HQ'].
Qed.

Lemma yields_try_catch {A} (Q : A -> Prop) (m : M A) h :
  yields R Q m -> (forall e, yields R Q (h e)) -> yields R Q (try_catch m h).
Proof.
  intros Hm Hh w. unfold storesOf, outcomeOf, try_catch.
  destruct (Hm w) as [HR HQ]. unfold storesOf, outcomeOf in HR, HQ.
  destruct (m w) as [[[a|v|e] w'] ev]; simpl in *;
    [split; [exact HR | exact HQ] | split; [exact HR | discriminate] |].
  destruct (Hh e w') as [HR' HQ']. unfold storesOf, outcomeOf in HR', HQ'.
  destruct (h e w') as [[o w''] ev']; simpl in *.
  split; [eapply R_trans; eauto | exact HQ'].
Qed.
End Yields.

Lemma resolved_isSet (U : Utils) f r :
  isSet f = true -> resolved U f = Normal r -> exists p, r = Some p.
Proof.
  destruct f as [[|c f]|]; try discriminate. intros _.
  unfold resolved, outcomeOf, resolvePath.
  destruct (includes (c :: f) (lit "/") || includes (c :: f) (lit "\")).
  - unfold warn. rewrite emit_bind. intros [= <-]. eauto.
  - destruct (join U) as [j|]; [|intros [= <-]; eauto].
    rewrite bind_unfold. unfold hostCall. rewrite bind_unfold.
    destruct (fails U _); intros [= <-]; eauto.
Qed.

Section Frame.
Context (P : Platform) (U : Utils) (C : Config).
Context (S : list N -> Prop).

Lemma onlyAt_refl w : onlyAt S w w.
Proof. intros p _. reflexivity. Qed.

Lemma onlyAt_trans w1 w2 w3 : onlyAt S w1 w2 -> onlyAt S w2 w3 -> onlyAt S w1 w3.
Proof. intros H1 H2 p Hp. now rewrite (H2 p Hp), (H1 p Hp). Qed.

Lemma onlyAt_insert w h d : S h -> onlyAt S w (<[h := d]> w).
Proof.
  intros Hh p Hp. apply lookup_insert_ne. intros ->. contradiction.
Qed.

Lemma resolvePath_yields f :
  yields (onlyAt S) (fun r => resolved U f = Normal r) (resolvePath U f).
Proof.
  intros w. rewrite resolvePath_pure. split; [apply onlyAt_refl|].
  now intros a.
Qed.

Lemma Database_load_yields p :
  S p ->
  yields (onlyAt S) (fun h => h = p) (Database_load U (lit "sqlite:" ++ p)).
Proof.
  intros Hp w.
  destruct (fails U (DatabaseLoad (lit "sqlite:" ++ p))) eqn:Hf.
  - rewrite (Database_load_rejected U _ w Hf).
    split; [apply onlyAt_refl | discriminate].
  - rewrite (Database_load_ok U p w Hf). split; [|now intros a [= <-]].
    unfold storesOf, opened. cbn. destruct (w !! p);
      [apply onlyAt_refl | now apply onlyAt_insert].
Qed.

Lemma execute_onlyAt h q :
  S h -> safe (onlyAt S) (fun _ => True) (execute P U h q).
Proof.
  intros Hh. apply execute_safe; auto using onlyAt_refl.
  - exact onlyAt_trans.
  - intros w d d' _ _. now apply onlyAt_insert.
Qed.

Lemma migrate_onlyAt h jsonTerms :
  S h -> forall n, safe (onlyAt S) (fun _ => True) (migrate P U h jsonTerms n).
Proof.
  intros Hh. pose proof onlyAt_refl as R_refl. pose proof onlyAt_trans as R_trans.
  induction jsonTerms as [|t rest IH]; intros n; cbn [migrate].
  - safety.
  - unfold member. pose proof (execute_onlyAt h) as Hx.
    repeat first [ apply IH | apply Hx | safety_step ]; auto.
Qed.

(** Opening a store for a file name that is set. *)
Lemma open_yields f handler :
  isSet f = true ->
  (forall p, resolved U f = Normal (Some p) -> S p) ->
  (forall e, yields (onlyAt S) (fun db => forall h, db = Some h -> S h)
               (handler e)) ->
  yields (onlyAt S) (fun db => forall h, db = Some h -> S h)
    (try_catch
       (fullPath ← resolvePath U f;
        h ← Database_load U (lit "sqlite:" ++ showOpt "null" fullPath);
        mret (Some h))
       handler).
Proof.
  intros Hset Hres Hh.
  apply yields_try_catch; [exact onlyAt_trans | | exact Hh].
  eapply yields_bind; [exact onlyAt_trans | apply resolvePath_yields |].
  intros r Hr. destruct (resolved_isSet U f r Hset Hr) as (p & ->).
  cbn [showOpt].
  eapply yields_bind;
    [exact onlyAt_trans | apply Database_load_yields; auto |].
  intros h ->. apply yields_ret; [exact onlyAt_refl|].
  intros h [= <-]. auto.
Qed.

Lemma warn_None_yields (m : message) :
  yields (onlyAt S) (fun db : option (list N) => forall h, db = Some h -> S h)
    (warn m;; mret None).
Proof.
  intros w. unfold warn. rewrite emit_bind. split; [apply onlyAt_refl|].
  intros a [= <-]. discriminate.
Qed.

Lemma cacheStage_yields text from to :
  (forall p, resolved U (databaseFile C) = Normal (Some p) -> S p) ->
  yields (onlyAt S) (fun db => forall h, db = Some h -> S h)
    (cacheStage P U C text from to).
Proof.
  intros Hres. pose proof onlyAt_refl as R_refl.
  pose proof onlyAt_trans as R_trans.
  unfold cacheStage. destruct (isSet (databaseFile C)) eqn:Hset;
    [|apply yields_ret; [exact R_refl | discriminate]].
  eapply yields_bind; [exact R_trans | |].
  - apply open_yields; auto. intros e. apply warn_None_yields.
  - intros [h|] Hdb; [|apply yields_ret; [exact R_refl | discriminate]].
    specialize (Hdb h eq_refl).
    eapply yields_bind; [exact R_trans | |].
    + apply (yields_safe _ (fun _ => True)).
      unfold selectTranslation.
      pose proof (hostCall_safe U (onlyAt S) (fun _ => True) R_refl R_trans) as Hc.
      pose proof (execute_onlyAt h) as Hx.
      repeat first [ apply Hx | apply Hc | safety_step ]; auto.
    + intros u _. cbv beta. apply yields_ret; [exact R_refl|]. now intros h' [= <-].
Qed.

Lemma termsStage_yields :
  (forall p, resolved U (termsFile C) = Normal (Some p) -> S p) ->
  yields (onlyAt S) (fun db => forall h, db = Some h -> S h)
    (termsStage P U C).
Proof.
  intros Hres. pose proof onlyAt_refl as R_refl.
  pose proof onlyAt_trans as R_trans.
  pose proof (hostCall_safe U (onlyAt S) (fun _ => True) R_refl R_trans) as Hc.
  unfold termsStage. destruct (isSet (termsFile C)) eqn:Hset;
    [|apply yields_ret; [exact R_refl | discriminate]].
  apply yields_try_catch; [exact R_trans | | intros e; apply warn_None_yields].
  eapply yields_bind; [exact R_trans | apply resolvePath_yields |].
  intros r Hr. destruct (resolved_isSet U _ r Hset Hr) as (p & ->).
  specialize (Hres p Hr).
  eapply yields_bind; [exact R_trans | |].
  { apply (yields_safe _ (fun _ => True)). unfold exists_.
    repeat first [ apply Hc | safety_step ]; auto. }
  intros fileExists Hx1. clear Hx1.
  eapply yields_bind; [exact R_trans | |].
  { apply (yields_safe _ (fun _ => True)). unfold readTextFile, parseJSON.
    repeat first [ apply Hc | safety_step ]; auto. }
  intros [needMigration jsonTerms] Hx2. clear Hx2.
  eapply yields_bind; [exact R_trans | |].
  { apply yields_try_catch; [exact R_trans | | intros e; apply warn_None_yields].
    cbn [showOpt].
    eapply yields_bind;
      [exact R_trans | apply Database_load_yields; exact Hres |].
    intros h ->. apply yields_ret; [exact R_refl|].
    intros h [= <-]. exact Hres. }
  intros termsDb Hdb.
  eapply yields_bind; [exact R_trans | |].
  - apply (yields_safe _ (fun _ => True)).
    destruct termsDb as [h|].
    + specialize (Hdb h eq_refl).
      pose proof (execute_onlyAt h) as Hx.
      pose proof (migrate_onlyAt h) as Hm.
      repeat first [ apply Hx | apply Hm | apply Hc | safety_step ]; auto.
    + safety; auto.
  - intros u _. cbv beta. apply yields_ret; [exact R_refl | exact Hdb].
Qed.

Lemma remoteStage_onlyAt db text from to matched :
  (forall h, db = Some h -> S h) ->
  safe (onlyAt S) (fun _ => True) (remoteStage P U C db text from to matched).
Proof.
  intros Hdb w. split; [|apply Forall_forall; auto].
  rewrite remoteStage_eq. cbv zeta.
  destruct (fails U _); [apply onlyAt_refl|].
  destruct (ok _); [|apply onlyAt_refl].
  destruct (normalize P _) as [t|]; [|apply onlyAt_refl].
  destruct (writeBack_cases P U db text from to t w)
    as [[-> _]|(h & E & _ & [(d & m & _ & _ & _ & ->)|[_ ->]])];
    try apply onlyAt_refl.
  unfold storesOf. cbn. apply onlyAt_insert. auto.
Qed.

Lemma translateBody_onlyAt text from to :
  (forall p, configured U C p -> S p) ->
  safe (onlyAt S) (fun _ => True) (translateBody P U C text from to).
Proof.
  intros Hconf w. split; [|apply Forall_forall; auto].
  pose proof onlyAt_refl as R_refl. pose proof onlyAt_trans as R_trans.
  assert (H : yields (onlyAt S) (fun _ => True)
                (translateBody P U C text from to)).
  { unfold translateBody, onlineStages.
    eapply yields_bind; [exact R_trans | |].
    - apply cacheStage_yields. intros p Hp. apply Hconf. now left.
    - intros db Hdb.
      eapply yields_bind; [exact R_trans | |].
      + unfold termResolution.
        eapply yields_bind; [exact R_trans | |].
        * apply termsStage_yields. intros p Hp. apply Hconf. now right.
        * intros termsDb Hx1. apply (yields_safe _ (fun _ => True)).
          apply matchStage_safe; auto.
      + intros matched Hx1. apply (yields_safe _ (fun _ => True)).
        now apply remoteStage_onlyAt. }
  apply H.
Qed.
End Frame.

(** X4. A call of [translate] reads and writes no store other than those
    at the paths its two file names resolve to: every other path holds
    after the call what it held before, a store or nothing. *)
Theorem translate_touches_only_configured_stores (P : Platform) (U : Utils)
    (C : Config) (text from to : list N) (w : gmap (list N) database) :
  onlyAt (configured U C) w (translate P U C text from to w).1.2.
Proof.
  pose proof (proj1 (translateBody_onlyAt P U C (configured U C) text from to
                       (fun p H => H) w)) as H.
  unfold translate, storesOf in *.
  now destruct (translateBody P U C text from to w) as [[[v|v|e] w'] ev].
Qed.

Section TermsReach.
Context (P : Platform) (U : Utils) (C : Config).
Context (path : list N).
Context (Hset : isSet (termsFile C) = true).
Context (Hres : resolved U (termsFile C) = Normal (Some path)).
Context (Hfails : forall c, fails U c = false).

Lemma load_terms_store w :
  try_catch
    (h ← Database_load U (lit "sqlite:" ++ showOpt "null" (Some path));
     mret (Some h))
    (fun dbErr => warn (TermsSqliteFailed dbErr);; mret None) w
  = (Normal (Some path), opened w path,
     [Called (DatabaseLoad (lit "sqlite:" ++ path))]).
Proof.
  apply try_catch_normal. cbn [showOpt].
  now rewrite (bind_normal _ _ _ _ _ _ (Database_load_ok U path w (Hfails _))).
Qed.

Lemma create_terms_table w :
  let d0 := default emptyDatabase (w !! path) in
  execute P U path CreateTerms (opened w path)
  = (Normal tt,
     <[path := {| translations := translations d0;
                  terms := Some (default [] (terms d0)) |}]> w,
     [Called (Execute path CreateTerms)]).
Proof.
  intros d0.
  assert (Hd0 : opened w path !! path = Some d0).
  { unfold opened, d0. destruct (w !! path) as [d|] eqn:E; [exact E|].
    apply lookup_insert_eq. }
  rewrite (execute_ok P U path CreateTerms (opened w path) d0 _
             (Hfails _) Hd0 eq_refl).
  f_equal. f_equal. unfold opened. destruct (w !! path); [reflexivity|].
  apply insert_insert_eq.
Qed.

Lemma selectTerms_ok w d rows :
  w !! path = Some d -> terms d = Some rows ->
  selectTerms U path w = (Normal rows, w, [Called (Select path SelectTerms)]).
Proof.
  intros Hd Hr. unfold selectTerms.
  rewrite (bind_normal _ _ _ _ _ _ (hostCall_ok U _ w (Hfails _))).
  rewrite get_bind, Hd. cbn. now rewrite Hr.
Qed.

Lemma matchStage_ok text w d rows :
  w !! path = Some d -> terms d = Some rows ->
  matchStage P U (Some path) text w
  = (Normal (matchTerms P text rows), w,
     [Called (Select path SelectTerms);
      Logged Info (TermsLoaded (length rows));
      Logged Info (TermsMatched (length (matchTerms P text rows)))]).
Proof.
  intros Hd Hr. unfold matchStage. apply try_catch_normal.
  rewrite (bind_normal _ _ _ _ _ _ (selectTerms_ok w d rows Hd Hr)).
  unfold info. rewrite emit_bind, emit_bind. reflexivity.
Qed.

(** The term file is no legacy array: nothing is migrated. *)
Lemma termsStage_plain w d rows :
  w !! path = Some d -> terms d = Some rows ->
  (forall content items,
      files U !! path = Some content ->
      JSON_parse P content <> Some (JArr items)) ->
  termsStage P U C w
  = (Normal (Some path), w, nativeLoadEvents U C path).
Proof.
  intros Hd Hrows Hplain.
  assert (A1 : try_catch (exists_ U (Some path))
                 (fun e => warn (TermsCheckFailed e);; mret false) w
               = (Normal true, w, [Called (Exists (Some path))])).
  { apply try_catch_normal. rewrite (exists_ok _ _ _ (Hfails _)), Hd.
    now rewrite orb_true_r. }
  assert (A2 : try_catch
                 (fileContent ← readTextFile U (Some path);
                  parsed ← parseJSON P fileContent;
                  match parsed with
                  | JArr items =>
                      info (JsonTermsDetected (length items));;
                      mret (true, items)
                  | _ => mret (false, [])
                  end)
                 (fun jsonErr => mret (false, [])) w
               = (Normal (false, []), w,
                  [Called (ReadTextFile (Some path))])).
  { unfold try_catch, readTextFile.
    rewrite (bind_unfold (hostCall U _ ≫= _)).
    rewrite (bind_normal _ _ _ _ _ _ (hostCall_ok U _ w (Hfails _))).
    cbn [mbind option_bind].
    destruct (files U !! path) as [content|] eqn:Hfile; [|reflexivity].
    cbn. unfold parseJSON.
    destruct (JSON_parse P content) as [v|] eqn:Hp; [|reflexivity].
    rewrite ret_bind.
    destruct v; try reflexivity.
    now destruct (Hplain content items eq_refl). }
  pose proof (create_terms_table w) as A4. cbv zeta in A4.
  rewrite Hd in A4. cbn in A4. rewrite Hrows in A4. cbn in A4.
  assert (Hid : <[path := {| translations := translations d;
                             terms := Some rows |}]> w = w).
  { apply insert_id. rewrite Hd. destruct d as [tr tm]. cbn in *. now subst. }
  rewrite Hid in A4.
  unfold termsStage. rewrite Hset.
  apply try_catch_normal.
  rewrite bind_unfold, resolvePath_pure, Hres.
  rewrite (bind_normal _ _ _ _ _ _ A1). cbv beta iota.
  rewrite (bind_normal _ _ _ _ _ _ A2). cbv beta iota.
  rewrite (bind_normal _ _ _ _ _ _ (load_terms_store w)). cbv beta iota.
  rewrite bind_unfold. rewrite (bind_normal _ _ _ _ _ _ A4).
  unfold nativeLoadEvents. reflexivity.
Qed.

(** The term file is a legacy array without [null]: its entries are
    inserted, after the rows the store has. *)
Lemma termsStage_migrates content items w :
  files U !! path = Some content ->
  JSON_parse P content = Some (JArr items) ->
  Forall (fun t => t <> JNull) items ->
  let d0 := default emptyDatabase (w !! path) in
  let rows' := insertAll (default [] (terms d0))
                 (omap (boundPair P) (List.filter candidate items)) in
  exists ev,
    termsStage P U C w
    = (Normal (Some path),
       <[path := {| translations := translations d0; terms := Some rows' |}]> w,
       ev).
Proof.
  intros Hfile Hparse Hitems d0 rows'.
  assert (A1 : try_catch (exists_ U (Some path))
                 (fun e => warn (TermsCheckFailed e);; mret false) w
               = (Normal true, w, [Called (Exists (Some path))])).
  { apply try_catch_normal. rewrite (exists_ok _ _ _ (Hfails _)), Hfile.
    reflexivity. }
  assert (A2 : try_catch
                 (fileContent ← readTextFile U (Some path);
                  parsed ← parseJSON P fileContent;
                  match parsed with
                  | JArr items =>
                      info (JsonTermsDetected (length items));;
                      mret (true, items)
                  | _ => mret (false, [])
                  end)
                 (fun jsonErr => mret (false, [])) w
               = (Normal (true, items), w,
                  [Called (ReadTextFile (Some path));
                   Logged Info (JsonTermsDetected (length items))])).
  { apply try_catch_normal.
    rewrite (bind_normal _ _ _ _ _ _ (readTextFile_ok _ _ _ _ (Hfails _) Hfile)).
    unfold parseJSON. rewrite Hparse, ret_bind.
    unfold info. rewrite emit_bind. reflexivity. }
  pose proof (create_terms_table w) as A4. cbv zeta in A4. fold d0 in A4.
  set (d1 := {| translations := translations d0;
                terms := Some (default [] (terms d0)) |}) in A4.
  assert (Hd1 : <[path := d1]> w !! path = Some d1) by apply lookup_insert_eq.
  pose proof (migrate_run P U path items Hitems (fun s g => Hfails _) O
                (<[path := d1]> w) d1 (default [] (terms d0)) Hd1 eq_refl) as A5.
  cbv zeta in A5. rewrite insert_insert_eq in A5. cbn [translations d1] in A5.
  fold rows' in A5.
  unfold termsStage. rewrite Hset.
  destruct (isEmpty items) eqn:Hne.
  - assert (E : rows' = default [] (terms d0)).
    { unfold rows'. destruct items; [reflexivity | discriminate Hne]. }
    rewrite E. eexists. apply try_catch_normal.
    rewrite bind_unfold, resolvePath_pure, Hres.
    rewrite (bind_normal _ _ _ _ _ _ A1). cbv beta iota.
    rewrite (bind_normal _ _ _ _ _ _ A2). cbv beta iota.
    rewrite (bind_normal _ _ _ _ _ _ (load_terms_store w)). cbv beta iota.
    rewrite bind_unfold. rewrite (bind_normal _ _ _ _ _ _ A4).
    rewrite Hne. cbn [andb negb]. rewrite ret_bind. reflexivity.
  - assert (A6 : (info MigrationStarted;;
                  migratedCount ← migrate P U path items O;
                  info (Migrated migratedCount)) (<[path := d1]> w)
                 = (Normal tt,
                    <[path := {| translations := translations d0;
                                 terms := Some rows' |}]> w,
                    Logged Info MigrationStarted
                    :: map (insertCall path) (List.filter candidate items)
                    ++ [Logged Info
                          (Migrated
                             (length (omap (boundPair P)
                                        (List.filter candidate items))))])).
    { change (info MigrationStarted) with (emit (Logged Info MigrationStarted)).
      rewrite emit_bind. rewrite (bind_normal _ _ _ _ _ _ A5). reflexivity. }
    eexists. apply try_catch_normal.
    rewrite bind_unfold, resolvePath_pure, Hres.
    rewrite (bind_normal _ _ _ _ _ _ A1). cbv beta iota.
    rewrite (bind_normal _ _ _ _ _ _ A2). cbv beta iota.
    rewrite (bind_normal _ _ _ _ _ _ (load_terms_store w)). cbv beta iota.
    rewrite bind_unfold. rewrite (bind_normal _ _ _ _ _ _ A4).
    rewrite Hne. cbn [andb negb].
    rewrite (bind_normal _ _ _ _ _ _ A6). reflexivity.
Qed.
End TermsReach.

(** X12. When no host call is rejected, the terms that reach the matcher
    are those of the term store as the call leaves it. Over a store
    whose file is no legacy array, these are its rows, and the store is
    left as it is. Over a legacy array without [null], these are the
    rows the store had followed by the migrated entries: an entry is
    matched in the very call that migrates it. *)
Theorem stored_terms_are_matched (P : Platform) (U : Utils) (C : Config)
    (path text : list N) (w : gmap (list N) database) :
  isSet (termsFile C) = true ->
  resolved U (termsFile C) = Normal (Some path) ->
  (forall c, fails U c = false) ->
  (forall d rows,
      w !! path = Some d -> terms d = Some rows ->
      (forall content items,
          files U !! path = Some content ->
          JSON_parse P content <> Some (JArr items)) ->
      exists ev,
        termResolution P U C text w = (Normal (matchTerms P text rows), w, ev))
  /\ (forall content items,
         files U !! path = Some content ->
         JSON_parse P content = Some (JArr items) ->
         Forall (fun t => t <> JNull) items ->
         let d0 := default emptyDatabase (w !! path) in
         let rows' := insertAll (default [] (terms d0))
                        (omap (boundPair P) (List.filter candidate items)) in
         exists ev,
           termResolution P U C text w
           = (Normal (matchTerms P text rows'),
              <[path := {| translations := translations d0;
                           terms := Some rows' |}]> w,
              ev)).
Proof.
  intros Hset Hres Hfails. split.
  - intros d rows Hd Hrows Hplain. unfold termResolution.
    rewrite (bind_normal _ _ _ _ _ _
               (termsStage_plain P U C path Hset Hres Hfails w d rows Hd Hrows Hplain)).
    rewrite (matchStage_ok P U path Hfails text w d rows Hd Hrows).
    eexists. reflexivity.
  - intros content items Hfile Hparse Hitems d0 rows'.
    destruct (termsStage_migrates P U C path Hset Hres Hfails content items w
                Hfile Hparse Hitems) as (ev & Hstage).
    fold d0 in Hstage. fold rows' in Hstage.
    unfold termResolution. rewrite (bind_normal _ _ _ _ _ _ Hstage).
    erewrite (matchStage_ok P U path Hfails text);
      [| apply lookup_insert_eq | reflexivity].
    eexists. reflexivity.
Qed.

Lemma stored_terms_are_matched_witness :
  exists ev,
    termResolution plainPlatform legacyUtils exampleConfig (lit "a CPU.") ∅
    = (Normal [{| m_source := lit "CPU"; m_target := cpuTarget |}],
       {[ lit "/cache/terms.db" :=
            {| translations := None; terms := Some [cpuRow] |} ]},
       ev).
Proof.
  destruct (proj2 (stored_terms_are_matched plainPlatform legacyUtils exampleConfig
                     (lit "/cache/terms.db") (lit "a CPU.") ∅
                     eq_refl eq_refl (fun c => eq_refl))
              legacyText
              [JObj [(lit "source", JStr (lit "CPU")); (lit "target", JStr cpuTarget)]])
    as (ev & H).
  - reflexivity.
  - reflexivity.
  - repeat constructor; discriminate.
  - exists ev. exact H.
Defined.

(* ================================================================= *)
(** ** The earlier variants *)

Lemma access_optChain o f v : access o f = Some v -> optChain o f = v.
Proof. destruct o as [[]|]; cbn; congruence. Qed.

Lemma optChain_access o f v :
  optChain o f = Some v -> access o f = Some (Some v).
Proof. destruct o as [[]|]; cbn; try discriminate; now intros ->. Qed.

Lemma contentStrict_contentOf result c :
  contentStrict result = Some c -> contentOf result = c.
Proof.
  unfold contentStrict, contentOf. intros H.
  destruct (access result (prop "choices")) as [r1|] eqn:E1; [|discriminate].
  rewrite (access_optChain _ _ _ E1). cbn [mbind option_bind] in H.
  destruct (access r1 index0) as [r2|] eqn:E2; [|discriminate].
  rewrite (access_optChain _ _ _ E2). cbn [mbind option_bind] in H.
  destruct (access r2 (prop "message")) as [r3|] eqn:E3; [|discriminate].
  rewrite (access_optChain _ _ _ E3). cbn [mbind option_bind] in H.
  exact (access_optChain _ _ _ H).
Qed.

Lemma contentOf_contentStrict result v :
  contentOf result = Some v -> contentStrict result = Some (Some v).
Proof.
  unfold contentStrict, contentOf. intros H.
  destruct (optChain (optChain (optChain result (prop "choices")) index0)
              (prop "message")) as [r3|] eqn:E3; [|discriminate].
  destruct (optChain (optChain result (prop "choices")) index0)
    as [r2|] eqn:E2; [|discriminate].
  destruct (optChain result (prop "choices")) as [r1|] eqn:E1; [|discriminate].
  rewrite (optChain_access _ _ _ E1). cbn [mbind option_bind].
  rewrite (optChain_access _ _ _ E2). cbn [mbind option_bind].
  rewrite (optChain_access _ _ _ E3). cbn [mbind option_bind].
  exact (optChain_access _ _ _ H).
Qed.

Lemma normalizeStrict_content (P : Platform) result t :
  normalizeStrict P result = Some t ->
  exists s, contentOf result = Some (JStr s)
            /\ t = trim (replaceAllEmpty P sentinelRegex s).
Proof.
  unfold normalizeStrict.
  destruct (contentStrict result) as [[[]|]|] eqn:E; try discriminate.
  intros [= <-]. exists s. split; [|reflexivity].
  exact (contentStrict_contentOf _ _ E).
Qed.

(** X14. The normaliser of the earlier variants reads the content without
    optional chaining and without a default. Where it yields a text,
    the normaliser of src/main.js yields the same text; it yields one
    exactly when the content of the first choice is a string; where it
    is a TypeError and the later one is not, the later one yields the
    empty string. Either way the text is one [trim] leaves unchanged. *)
Theorem strict_normaliser_refined (P : Platform) (result : option json) :
  (forall t, normalizeStrict P result = Some t -> normalize P result = Some t)
  /\ (is_Some (normalizeStrict P result)
      <-> exists s, contentOf result = Some (JStr s))
  /\ (forall t,
         normalizeStrict P result = None -> normalize P result = Some t ->
         t = [])
  /\ (forall t, normalizeStrict P result = Some t -> trim t = t).
Proof.
  assert (H1 : forall t, normalizeStrict P result = Some t ->
                         normalize P result = Some t).
  { intros t H. destruct (normalizeStrict_content P result t H) as (s & Hc & ->).
    unfold normalize, contentOrEmpty. rewrite Hc. now destruct s. }
  assert (H2 : forall s, contentOf result = Some (JStr s) ->
                         is_Some (normalizeStrict P result)).
  { intros s Hc. unfold normalizeStrict.
    rewrite (contentOf_contentStrict _ _ Hc). eauto. }
  split; [exact H1|]. split; [|split].
  - split; [|intros (s & Hc); eauto].
    intros [t Ht]. destruct (normalizeStrict_content P result t Ht) as (s & Hc & _).
    eauto.
  - intros t Hs Hn. unfold normalize, contentOrEmpty in Hn.
    destruct (contentOf result) as [v|] eqn:Hc;
      [|cbn in Hn; now injection Hn as <-].
    destruct (truthy (Some v)) eqn:Ht;
      [|cbn in Hn; now injection Hn as <-].
    destruct v; try discriminate Hn.
    destruct (H2 s eq_refl) as [t' Ht']. congruence.
  - intros t H. apply (normalize_trimmed P result), H1, H.
Qed.

(* ================================================================= *)
(** ** The configurable endpoint of the first variant *)

Lemma matchUrl_lits (m : list N) (a : list urlAtom) (s : list N) :
  matchUrl (map Lit m ++ a) s = true
  <-> exists s', s = m ++ s' /\ matchUrl a s' = true.
Proof.
  revert s. induction m as [|c m IH]; intros s; cbn [map app matchUrl].
  - split; [intros H; now exists s | now intros (s' & -> & H)].
  - destruct s as [|d s].
    + split; [discriminate | intros (s' & E & _); discriminate E].
    + rewrite andb_true_iff, N.eqb_eq, IH. split.
      * intros (-> & s' & -> & H). eauto.
      * intros (s' & [= -> ->] & H). eauto.
Qed.

Lemma matchUrl_opt (c : N) (a : list urlAtom) (s : list N) :
  matchUrl (OptLit c :: a) s = true
  <-> (exists s', s = c :: s' /\ matchUrl a s' = true) \/ matchUrl a s = true.
Proof.
  cbn [matchUrl]. rewrite orb_true_iff. apply or_iff_compat_r.
  destruct s as [|d s].
  - split; [discriminate | intros (s' & E & _); discriminate E].
  - rewrite andb_true_iff, N.eqb_eq. split.
    + intros (-> & H). eauto.
    + intros (s' & [= -> ->] & H). auto.
Qed.

Lemma matchUrl_anyPlus (s : list N) :
  matchUrl [AnyPlus] s = true
  <-> exists d s', s = d :: s' /\ isLineTerminator d = false.
Proof.
  destruct s as [|d s]; cbn [matchUrl].
  - split; [discriminate | intros (d & s' & E & _); discriminate E].
  - rewrite orb_true_r, andb_true_r, negb_true_iff. split.
    + intros H. eauto.
    + now intros (d' & s' & [= -> ->] & H).
Qed.

Lemma searchUrl_spec (a : list urlAtom) (s : list N) :
  searchUrl a s = true
  <-> exists pre post, s = pre ++ post /\ matchUrl a post = true.
Proof.
  induction s as [|d s IH]; cbn [searchUrl]; rewrite orb_true_iff.
  - split.
    + intros [H|H]; [now exists [], [] | discriminate].
    + intros (pre & post & E & H). symmetry in E.
      apply app_eq_nil in E as [-> ->]. now left.
  - rewrite IH. split.
    + intros [H|(pre & post & -> & H)]; [now exists [], (d :: s)|].
      now exists (d :: pre), post.
    + intros ([|d' pre] & post & E & H).
      * cbn in E. subst post. now left.
      * injection E as <- ->. right. eauto.
Qed.

Lemma hasScheme_spec (s : list N) : hasScheme s = true <-> schemeAt s.
Proof.
  unfold hasScheme, schemeAt, schemePattern. rewrite searchUrl_spec. split.
  - intros (pre & post & -> & H).
    apply matchUrl_lits in H as (s1 & -> & H).
    cbn [app] in H. apply matchUrl_opt in H as [(s2 & -> & H)|H];
      apply matchUrl_lits in H as (s3 & -> & H);
      apply matchUrl_anyPlus in H as (c & rest & -> & Hc).
    + exists pre, [115], c, rest. auto.
    + exists pre, [], c, rest. auto.
  - intros (pre & opt & c & rest & -> & Hopt & Hc).
    exists pre, (lit "http" ++ opt ++ lit "://" ++ c :: rest).
    split; [reflexivity|]. apply matchUrl_lits. eexists. split; [reflexivity|].
    cbn [app]. apply matchUrl_opt.
    destruct Hopt as [-> | ->]; [right | left; eexists; split; [reflexivity|]];
      apply matchUrl_lits; eexists; (split; [reflexivity|]);
      apply matchUrl_anyPlus; eauto.
Qed.

Lemma includes_app (pre m post : list N) : includes (pre ++ m ++ post) m = true.
Proof.
  induction pre as [|c pre IH].
  - cbn [app]. destruct (m ++ post) eqn:E; cbn [includes]; rewrite <- E;
      now rewrite startsWith_app.
  - cbn [app includes]. now rewrite IH, orb_true_r.
Qed.

Lemma endsWith_last (s : list N) (c : N) :
  endsWith s [c] = true <-> last s = Some c.
Proof.
  unfold endsWith. rewrite <- head_rev. cbn [rev app].
  destruct (rev s) as [|d r]; cbn.
  - split; discriminate.
  - rewrite andb_true_r, N.eqb_eq. split; [now intros -> | now intros [= ->]].
Qed.

Lemma removelast_last (s : list N) (c : N) :
  last s = Some c -> s = removelast s ++ [c].
Proof.
  intros H. apply last_Some in H as (l & ->).
  now rewrite removelast_last.
Qed.

(** X15. The endpoint of the first variant. Unset or empty, it is the
    default. Otherwise the scheme test looks for "http://" or "https://"
    followed by a unit that ends no line, anywhere in the string; when
    there is none, "https://" is put in front; then the last unit is
    dropped exactly when it is a slash (one slash, also when more
    follow each other). Nothing else changes, the result always contains
    one of the two schemes, and a path that passes the test and ends
    with no slash is used as it is. *)
Theorem requestPath_normalised (requestPath : option (list N)) :
  let given :=
    match requestPath with
    | Some (c :: r) => c :: r
    | _ => endpoint
    end in
  let result := requestPathOf requestPath in
  (hasScheme given = true <-> schemeAt given)
  /\ (exists pre suf,
         pre ++ given = result ++ suf
         /\ (hasScheme given = true /\ pre = []
             \/ hasScheme given = false /\ pre = lit "https://")
         /\ (last (pre ++ given) = Some 47 /\ suf = lit "/"
             \/ last (pre ++ given) <> Some 47 /\ suf = []))
  /\ includes result (lit "http://") || includes result (lit "https://") = true
  /\ (hasScheme given = true -> last given <> Some 47 -> result = given)
  /\ requestPathOf None = endpoint
  /\ requestPathOf (Some []) = endpoint.
Proof.
  intros given result.
  assert (Hgiven : given <> []).
  { unfold given. destruct requestPath as [[|c r]|]; discriminate. }
  split; [apply hasScheme_spec|].
  assert (Hres : result
                 = let p1 := if negb (hasScheme given) then lit "https://" ++ given
                             else given in
                   if endsWith p1 (lit "/") then removelast p1 else p1)
    by reflexivity.
  split; [|split; [|split]].
  - rewrite Hres. cbv zeta.
    destruct (hasScheme given) eqn:Hs; cbn [negb].
    + exists []. destruct (endsWith given (lit "/")) eqn:He.
      * exists (lit "/"). apply endsWith_last in He.
        split; [exact (removelast_last _ _ He) | auto].
      * exists []. rewrite app_nil_r.
        assert (Hl : last ([] ++ given) <> Some 47).
        { intros Hl. apply endsWith_last in Hl. cbn [app] in Hl.
          change (lit "/") with [47] in He. congruence. }
        auto.
    + exists (lit "https://").
      destruct (endsWith (lit "https://" ++ given) (lit "/")) eqn:He.
      * exists (lit "/"). apply endsWith_last in He.
        split; [exact (removelast_last _ _ He) | auto].
      * exists []. rewrite app_nil_r.
        assert (Hl : last (lit "https://" ++ given) <> Some 47).
        { intros Hl. apply endsWith_last in Hl.
          change (lit "/") with [47] in He. congruence. }
        auto.
  - rewrite Hres. cbv zeta. apply orb_true_iff.
    destruct (hasScheme given) eqn:Hs; cbn [negb].
    + apply hasScheme_spec in Hs as (pre & opt & c & rest & E & Hopt & _).
      assert (Hin : forall tail,
                 includes (pre ++ lit "http" ++ opt ++ lit "://" ++ tail)
                   (lit "http://") = true
                 \/ includes (pre ++ lit "http" ++ opt ++ lit "://" ++ tail)
                      (lit "https://") = true).
      { intros tail. destruct Hopt as [-> | ->]; [left | right].
        - exact (includes_app pre (lit "http://") tail).
        - exact (includes_app pre (lit "https://") tail). }
      rewrite E. destruct (endsWith _ _); [|apply Hin].
      replace (pre ++ lit "http" ++ opt ++ lit "://" ++ c :: rest)
        with ((pre ++ lit "http" ++ opt ++ lit "://") ++ c :: rest)
        by (now rewrite <- !app_assoc).
      rewrite removelast_app by discriminate. rewrite <- !app_assoc.
      apply Hin.
    + right. destruct (endsWith _ _).
      * rewrite removelast_app by exact Hgiven.
        exact (includes_app [] (lit "https://") (removelast given)).
      * exact (includes_app [] (lit "https://") given).
  - intros Hs Hl. rewrite Hres. cbv zeta. rewrite Hs. cbn [negb].
    destruct (endsWith given (lit "/")) eqn:He; [|reflexivity].
    apply endsWith_last in He. contradiction.
  - split; vm_compute; reflexivity.
Qed.

(* ================================================================= *)
(** ** The clamped variant against src/main.js *)

Lemma translate_plain (P : Platform) (U : Utils) (C : Config)
    (text from to : list N) (w : gmap (list N) database) :
  isSet (databaseFile C) = false -> isSet (termsFile C) = false ->
  translate P U C text from to w
  = let '(o, w', ev) := remoteStage P U C None text from to [] w in
    (toResult o, w', ev).
Proof.
  intros Hdb Hterms.
  rewrite (translate_online P U C text from to w None w []
             (cacheStage_unset P U C text from to w Hdb)).
  assert (Ht : termResolution P U C text w = (Normal [], w, [])).
  { unfold termResolution, termsStage. now rewrite Hterms. }
  unfold onlineStages. rewrite (bind_normal _ _ _ _ _ _ Ht).
  now destruct (remoteStage P U C None text from to [] w) as [[o w'] ev].
Qed.

(** X16. With no cache file and no term file configured, and a
    temperature on which the two variants agree (one that is not set, no
    number, or in the range and not zero), src/main.js makes the request
    the clamped variant makes, and returns every text the clamped
    variant returns, leaving the stores as they are. The clamped variant
    makes its one call, touches no store and logs nothing. *)
Theorem clamped_variant_refined_by_main (P : Platform) (U : Utils) (C : Config)
    (text from to : list N) (w : gmap (list N) database) :
  let req := clampedRequest C text from to in
  (exists r, translateClamped P U C text from to w = (r, w, [Called (Fetch req)]))
  /\ (isSet (databaseFile C) = false -> isSet (termsFile C) = false ->
      temperatureOf (temperature C) = temperatureClamped (temperature C) ->
      buildRequest C text from to [] = req
      /\ forall t,
          translateClamped P U C text from to w = (Ok t, w, [Called (Fetch req)]) ->
          translate P U C text from to w
          = (Ok t, w, [Called (Fetch req); Logged Info OnlineApi])).
Proof.
  intros req.
  assert (Hrun : translateClamped P U C text from to w
                 = (if fails U (Fetch req) then Failed (Rejected (Fetch req))
                    else if ok (fetch U req) then
                      match normalizeStrict P (data (fetch U req)) with
                      | Some t => Ok t
                      | None => Failed TypeError
                      end
                    else Failed (Thrown (httpErrorMessage P (fetch U req))),
                    w, [Called (Fetch req)])).
  { unfold translateClamped, translateClampedBody. fold req.
    rewrite bind_unfold.
    destruct (fails U (Fetch req)) eqn:Hf.
    - now rewrite (hostCall_rejected U _ w Hf).
    - rewrite (hostCall_ok U _ w Hf).
      destruct (ok (fetch U req)); [|reflexivity].
      destruct (normalizeStrict P (data (fetch U req))); reflexivity. }
  split; [rewrite Hrun; eauto|].
  intros Hdb Hterms Htemp.
  assert (Hreq : buildRequest C text from to [] = req).
  { unfold buildRequest, req, clampedRequest, endpoint. cbn [isEmpty].
    now rewrite Htemp. }
  split; [exact Hreq|]. intros t Ht. rewrite Hrun in Ht.
  rewrite (translate_plain P U C text from to w Hdb Hterms).
  rewrite (remoteStage_eq P U C None text from to [] w). cbv zeta.
  rewrite Hreq.
  destruct (fails U (Fetch req)); [discriminate Ht|].
  destruct (ok (fetch U req)); [|discriminate Ht].
  destruct (normalizeStrict P (data (fetch U req))) as [t'|] eqn:Hn;
    [|discriminate Ht].
  injection Ht as ->.
  destruct (normalizeStrict_content P _ _ Hn) as (s & Hc & Et).
  assert (Hnorm : normalize P (data (fetch U req)) = Some t).
  { unfold normalize, contentOrEmpty. rewrite Hc, Et. now destruct s. }
  rewrite Hnorm. reflexivity.
Qed.

Lemma clamped_variant_refined_by_main_witness :
  let C := {| model := None; apiKey := Some (lit "key"); domains := None;
              temperature := Some (lit "1.5"); termsFile := None;
              databaseFile := None; forceOnline := None |} in
  let U := exampleUtils (chat (lit "hi")) rejectsNothing in
  translate plainPlatform U C (lit "a") (lit "en") (lit "zh") ∅
  = (Ok (lit "hi"), ∅,
     [Called (Fetch (clampedRequest C (lit "a") (lit "en") (lit "zh")));
      Logged Info OnlineApi]).
Proof.
  intros C U.
  apply (proj2 (clamped_variant_refined_by_main plainPlatform U C
                  (lit "a") (lit "en") (lit "zh") ∅));
    reflexivity.
Defined.

(* ================================================================= *)
(** ** The variant with a JSON term file *)

Lemma bindJ_unfold {A B} (m : MJ A) (k : A -> MJ B) s :
  (m ≫= k) s
  = match m s with
    | (NormalJ a, s', ev) => let '(o, s'', ev') := k a s' in (o, s'', ev ++ ev')
    | (ReturnJ v, s', ev) => (ReturnJ v, s', ev)
    | (ThrowJ e, s', ev) => (ThrowJ e, s', ev)
    end.
Proof. reflexivity. Qed.

Lemma bindJ_normal {A B} (m : MJ A) (k : A -> MJ B) s a s' ev :
  m s = (NormalJ a, s', ev) ->
  (m ≫= k) s = let '(o, s'', ev') := k a s' in (o, s'', ev ++ ev').
Proof. intros H. rewrite bindJ_unfold, H. reflexivity. Qed.

Lemma bindJ_throw {A B} (m : MJ A) (k : A -> MJ B) s e s' ev :
  m s = (ThrowJ e, s', ev) -> (m ≫= k) s = (ThrowJ e, s', ev).
Proof. intros H. rewrite bindJ_unfold, H. reflexivity. Qed.

Lemma try_catchJ_normal {A} (m : MJ A) h s a s' ev :
  m s = (NormalJ a, s', ev) -> try_catchJ m h s = (NormalJ a, s', ev).
Proof. intros H. unfold try_catchJ. rewrite H. reflexivity. Qed.

Lemma try_catchJ_throw {A} (m : MJ A) h s e s' ev :
  m s = (ThrowJ e, s', ev) ->
  try_catchJ m h s = let '(o, s'', ev') := h e s' in (o, s'', ev ++ ev').
Proof. intros H. unfold try_catchJ. rewrite H. reflexivity. Qed.

Lemma retJ_bind {A B} (a : A) (k : A -> MJ B) s : (mret a ≫= k) s = k a s.
Proof. rewrite bindJ_unfold. cbn. now destruct (k a s) as [[o s'] ev]. Qed.

Lemma emitJ_bind {B} (e : eventJ) (k : unit -> MJ B) s :
  (emitJ e ≫= k) s = let '(o, s', ev) := k tt s in (o, s', e :: ev).
Proof. rewrite bindJ_unfold. reflexivity. Qed.

Lemma getJ_bind {B} (k : world -> MJ B) s : (getJ ≫= k) s = k s s.
Proof. rewrite bindJ_unfold. unfold getJ. now destruct (k s s) as [[o s'] ev]. Qed.

Lemma world_eta (s : world) :
  {| textFiles := textFiles s; stores := stores s |} = s.
Proof. now destruct s. Qed.

(** A lifted computation that leaves the stores as they are leaves the
    world as it is. *)
Lemma lift_pure {A} (m : M A) s o ev :
  m (stores s) = (o, stores s, ev) -> lift m s = (liftOutcome o, s, map Old ev).
Proof. intros H. unfold lift. now rewrite H, world_eta. Qed.

Lemma lift_files {A} (m : M A) s : textFiles (lift m s).1.2 = textFiles s.
Proof. unfold lift. now destruct (m (stores s)) as [[o w'] ev]. Qed.

Lemma withFile_lookup s path content :
  textFiles (withFile s path content) !! path = Some content.
Proof. apply lookup_insert_eq. Qed.

Section JsonTerms.
Context (P : Platform) (UJ : UtilsJ) (C : Config).

Lemma lift_hostCall c s :
  lift (hostCall (utils UJ) c) s
  = (if fails (utils UJ) c then ThrowJ (OldExn (Rejected c)) else NormalJ tt,
     s, [Old (Called c)]).
Proof.
  destruct (fails (utils UJ) c) eqn:Hf.
  - now rewrite (lift_pure _ s _ _ (hostCall_rejected (utils UJ) c (stores s) Hf)).
  - now rewrite (lift_pure _ s _ _ (hostCall_ok (utils UJ) c (stores s) Hf)).
Qed.

Lemma lift_resolvePath f s :
  lift (resolvePath (utils UJ) f) s
  = (liftOutcome (resolved (utils UJ) f), s,
     map Old (resolveEvents (utils UJ) f)).
Proof. apply lift_pure, resolvePath_pure. Qed.

(** The existence check of lines 225-231. *)
Lemma exists_step path s :
  try_catchJ (existsJ UJ (Some path))
    (fun e => warnJ (TermsCheckFailedJ e);; mret false) s
  = if fails (utils UJ) (Exists (Some path)) then
      (NormalJ false, s,
       [Old (Called (Exists (Some path)));
        LoggedJ Warn (TermsCheckFailedJ (OldExn (Rejected (Exists (Some path)))))])
    else (NormalJ (present s path), s, [Old (Called (Exists (Some path)))]).
Proof.
  unfold try_catchJ, existsJ. rewrite bindJ_unfold, lift_hostCall.
  destruct (fails (utils UJ) (Exists (Some path))); [reflexivity|].
  rewrite getJ_bind. reflexivity.
Qed.

(** The creation of lines 233-245. *)
Lemma createTermsFile_eq path s :
  createTermsFile UJ (Some path) s
  = let c := WriteTextFile (Some path) (lit "[]") in
    if failsJ UJ c then
      (NormalJ false, s,
       [LoggedJ Info (TermsFileMissing (Some path)); CalledJ c;
        LoggedJ Error (TermsCreateFailed (RejectedJ c))])
    else
      (NormalJ true, withFile s path (lit "[]"),
       [LoggedJ Info (TermsFileMissing (Some path)); CalledJ c;
        LoggedJ Info TermsFileCreated]).
Proof.
  cbv zeta. unfold createTermsFile.
  change (infoJ (TermsFileMissing (Some path)))
    with (emitJ (LoggedJ Info (TermsFileMissing (Some path)))).
  rewrite emitJ_bind.
  unfold try_catchJ, writeTextFile, hostCallJ.
  rewrite !bindJ_unfold. cbn [emitJ].
  destruct (failsJ UJ (WriteTextFile (Some path) (lit "[]"))); reflexivity.
Qed.

(** Parsing (lines 250-260) always completes normally. *)
Lemma parse_step content s :
  try_catchJ
    (parsedTerms ← lift (parseJSON P content);
     match parsedTerms with
     | JArr items => infoJ (TermsFileLoaded (length items));; mret items
     | _ => warnJ TermsNotArray;; mret []
     end)
    (fun jsonErr => warnJ (TermsParseFailed jsonErr);; mret []) s
  = (NormalJ (termsOfContent P content), s, [parseLog P content]).
Proof.
  unfold try_catchJ, termsOfContent, parseLog. rewrite bindJ_unfold.
  assert (Hp : lift (parseJSON P content) s
               = (match JSON_parse P content with
                  | Some v => NormalJ v
                  | None => ThrowJ (OldExn SyntaxError)
                  end, s, [])).
  { unfold lift, parseJSON. destruct (JSON_parse P content);
      cbn; now rewrite world_eta. }
  rewrite Hp. destruct (JSON_parse P content) as [[]|]; reflexivity.
Qed.

(** Reading and parsing (lines 248-261) leaves the world as it is. *)
Lemma loadTermsFile_eq path s :
  loadTermsFile P UJ (Some path) s
  = let c := ReadTextFile (Some path) in
    match (if fails (utils UJ) c then None else textFiles s !! path) with
    | Some content =>
        (NormalJ (termsOfContent P content), s,
         [Old (Called c); parseLog P content])
    | None => (ThrowJ (OldExn (Rejected c)), s, [Old (Called c)])
    end.
Proof.
  cbv zeta. unfold loadTermsFile. rewrite bindJ_unfold. unfold readTextFileJ.
  rewrite bindJ_unfold, lift_hostCall.
  destruct (fails (utils UJ) (ReadTextFile (Some path))); [reflexivity|].
  rewrite getJ_bind.
  change (Some path ≫= (textFiles s !!.)) with (textFiles s !! path).
  destruct (textFiles s !! path) as [content|]; [|reflexivity].
  change ((mret content : MJ (list N)) s) with (NormalJ content, s, @nil eventJ).
  cbv beta iota. rewrite parse_step. reflexivity.
Qed.

(** The term stage, case by case: it always completes normally; it
    leaves the stores as they are; it writes no file, or creates the
    term file as an empty array after the existence check did not find
    it; the terms are none, or those of the content of the term
    file. *)
Lemma termsStageJ_cases s :
  exists terms s' ev,
    termsStageJ P UJ C s = (NormalJ terms, s', ev)
    /\ (s' = s
        \/ exists path,
            resolved (utils UJ) (termsFile C) = Normal (Some path)
            /\ s' = withFile s path (lit "[]")
            /\ In (CalledJ (WriteTextFile (Some path) (lit "[]"))) ev
            /\ (fails (utils UJ) (Exists (Some path)) = true
                \/ present s path = false))
    /\ (terms = []
        \/ exists path content,
            resolved (utils UJ) (termsFile C) = Normal (Some path)
            /\ textFiles s' !! path = Some content
            /\ terms = termsOfContent P content).
Proof.
  unfold termsStageJ.
  destruct (isSet (termsFile C)) eqn:Hset;
    [|exists [], s, []; auto].
  unfold try_catchJ at 1. rewrite bindJ_unfold, lift_resolvePath.
  pose proof (resolvePath_noReturn (utils UJ) (termsFile C) ∅) as HR.
  fold (resolved (utils UJ) (termsFile C)) in HR.
  destruct (resolved (utils UJ) (termsFile C)) as [r|v|e] eqn:Hres;
    cbn [liftOutcome]; [|now destruct (HR v)|].
  2:{ eexists [], s, _. split; [reflexivity|]. auto. }
  destruct (resolved_isSet (utils UJ) _ r Hset Hres) as (path & ->).
  rewrite bindJ_unfold, exists_step.
  assert (Hcreate :
            fails (utils UJ) (Exists (Some path)) = true
            \/ present s path = false ->
            forall ev,
              In (CalledJ (WriteTextFile (Some path) (lit "[]"))) ev ->
              withFile s path (lit "[]") = s
              \/ exists path0,
                  Normal (Some path) = Normal (Some path0)
                  /\ withFile s path (lit "[]") = withFile s path0 (lit "[]")
                  /\ In (CalledJ (WriteTextFile (Some path0) (lit "[]"))) ev
                  /\ (fails (utils UJ) (Exists (Some path0)) = true
                      \/ present s path0 = false)).
  { intros Hwhy ev Hin. right. exists path. auto. }
  assert (Hterms : forall s0 content,
             textFiles s0 !! path = Some content ->
             termsOfContent P content = []
             \/ exists path0 content0,
                 Normal (Some path) = Normal (Some path0)
                 /\ textFiles s0 !! path0 = Some content0
                 /\ termsOfContent P content = termsOfContent P content0).
  { intros s0 content Hc. right. exists path, content. auto. }
  destruct (fails (utils UJ) (Exists (Some path))) eqn:Hfe;
    [|destruct (present s path) eqn:Hp];
    cbv beta iota; rewrite bindJ_unfold; cbn [negb];
    rewrite ?retJ_bind, ?createTermsFile_eq; cbv zeta;
    try (destruct (failsJ UJ (WriteTextFile (Some path) (lit "[]"))) eqn:Hfw);
    cbv beta iota; rewrite ?loadTermsFile_eq; cbv zeta;
    try (change ((mret true : MJ bool) s) with (NormalJ true, s, @nil eventJ);
         cbv beta iota; rewrite loadTermsFile_eq; cbv zeta);
    try (destruct (fails (utils UJ) (ReadTextFile (Some path))) eqn:Hfr);
    rewrite ?withFile_lookup;
    try (destruct (textFiles s !! path) as [content|] eqn:Hc).
  all: eexists _, _, _; (split; [reflexivity|]).
  all: split;
    [ first
        [ now left
        | right; exists path; split; [reflexivity|]; split; [reflexivity|];
          split; [repeat rewrite in_app_iff; cbn [In]; auto 20 | auto] ]
    | first
        [ now left
        | right; eexists path, _; split; [reflexivity|];
          split; [first [eassumption | apply withFile_lookup] | reflexivity] ] ].
Qed.
End JsonTerms.

Lemma keepsFiles_ret {A} (a : A) : keepsFiles (mret a : MJ A).
Proof. intros s. reflexivity. Qed.

Lemma keepsFiles_throw {A} e : keepsFiles (throwJ e : MJ A).
Proof. intros s. reflexivity. Qed.

Lemma keepsFiles_return {A} v : keepsFiles (returnJ v : MJ A).
Proof. intros s. reflexivity. Qed.

Lemma keepsFiles_emit e : keepsFiles (emitJ e).
Proof. intros s. reflexivity. Qed.

Lemma keepsFiles_lift {A} (m : M A) : keepsFiles (lift m).
Proof. intros s. apply lift_files. Qed.

Lemma keepsFiles_bind {A B} (m : MJ A) (k : A -> MJ B) :
  keepsFiles m -> (forall a, keepsFiles (k a)) -> keepsFiles (m ≫= k).
Proof.
  intros Hm Hk s. rewrite bindJ_unfold. specialize (Hm s).
  destruct (m s) as [[[a|v|e] s1] ev]; cbn in *; try exact Hm.
  specialize (Hk a s1). destruct (k a s1) as [[o s2] ev2]; cbn in *.
  now rewrite Hk.
Qed.

Section JsonFiles.
Context (P : Platform) (UJ : UtilsJ) (C : Config).

Lemma hostCallJ_keepsFiles c : keepsFiles (hostCallJ UJ c).
Proof.
  unfold hostCallJ. apply keepsFiles_bind; [apply keepsFiles_emit|].
  intros _. destruct (failsJ UJ c);
    [apply keepsFiles_throw | apply keepsFiles_ret].
Qed.

Lemma remoteStageJ_keepsFiles db text from to terms :
  keepsFiles (remoteStageJ P UJ C db text from to terms).
Proof.
  unfold remoteStageJ.
  apply keepsFiles_bind; [apply hostCallJ_keepsFiles|]. intros _.
  destruct (ok _).
  - apply keepsFiles_bind.
    + destruct (normalize P _); [apply keepsFiles_ret | apply keepsFiles_throw].
    + intros t. apply keepsFiles_bind; [apply keepsFiles_lift|]. intros _.
      apply keepsFiles_bind; [apply keepsFiles_lift|]. intros _.
      apply keepsFiles_return.
  - apply keepsFiles_bind; [apply keepsFiles_lift|]. intros _.
    apply keepsFiles_throw.
Qed.

Lemma present_false s path :
  present s path = false -> textFiles s !! path = None.
Proof.
  unfold present. intros H. apply orb_false_elim in H as [H _].
  apply bool_decide_eq_false in H.
  destruct (textFiles s !! path); [|reflexivity]. destruct H. eauto.
Qed.
End JsonFiles.

(** X17. The variant with a JSON term file writes no text file but its
    term file, and nothing into it but the empty array: after a call
    the text files are as before, or the path the term file name
    resolves to holds [[]]; and that happens only when no text file was
    there, or when the existence check was rejected. *)
Theorem translateJson_writes_only_term_file (P : Platform) (UJ : UtilsJ)
    (C : Config) (text from to : list N) (s : world) :
  let '(_, s', _) := translateJson P UJ C text from to s in
  textFiles s' = textFiles s
  \/ exists path,
      resolved (utils UJ) (termsFile C) = Normal (Some path)
      /\ textFiles s' = <[path := lit "[]"]> (textFiles s)
      /\ (fails (utils UJ) (Exists (Some path)) = true
          \/ textFiles s !! path = None).
Proof.
  unfold translateJson, translateJsonBody. rewrite bindJ_unfold.
  pose proof (lift_files (cacheStage P (utils UJ) C text from to) s) as H1.
  destruct (lift (cacheStage P (utils UJ) C text from to) s)
    as [[[db|v|e] s1] ev1]; cbn in H1; [|now left..].
  rewrite bindJ_unfold.
  destruct (termsStageJ_cases P UJ C s1) as (terms & s2 & ev2 & -> & Hs2 & _).
  pose proof (remoteStageJ_keepsFiles P UJ C db text from to terms s2) as H3.
  destruct (remoteStageJ P UJ C db text from to terms s2) as [[o s3] ev3].
  cbn in H3.
  assert (Hgoal : textFiles s3 = textFiles s
                  \/ exists path,
                      resolved (utils UJ) (termsFile C) = Normal (Some path)
                      /\ textFiles s3 = <[path := lit "[]"]> (textFiles s)
                      /\ (fails (utils UJ) (Exists (Some path)) = true
                          \/ textFiles s !! path = None)).
  { destruct Hs2 as [->|(path & Hres & -> & _ & Hwhy)].
    - left. congruence.
    - right. exists path. split; [exact Hres|]. rewrite H3. cbn. rewrite H1.
      split; [reflexivity|].
      destruct Hwhy as [Hf|Hp]; [now left|right].
      rewrite <- H1. now apply present_false. }
  destruct o; exact Hgoal.
Qed.

(** X18. When the existence check is rejected and the write is not, the
    term stage replaces whatever the term file held by the empty array,
    and goes on with what the empty array gives. *)
Theorem rejected_check_overwrites_term_file (P : Platform) (UJ : UtilsJ)
    (C : Config) (path : list N) (s : world) :
  isSet (termsFile C) = true ->
  resolved (utils UJ) (termsFile C) = Normal (Some path) ->
  fails (utils UJ) (Exists (Some path)) = true ->
  failsJ UJ (WriteTextFile (Some path) (lit "[]")) = false ->
  exists terms ev,
    termsStageJ P UJ C s = (NormalJ terms, withFile s path (lit "[]"), ev)
    /\ (terms = [] \/ terms = termsOfContent P (lit "[]")).
Proof.
  intros Hset Hres Hfe Hfw. unfold termsStageJ. rewrite Hset.
  unfold try_catchJ at 1. rewrite bindJ_unfold, lift_resolvePath, Hres.
  cbn [liftOutcome]. rewrite bindJ_unfold, exists_step, Hfe.
  cbv beta iota. rewrite bindJ_unfold. cbn [negb].
  rewrite createTermsFile_eq. cbv zeta. rewrite Hfw. cbv beta iota.
  rewrite loadTermsFile_eq. cbv zeta. rewrite withFile_lookup.
  destruct (fails (utils UJ) (ReadTextFile (Some path)));
    eexists _, _; (split; [reflexivity | auto]).
Qed.

Lemma rejected_check_overwrites_term_file_witness :
  let UJ := exampleUtilsJ (chat (lit "hi")) rejectsExists rejectsNothingJ in
  exists terms ev,
    termsStageJ plainPlatform UJ exampleConfig oneTermFile
    = (NormalJ terms, withFile oneTermFile termsPath (lit "[]"), ev)
    /\ (terms = [] \/ terms = termsOfContent plainPlatform (lit "[]")).
Proof.
  intros UJ.
  apply (rejected_check_overwrites_term_file plainPlatform UJ exampleConfig
           termsPath oneTermFile);
    reflexivity.
Defined.

(** X19. A term file that is not there is created once. When nothing is
    stored under the path and no host call is rejected, the term stage
    writes the empty array to the path and loads it; run again on the
    world it leaves, it finds the file, writes nothing and loads the
    same. *)
Theorem missing_term_file_is_created_once (P : Platform) (UJ : UtilsJ)
    (C : Config) (path : list N) (s : world) :
  isSet (termsFile C) = true ->
  resolved (utils UJ) (termsFile C) = Normal (Some path) ->
  fails (utils UJ) (Exists (Some path)) = false ->
  fails (utils UJ) (ReadTextFile (Some path)) = false ->
  failsJ UJ (WriteTextFile (Some path) (lit "[]")) = false ->
  present s path = false ->
  let s1 := withFile s path (lit "[]") in
  let check := [Old (Called (Exists (Some path)))] in
  let load := [Old (Called (ReadTextFile (Some path))); parseLog P (lit "[]")] in
  termsStageJ P UJ C s
  = (NormalJ (termsOfContent P (lit "[]")), s1,
     map Old (resolveEvents (utils UJ) (termsFile C)) ++ check
     ++ [LoggedJ Info (TermsFileMissing (Some path));
         CalledJ (WriteTextFile (Some path) (lit "[]"));
         LoggedJ Info TermsFileCreated]
     ++ load)
  /\ termsStageJ P UJ C s1
     = (NormalJ (termsOfContent P (lit "[]")), s1,
        map Old (resolveEvents (utils UJ) (termsFile C)) ++ check ++ load).
Proof.
  intros Hset Hres Hfe Hfr Hfw Hp s1 check load.
  assert (Hp1 : present s1 path = true).
  { unfold present, s1. rewrite withFile_lookup. reflexivity. }
  split; unfold termsStageJ; rewrite Hset; unfold try_catchJ at 1;
    rewrite bindJ_unfold, lift_resolvePath, Hres; cbn [liftOutcome];
    rewrite bindJ_unfold, exists_step, Hfe.
  - rewrite Hp. cbv beta iota. rewrite bindJ_unfold. cbn [negb].
    rewrite createTermsFile_eq. cbv zeta. rewrite Hfw. cbv beta iota.
    rewrite loadTermsFile_eq. cbv zeta. rewrite Hfr, withFile_lookup.
    reflexivity.
  - rewrite Hp1. cbv beta iota. rewrite bindJ_unfold. cbn [negb].
    change ((mret true : MJ bool) s1) with (NormalJ true, s1, @nil eventJ).
    cbv beta iota. rewrite loadTermsFile_eq. cbv zeta.
    rewrite Hfr. unfold s1 at 1. rewrite withFile_lookup.
    reflexivity.
Qed.

Lemma missing_term_file_is_created_once_witness :
  let UJ := exampleUtilsJ (chat (lit "hi")) rejectsNothing rejectsNothingJ in
  let s1 := withFile emptyWorld termsPath (lit "[]") in
  (termsStageJ plainPlatform UJ exampleConfig emptyWorld).1.2 = s1
  /\ (termsStageJ plainPlatform UJ exampleConfig s1).1 = (NormalJ [], s1).
Proof.
  intros UJ s1.
  destruct (missing_term_file_is_created_once plainPlatform UJ exampleConfig
              termsPath emptyWorld eq_refl eq_refl eq_refl eq_refl eq_refl eq_refl)
    as [H1 H2].
  fold s1 in H1, H2. rewrite H1, H2. split; reflexivity.
Defined.

(** X20. The variant sends the parsed term file as it is: when the file
    is read and parses to an array, every entry of the array is a term
    of the request, whatever the text, and the file and the stores are
    left as they are. A call then either returns from the cache with
    no remote call, or makes the remote call with all the entries as
    [terms]; an empty array sends no [terms] field. *)
Theorem term_file_is_sent_unfiltered (P : Platform) (UJ : UtilsJ) (C : Config)
    (path content : list N) (items : list json) (s : world) :
  isSet (termsFile C) = true ->
  resolved (utils UJ) (termsFile C) = Normal (Some path) ->
  fails (utils UJ) (Exists (Some path)) = false ->
  fails (utils UJ) (ReadTextFile (Some path)) = false ->
  textFiles s !! path = Some content ->
  JSON_parse P content = Some (JArr items) ->
  termsStageJ P UJ C s
  = (NormalJ items, s,
     map Old (resolveEvents (utils UJ) (termsFile C))
     ++ [Old (Called (Exists (Some path)));
         Old (Called (ReadTextFile (Some path)));
         LoggedJ Info (TermsFileLoaded (length items))])
  /\ forall text from to,
      let '(r, _, ev) := translateJson P UJ C text from to s in
      (exists c, r = OkJ c /\ forall req, ~ In (CalledJ (FetchJ req)) ev)
      \/ In (CalledJ (FetchJ {| base := buildRequest C text from to [];
                                terms_json := if isEmpty items then None
                                              else Some items |})) ev.
Proof.
  intros Hset Hres Hfe Hfr Hc Hparse.
  assert (Hstage : forall s0,
             textFiles s0 !! path = Some content ->
             termsStageJ P UJ C s0
             = (NormalJ items, s0,
                map Old (resolveEvents (utils UJ) (termsFile C))
                ++ [Old (Called (Exists (Some path)));
                    Old (Called (ReadTextFile (Some path)));
                    LoggedJ Info (TermsFileLoaded (length items))])).
  { intros s0 Hc0.
    assert (Hp : present s0 path = true).
    { unfold present. now rewrite Hc0. }
    unfold termsStageJ. rewrite Hset. unfold try_catchJ at 1.
    rewrite bindJ_unfold, lift_resolvePath, Hres. cbn [liftOutcome].
    rewrite bindJ_unfold, exists_step, Hfe, Hp. cbv beta iota.
    rewrite bindJ_unfold. cbn [negb].
    change ((mret true : MJ bool) s0) with (NormalJ true, s0, @nil eventJ).
    cbv beta iota. rewrite loadTermsFile_eq. cbv zeta. rewrite Hfr, Hc0.
    unfold termsOfContent, parseLog. rewrite Hparse. reflexivity. }
  split; [exact (Hstage s Hc)|].
  intros text from to. unfold translateJson, translateJsonBody.
  rewrite bindJ_unfold.
  pose proof (lift_files (cacheStage P (utils UJ) C text from to) s) as H1.
  pose proof (cacheStage_noThrow P (utils UJ) C text from to (stores s)) as HT.
  unfold lift in H1. unfold lift at 1. unfold outcomeOf in HT.
  destruct (cacheStage P (utils UJ) C text from to (stores s))
    as [[[db|v|e] w1] ev1]; cbn in H1, HT; cbn [liftOutcome].
  - set (s1 := {| textFiles := textFiles s; stores := w1 |}).
    assert (Hc1 : textFiles s1 !! path = Some content) by exact Hc.
    rewrite (bindJ_normal _ _ _ _ _ _ (Hstage s1 Hc1)).
    assert (Hfirst : exists o s' ev,
               remoteStageJ P UJ C db text from to items s1
               = (o, s',
                  CalledJ (FetchJ {| base := buildRequest C text from to [];
                                     terms_json := if isEmpty items then None
                                                   else Some items |}) :: ev)).
    { unfold remoteStageJ, hostCallJ. rewrite bindJ_unfold, emitJ_bind.
      match goal with
      | |- context [(if failsJ UJ ?c then _ else _) s1] =>
          destruct (failsJ UJ c)
      end.
      + eexists _, _, _. reflexivity.
      + change ((mret tt : MJ unit) s1) with (NormalJ tt, s1, @nil eventJ).
        cbv beta iota.
        match goal with
        | |- context [?m s1] =>
            lazymatch m with
            | (if _ then _ else _) => destruct (m s1) as [[o s'] ev']
            end
        end.
        eexists _, _, _. reflexivity. }
    destruct Hfirst as (o & s' & ev & ->).
    assert (Hin : forall pre, In (CalledJ (FetchJ {| base := buildRequest C text from to [];
                                     terms_json := if isEmpty items then None
                                                   else Some items |}))
                    (map Old ev1 ++ pre ++ CalledJ (FetchJ {| base := buildRequest C text from to [];
                                     terms_json := if isEmpty items then None
                                                   else Some items |}) :: ev)).
    { intros pre. apply in_or_app. right. apply in_or_app. right. now left. }
    destruct o; right; apply Hin.
  - left. exists v. split; [reflexivity|].
    intros req Hin. apply in_map_iff in Hin as (x & Hx & _). discriminate Hx.
  - now destruct (HT e).
Qed.

Lemma term_file_is_sent_unfiltered_witness :
  let UJ := exampleUtilsJ (chat (lit "hi")) rejectsNothing rejectsNothingJ in
  (termsStageJ plainPlatform UJ exampleConfig oneTermFile).1
  = (NormalJ [JObj [(lit "source", JStr (lit "CPU")); (lit "target", JStr cpuTarget)]],
     oneTermFile).
Proof.
  intros UJ.
  destruct (term_file_is_sent_unfiltered plainPlatform UJ exampleConfig
              termsPath legacyText
              [JObj [(lit "source", JStr (lit "CPU")); (lit "target", JStr cpuTarget)]]
              oneTermFile eq_refl eq_refl eq_refl eq_refl eq_refl eq_refl)
    as [H _].
  rewrite H. reflexivity.
Defined.

Lemma embedEvent_quiet ev : quietEvents ev -> map embedEvent ev = map Old ev.
Proof.
  induction 1 as [|e ev He _ IH]; [reflexivity|]. cbn [map]. rewrite IH.
  f_equal. destruct e as [[]|]; try reflexivity. discriminate He.
Qed.

Lemma remoteCalls_embed ev : remoteCalls ev = O -> map embedEvent ev = map Old ev.
Proof.
  unfold remoteCalls. induction ev as [|e ev IH]; [reflexivity|].
  cbn [List.filter map]. destruct (isFetch e) eqn:E; [discriminate|].
  intros H. rewrite (IH H). f_equal.
  destruct e as [[]|]; try reflexivity. discriminate E.
Qed.

Section SameWithoutTerms.
Context (P : Platform) (UJ : UtilsJ) (C : Config).
Context (Hfetch : forall req, fetchJ UJ (plainRequest req) = fetch (utils UJ) req).
Context (Hfails : forall req,
            failsJ UJ (FetchJ (plainRequest req)) = fails (utils UJ) (Fetch req)).

Lemma remoteStageJ_plain db text from to s :
  remoteStageJ P UJ C db text from to [] s
  = let '(o, w', ev) :=
      remoteStage P (utils UJ) C db text from to [] (stores s) in
    (match o with
     | Normal v | Return v => ReturnJ v
     | Throw e => ThrowJ (embedExn e)
     end,
     {| textFiles := textFiles s; stores := w' |}, map embedEvent ev).
Proof.
  rewrite (remoteStage_eq P (utils UJ) C db text from to [] (stores s)).
  cbv zeta. unfold remoteStageJ, buildRequestJ. cbn [isEmpty].
  set (req := buildRequest C text from to []).
  change {| base := req; terms_json := None |} with (plainRequest req).
  rewrite Hfetch. unfold hostCallJ. rewrite bindJ_unfold, emitJ_bind.
  rewrite Hfails.
  destruct (fails (utils UJ) (Fetch req)).
  { cbn. now rewrite world_eta. }
  change ((mret tt : MJ unit) s) with (NormalJ tt, s, @nil eventJ).
  cbv beta iota.
  destruct (ok (fetch (utils UJ) req)).
  - destruct (normalize P (data (fetch (utils UJ) req))) as [t|].
    + rewrite retJ_bind.
      assert (Hi : lift (info OnlineApi) s
                   = (NormalJ tt, s, [Old (Logged Info OnlineApi)])).
      { apply (lift_pure (info OnlineApi) s (Normal tt) [Logged Info OnlineApi]).
        reflexivity. }
      rewrite (bindJ_normal _ _ _ _ _ _ Hi).
      rewrite bindJ_unfold. unfold lift at 1.
      pose proof (writeBack_no_remote P (utils UJ) db text from to t (stores s)) as Hno.
      destruct (writeBack_normal P (utils UJ) db text from to t (stores s))
        as (w' & ev & Hw).
      rewrite Hw in Hno |- *. unfold eventsOf in Hno. cbn in Hno.
      cbn. rewrite (remoteCalls_embed _ Hno), app_nil_r. reflexivity.
    + cbn. now rewrite world_eta.
  - assert (He : lift (error (ApiError (apiErrorMessage P (fetch (utils UJ) req)))) s
                 = (NormalJ tt, s,
                    [Old (Logged Error
                            (ApiError (apiErrorMessage P (fetch (utils UJ) req))))])).
    { apply (lift_pure (error (ApiError (apiErrorMessage P (fetch (utils UJ) req))))
               s (Normal tt)
               [Logged Error (ApiError (apiErrorMessage P (fetch (utils UJ) req)))]).
      reflexivity. }
    rewrite (bindJ_normal _ _ _ _ _ _ He). cbn. now rewrite world_eta.
Qed.
End SameWithoutTerms.

(** X21. Without a term file the variant is src/main.js: when the term
    file name is not set (or blank) and the two hosts answer alike, a
    call of the variant returns what the call of src/main.js returns,
    leaves the stores it leaves and the text files as they are, and shows
    the same host calls and log lines. *)
Theorem json_variant_without_terms_is_main (P : Platform) (UJ : UtilsJ)
    (C : Config) (text from to : list N) (s : world) :
  isSet (termsFile C) = false ->
  (forall req, fetchJ UJ (plainRequest req) = fetch (utils UJ) req) ->
  (forall req,
      failsJ UJ (FetchJ (plainRequest req)) = fails (utils UJ) (Fetch req)) ->
  translateJson P UJ C text from to s
  = let '(r, w', ev) := translate P (utils UJ) C text from to (stores s) in
    (embedResult r, {| textFiles := textFiles s; stores := w' |},
     map embedEvent ev).
Proof.
  intros Hset Hfetch Hfails.
  unfold translateJson, translateJsonBody, translate, translateBody.
  rewrite bindJ_unfold, bind_unfold. unfold lift at 1.
  pose proof (cacheStage_noThrow P (utils UJ) C text from to (stores s)) as HT.
  pose proof (proj2 (cacheStage_quiet P (utils UJ) C text from to (stores s))) as HQ.
  unfold outcomeOf, eventsOf in HT, HQ.
  destruct (cacheStage P (utils UJ) C text from to (stores s))
    as [[[db|v|e] w1] ev1]; cbn in HT, HQ; cbn [liftOutcome].
  - unfold onlineStages.
    assert (Ht : termResolution P (utils UJ) C text w1 = (Normal [], w1, [])).
    { unfold termResolution, termsStage. now rewrite Hset. }
    rewrite (bind_normal _ _ _ _ _ _ Ht).
    assert (HtJ : forall s0, termsStageJ P UJ C s0 = (NormalJ [], s0, [])).
    { intros s0. unfold termsStageJ. now rewrite Hset. }
    rewrite (bindJ_normal _ _ _ _ _ _ (HtJ _)).
    rewrite (remoteStageJ_plain P UJ C Hfetch Hfails). cbn [stores textFiles].
    destruct (remoteStage P (utils UJ) C db text from to [] w1)
      as [[[t|t|e] w2] ev2]; cbn;
      rewrite map_app, (embedEvent_quiet _ HQ); reflexivity.
  - now rewrite (embedEvent_quiet _ HQ).
  - now destruct (HT e).
Qed.

Lemma json_variant_without_terms_is_main_witness :
  let UJ := exampleUtilsJ (chat (lit "hi")) rejectsNothing rejectsNothingJ in
  let C := noTerms exampleConfig in
  translateJson plainPlatform UJ C (lit "a") (lit "en") (lit "zh") emptyWorld
  = let '(r, w', ev) :=
      translate plainPlatform (utils UJ) C (lit "a") (lit "en") (lit "zh") ∅ in
    (embedResult r, {| textFiles := ∅; stores := w' |}, map embedEvent ev).
Proof.
  intros UJ C.
  apply (json_variant_without_terms_is_main plainPlatform UJ C
           (lit "a") (lit "en") (lit "zh") emptyWorld);
    reflexivity.
Defined.
